(** * Diagram mutation and streaming-assembly engine of next-ai-draw-io

    Shallow embedding of the client tool handlers of the diagram hook
    ([handleDisplayDiagram], [handleEditDiagram], [handleAppendDiagram]),
    of the region cache of the chat and get-cached-regions routes, and of
    the helpers of lib/utils that the hook imports ([isMxCellXmlComplete],
    [applyDiagramOperations], [wrapWithMxFile]); further, of the
    extract_image_regions and get_shape_library tools and the error
    handler of the chat route, and of the cropping and image-source checks
    of the extract-regions route.

    Text is modelled as [list ascii] (JavaScript strings restricted to
    ASCII); literals are written with [lit]. *)

From Stdlib Require Import List Ascii String Bool ZArith NArith Lia QArith Qround.
Import ListNotations.
Open Scope list_scope.
Close Scope Q_scope.

Abbreviation str := (list ascii).

(** The double-quote character. *)
Definition dq : ascii := ascii_of_nat 34.

Definition lit (s : string) : str := list_ascii_of_string s.

(** ** String helpers with JavaScript semantics *)

(** [s.slice(-n)]: the last [n] characters (the whole string if shorter). *)
Definition slice_last (n : nat) (s : str) : str :=
  skipn (List.length s - n) s.

(** [a.startsWith(p)] *)
Fixpoint starts_with (p s : str) : bool :=
  match p, s with
  | [], _ => true
  | c :: p', d :: s' => Ascii.eqb c d && starts_with p' s'
  | _ :: _, [] => false
  end.

(** [s.includes(p)] *)
Fixpoint includes (p s : str) : bool :=
  starts_with p s || match s with [] => false | _ :: s' => includes p s' end.

(** ASCII white space as stripped by [String.prototype.trim]. *)
Definition is_ws (c : ascii) : bool :=
  match nat_of_ascii c with
  | 9 | 10 | 11 | 12 | 13 | 32 => true
  | _ => false
  end.

Fixpoint trim_start (s : str) : str :=
  match s with
  | c :: s' => if is_ws c then trim_start s' else s
  | [] => []
  end.

Definition js_trim (s : str) : str := rev (trim_start (rev (trim_start s))).

(** ** Completeness detector ([isMxCellXmlComplete] of lib/utils) *)

Module Detector.

(** Modelled from the spec: [isMxCellXmlComplete] lives in lib/utils, which
    is not part of the sources at hand; this follows the spec's section
    4.2: a left-to-right scan that tracks whether it is inside a quoted
    attribute value, inside an angle bracket, and the depth of open,
    non-self-closed start tags. *)
Inductive tag_kind := TOpen | TClose | TOther.

Record scan_st := mk_scan {
  s_quote : option ascii;   (** the quote character we are inside of *)
  s_tag : bool;             (** inside [<...>] *)
  s_fresh : bool;           (** the previous character was the [<] *)
  s_kind : tag_kind;        (** start tag, end tag, or [<?]/[<!] *)
  s_slash : bool;           (** the previous tag character was [/] *)
  s_depth : Z               (** open-element depth *)
}.

Definition scan_init : scan_st := mk_scan None false false TOpen false 0.

Definition close_depth (k : tag_kind) (slash : bool) (d : Z) : Z :=
  match k with
  | TOpen => if slash then d else (d + 1)%Z
  | TClose => (d - 1)%Z
  | TOther => d
  end.

Definition in_tag_step (st : scan_st) (c : ascii) : scan_st :=
  let '(mk_scan q t _ k sl d) := st in
  if Ascii.eqb c dq || Ascii.eqb c "'" then mk_scan (Some c) t false k false d
  else if Ascii.eqb c ">" then mk_scan q false false k false (close_depth k sl d)
  else if Ascii.eqb c "/" then mk_scan q t false k true d
  else mk_scan q t false k false d.

Definition scan_step (st : scan_st) (c : ascii) : scan_st :=
  let '(mk_scan q t fr k sl d) := st in
  match q with
  | Some qc =>
      if Ascii.eqb c qc then mk_scan None t fr k false d else st
  | None =>
      if t then
        if fr && Ascii.eqb c "/" then mk_scan None t false TClose false d
        else if fr && (Ascii.eqb c "?" || Ascii.eqb c "!")
        then mk_scan None t false TOther false d
        else in_tag_step st c
      else if Ascii.eqb c "<" then mk_scan None true true TOpen false d
      else st
  end.

Definition scan (s : str) : scan_st := fold_left scan_step s scan_init.

Definition ends_closed (st : scan_st) : bool :=
  match s_quote st with
  | None => negb (s_tag st) && Z.eqb (s_depth st) 0
  | Some _ => false
  end.

Definition isMxCellXmlComplete (s : str) : bool := ends_closed (scan s).

End Detector.

(** String equality ([===] on strings). *)
Fixpoint str_eqb (a b : str) : bool :=
  match a, b with
  | [], [] => true
  | x :: a', y :: b' => Ascii.eqb x y && str_eqb a' b'
  | _, _ => false
  end.

Definition str_mem (x : str) (l : list str) : bool := existsb (str_eqb x) l.

(** ** Patch engine ([applyDiagramOperations] of lib/utils) *)

Module Patch.

(** Modelled from the spec: [applyDiagramOperations] lives in lib/utils,
    which is not part of the sources at hand; this follows the spec's
    sections 3 and 4.4 (a document is an ordered sequence of cells; the
    operations are evaluated one after the other on a working copy; a
    failing operation is recorded and skipped; the original document is
    returned when any operation failed; a delete removes the fixed point
    of the parent / edge-endpoint cascade). The payload [new_xml] is given
    as the result of parsing it (section 4.1): [None] when it is absent or
    does not parse. *)
Inductive cell_kind := Vertex | Edge.

Record cell := mkCell {
  cid : str;
  ckind : cell_kind;
  cparent : str;
  csource : option str;
  ctarget : option str
}.

Definition doc := list cell.

Inductive op_kind := OpUpdate | OpAdd | OpDelete.

Record DiagramOperation := mkOp {
  operation : op_kind;
  cell_id : str;
  new_xml : option cell
}.

Inductive err_kind := DuplicateId | UnknownCell | MalformedFragment.

Record OperationError := mkErr { etype : err_kind; ecell : str }.

Definition exists_id (w : doc) (id : str) : bool :=
  existsb (fun c => str_eqb (cid c) id) w.

Definition opt_mem (S : list str) (o : option str) : bool :=
  match o with Some x => str_mem x S | None => false end.

Definition is_edge (c : cell) : bool :=
  match ckind c with Edge => true | Vertex => false end.

(** A cell is pulled into the delete set [S] by its parent or, for an
    edge, by one of its endpoints. *)
Definition pulled (S : list str) (c : cell) : bool :=
  str_mem (cparent c) S
  || (is_edge c && (opt_mem S (csource c) || opt_mem S (ctarget c))).

Definition cascade_step (w : doc) (S : list str) : list str :=
  S ++ map cid (filter (fun c => negb (str_mem (cid c) S) && pulled S c) w).

Fixpoint cascade_iter (fuel : nat) (w : doc) (S : list str) : list str :=
  match fuel with
  | O => S
  | Datatypes.S f =>
      let S' := cascade_step w S in
      if Nat.eqb (List.length S') (List.length S) then S else cascade_iter f w S'
  end.

Definition cascade (w : doc) (id : str) : list str :=
  cascade_iter (Datatypes.S (List.length w)) w [id].

Definition remove_cascade (w : doc) (id : str) : doc :=
  let D := cascade w id in filter (fun c => negb (str_mem (cid c) D)) w.

Definition replace_cell (w : doc) (id : str) (c : cell) : doc :=
  map (fun c0 => if str_eqb (cid c0) id then c else c0) w.

Definition with_payload (o : DiagramOperation) (k : cell -> doc) (w : doc)
  : doc * option OperationError :=
  match new_xml o with
  | Some c => if str_eqb (cid c) (cell_id o) then (k c, None)
              else (w, Some (mkErr MalformedFragment (cell_id o)))
  | None => (w, Some (mkErr MalformedFragment (cell_id o)))
  end.

Definition op_step (w : doc) (o : DiagramOperation) : doc * option OperationError :=
  let id := cell_id o in
  match operation o with
  | OpAdd =>
      if exists_id w id then (w, Some (mkErr DuplicateId id))
      else with_payload o (fun c => w ++ [c]) w
  | OpUpdate =>
      if exists_id w id then with_payload o (replace_cell w id) w
      else (w, Some (mkErr UnknownCell id))
  | OpDelete =>
      if exists_id w id then (remove_cascade w id, None)
      else (w, Some (mkErr UnknownCell id))
  end.

Fixpoint run (w : doc) (ops : list DiagramOperation) : doc * list OperationError :=
  match ops with
  | [] => (w, [])
  | o :: ops' =>
      let '(w1, e) := op_step w o in
      let '(w2, es) := run w1 ops' in
      (w2, match e with Some x => x :: es | None => es end)
  end.

Definition applyDiagramOperations (d : doc) (ops : list DiagramOperation)
  : doc * list OperationError :=
  let '(w, errs) := run d ops in
  match errs with
  | [] => (w, [])
  | _ :: _ => (d, errs)
  end.

(** Whether an operation fails on the working copy it meets. *)
Definition op_fails (w : doc) (o : DiagramOperation) : bool :=
  match snd (op_step w o) with Some _ => true | None => false end.

(** Number of failing operations of a batch, each judged on the working
    copy left by the operations before it. *)
Fixpoint count_failures (w : doc) (ops : list DiagramOperation) : nat :=
  match ops with
  | [] => O
  | o :: ops' =>
      (if op_fails w o then 1 else 0) + count_failures (fst (op_step w o)) ops'
  end.

End Patch.

(** ** Cache-reference substitution of [handleDisplayDiagram] *)

Module Cache.

(** The literal head of the global pattern of [handleDisplayDiagram],
    [image=data:cache/] followed by a key group [([^/]+)], a [/] and a
    region group of characters other than [;], the double quote and
    white space. *)
Definition cache_head : str := lit "image=data:cache/".

Definition key_char (c : ascii) : bool := negb (Ascii.eqb c "/").

Definition region_char (c : ascii) : bool :=
  negb (Ascii.eqb c ";" || Ascii.eqb c dq || is_ws c).

(** Longest prefix whose characters satisfy [p] (a greedy class). *)
Fixpoint take_run (p : ascii -> bool) (s : str) : str * str :=
  match s with
  | c :: s' => if p c then let '(a, b) := take_run p s' in (c :: a, b) else ([], s)
  | [] => ([], [])
  end.

(** The regular expression anchored at the start of [s]: the key is the
    greedy run of non-[/] characters, which must be followed by [/]
    (backtracking into it cannot help, a shorter run is followed by a
    non-[/]); the region is the greedy, non-empty run of characters other
    than [;], the double quote and white space. Result: key, region, rest. *)
Definition match_at (s : str) : option (str * str * str) :=
  if starts_with cache_head s then
    let '(k, s1) := take_run key_char (skipn 17 s) in
    match k, s1 with
    | _ :: _, _ :: s2 =>
        let '(r, s3) := take_run region_char s2 in
        match r with
        | [] => None
        | _ :: _ => Some (k, r, s3)
        end
    | _, _ => None
    end
  else None.

(** [[...xml.matchAll(cachePattern)]] as (key, region) pairs: a failed
    attempt moves on by one character, a match resumes after itself. *)
Fixpoint match_all_fuel (fuel : nat) (s : str) : list (str * str) :=
  match fuel with
  | O => []
  | S f =>
      match s with
      | [] => []
      | _ :: s' =>
          match match_at s with
          | Some (k, r, rest) => (k, r) :: match_all_fuel f rest
          | None => match_all_fuel f s'
          end
      end
  end.

Definition match_all (s : str) : list (str * str) :=
  match_all_fuel (S (List.length s)) s.

(** [new Set(keys)], iterated in insertion order. *)
Fixpoint dedup_acc (seen : list str) (l : list str) : list str :=
  match l with
  | [] => []
  | x :: l' => if str_mem x seen then dedup_acc seen l'
               else x :: dedup_acc (x :: seen) l'
  end.

Definition dedup (l : list str) : list str := dedup_acc [] l.

(** First occurrence of [pat] in [s], as the text before and after it. *)
Fixpoint find_first (pat s : str) : option (str * str) :=
  if starts_with pat s then Some ([], skipn (List.length pat) s)
  else match s with
       | [] => None
       | c :: s' =>
           match find_first pat s' with
           | Some (a, b) => Some (c :: a, b)
           | None => None
           end
       end.

(** GetSubstitution for a string pattern (no capture groups): [$$], [$&],
    [$`] and [$'] are expanded, every other [$] is literal. *)
Fixpoint expand (rep pre m post : str) : str :=
  match rep with
  | [] => []
  | c :: rep' =>
      if Ascii.eqb c "$" then
        match rep' with
        | d :: rep'' =>
            if Ascii.eqb d "$" then "$"%char :: expand rep'' pre m post
            else if Ascii.eqb d "&" then m ++ expand rep'' pre m post
            else if Ascii.eqb d "`" then pre ++ expand rep'' pre m post
            else if Ascii.eqb d "'" then post ++ expand rep'' pre m post
            else c :: expand rep' pre m post
        | [] => [c]
        end
      else c :: expand rep' pre m post
  end.

(** [s.replace(pat, rep)] with a string pattern: first occurrence only. *)
Definition js_replace (s pat rep : str) : str :=
  match find_first pat s with
  | Some (pre, post) => pre ++ expand rep pre pat post ++ post
  | None => s
  end.

(** [dataUrl.replace(/;/g, "%3B")] *)
Definition encode_semis (p : str) : str :=
  flat_map (fun c => if Ascii.eqb c ";" then lit "%3B" else [c]) p.

(** Property read [regions[regionName]] on the object parsed from the
    JSON response: an own property, else a member inherited from
    [Object.prototype] (a function or an object), else [undefined]. *)
Inductive jsval := JStr (s : str) | JBuiltin | JUndef.

Definition proto_names : list str :=
  map lit ["constructor"; "__proto__"; "toString"; "toLocaleString";
           "valueOf"; "hasOwnProperty"; "isPrototypeOf";
           "propertyIsEnumerable"; "__defineGetter__"; "__defineSetter__";
           "__lookupGetter__"; "__lookupSetter__"]%string.

Fixpoint assoc (k : str) (l : list (str * str)) : option str :=
  match l with
  | [] => None
  | (k', v) :: l' => if str_eqb k k' then Some v else assoc k l'
  end.

Definition obj_get (regions : list (str * str)) (name : str) : jsval :=
  match assoc name regions with
  | Some v => JStr v
  | None => if str_mem name proto_names then JBuiltin else JUndef
  end.

Definition search_str (key region : str) : str :=
  cache_head ++ key ++ ["/"%char] ++ region.

(** The inner loop over [cacheMatches] for one fetched key. A truthy
    non-string read makes [dataUrl.replace] throw a TypeError, which the
    per-key [try] catches: the replacements done so far are kept and the
    rest of the loop is skipped. *)
Fixpoint subst_matches (key : str) (regions : list (str * str))
    (ms : list (str * str)) (xml : str) : str :=
  match ms with
  | [] => xml
  | (k, r) :: ms' =>
      if str_eqb k key then
        match obj_get regions r with
        | JStr ((_ :: _) as p) =>
            subst_matches key regions ms'
              (js_replace xml (search_str key r) (lit "image=" ++ encode_semis p))
        | JStr [] | JUndef => subst_matches key regions ms' xml
        | JBuiltin => xml
        end
      else subst_matches key regions ms' xml
  end.

(** The cache-replacement prologue of [handleDisplayDiagram]. [fetch k] is
    the outcome of the POST to /api/get-cached-regions: [Some regions] on
    an ok response, [None] on an error status or a rejected fetch (logged
    and skipped). *)
Definition resolve (fetch : str -> option (list (str * str))) (xml : str) : str :=
  let ms := match_all xml in
  fold_left
    (fun x key =>
       match fetch key with
       | Some regions => subst_matches key regions ms x
       | None => x
       end)
    (dedup (map fst ms)) xml.

End Cache.

(** ** The tool handlers of [useDiagramToolHandlers] *)

(** Tool outputs. The fixed text of each [errorText] template is
    represented by its constructor; the fields are the interpolated parts. *)
Inductive Msg :=
  | DisplayTruncated (ending : str)           (** truncated; [slice(-500)] *)
  | DisplayInvalid (err : str) (failed : str) (** validation error *)
  | DisplayOk                                 (** successfully displayed *)
  | EditFailed (errors : list Patch.OperationError) (current : str)
      (** one [- type on cell_id=...] line per error *)
  | EditInvalid (err : str) (current : str)
  | EditOk (count : nat)
  | AppendFreshStart (ending : str)           (** started fresh *)
  | AppendInvalid (err : str) (assembled : str)
  | AppendOk                                  (** assembly complete *)
  | AppendIncomplete (ending : str).          (** still incomplete *)

Record ToolOutput := mkOut { o_tool : str; o_id : str; o_msg : Msg }.

Definition msg_is_error (m : Msg) : bool :=
  match m with DisplayOk | EditOk _ | AppendOk => false | _ => true end.

(** The refs the hook closes over, the diagram shown by the editor, the
    log of [onDisplayChart] arguments and the outputs added so far. *)
Record St := mkSt {
  partial : str;                 (** [partialXmlRef.current] *)
  originals : list (str * str);  (** [editDiagramOriginalXmlRef.current] *)
  chart : str;                   (** [chartXMLRef.current] *)
  shown : list str;              (** arguments of [onDisplayChart] *)
  outs : list ToolOutput         (** [addToolOutput] calls *)
}.

Definition set_partial (p : str) (s : St) : St :=
  mkSt p (originals s) (chart s) (shown s) (outs s).

Definition add_out (o : ToolOutput) (s : St) : St :=
  mkSt (partial s) (originals s) (chart s) (shown s) (outs s ++ [o]).

Definition drop_original (id : str) (s : St) : St :=
  mkSt (partial s) (filter (fun kv => negb (str_eqb (fst kv) id)) (originals s))
       (chart s) (shown s) (outs s).

Inductive ToolCall :=
  | CallDisplay (toolCallId : str) (xml : str)
  | CallEdit (toolCallId : str) (operations : list Patch.DiagramOperation)
  | CallAppend (toolCallId : str) (xml : str)
  | CallOther (toolCallId : str) (toolName : str).

(** [trimmed.startsWith(...)] checks of [handleAppendDiagram]. *)
Definition fresh_markers : list str :=
  [lit "<mxGraphModel"; lit "<root"; lit "<mxfile";
   lit "<mxCell id=" ++ [dq] ++ lit "0" ++ [dq];
   lit "<mxCell id=" ++ [dq] ++ lit "1" ++ [dq]].

Definition is_fresh_start (xml : str) : bool :=
  let trimmed := js_trim xml in
  existsb (fun m => starts_with m trimmed) fresh_markers.

Section Handlers.

(** [isMxCellXmlComplete] *)
Variable isComplete : str -> bool.
(** [wrapWithMxFile] *)
Variable wrapWithMxFile : str -> str.
(** The validation of [onDisplayChart]: [Some err] rejects the diagram. *)
Variable validate : str -> option str.
(** The POST to /api/get-cached-regions. *)
Variable fetch : str -> option (list (str * str)).
(** Parsing and serialising the diagram around [applyDiagramOperations]. *)
Variable parse_doc : str -> Patch.doc.
Variable serialize_doc : Patch.doc -> str.

(** [onDisplayChart(xml)]: loads the diagram unless validation fails, and
    returns the validation error. *)
Definition onDisplayChart (s : St) (xml : str) : St * option str :=
  let s' := mkSt (partial s) (originals s) (chart s) (shown s ++ [xml]) (outs s) in
  match validate xml with
  | Some e => (s', Some e)
  | None => (mkSt (partial s') (originals s') xml (shown s') (outs s'), None)
  end.

Definition handleDisplayDiagram (s : St) (id : str) (xml0 : str) : St :=
  let xml := Cache.resolve fetch xml0 in
  if negb (isComplete xml) then
    add_out (mkOut (lit "display_diagram") id (DisplayTruncated (slice_last 500 xml)))
            (set_partial xml s)
  else
    let finalXml := xml in
    let s1 := set_partial [] s in
    let '(s2, verr) := onDisplayChart s1 (wrapWithMxFile finalXml) in
    match verr with
    | Some e => add_out (mkOut (lit "display_diagram") id (DisplayInvalid e finalXml)) s2
    | None => add_out (mkOut (lit "display_diagram") id DisplayOk) s2
    end.

(** The base XML: the original captured while streaming, else the cached
    chart, else the export of the editor (which shows the chart). *)
Definition current_xml (s : St) (id : str) : str :=
  match Cache.assoc id (originals s) with
  | Some ((_ :: _) as x) => x
  | _ => chart s
  end.

Definition handleEditDiagram (s : St) (id : str)
    (operations : list Patch.DiagramOperation) : St :=
  let currentXml := current_xml s id in
  let '(edited, errors) := Patch.applyDiagramOperations (parse_doc currentXml) operations in
  match errors with
  | _ :: _ =>
      drop_original id
        (add_out (mkOut (lit "edit_diagram") id
                   (EditFailed errors currentXml)) s)
  | [] =>
      let '(s2, verr) := onDisplayChart s (serialize_doc edited) in
      match verr with
      | Some e =>
          drop_original id
            (add_out (mkOut (lit "edit_diagram") id (EditInvalid e currentXml)) s2)
      | None =>
          drop_original id
            (add_out (mkOut (lit "edit_diagram") id
                       (EditOk (List.length operations))) s2)
      end
  end.

Definition handleAppendDiagram (s : St) (id : str) (xml : str) : St :=
  if is_fresh_start xml then
    add_out (mkOut (lit "append_diagram") id
               (AppendFreshStart (slice_last 500 (partial s)))) s
  else
    let buf := partial s ++ xml in
    if isComplete buf then
      let finalXml := buf in
      let s1 := set_partial [] s in
      let '(s2, verr) := onDisplayChart s1 (wrapWithMxFile finalXml) in
      match verr with
      | Some e => add_out (mkOut (lit "append_diagram") id
                            (AppendInvalid e (firstn 2000 finalXml))) s2
      | None => add_out (mkOut (lit "append_diagram") id AppendOk) s2
      end
    else
      add_out (mkOut (lit "append_diagram") id (AppendIncomplete (slice_last 500 buf)))
              (set_partial buf s).

Definition handleToolCall (s : St) (c : ToolCall) : St :=
  match c with
  | CallDisplay id xml => handleDisplayDiagram s id xml
  | CallEdit id ops => handleEditDiagram s id ops
  | CallAppend id xml => handleAppendDiagram s id xml
  | CallOther _ _ => s
  end.

Definition run_calls (s : St) (cs : list ToolCall) : St :=
  fold_left handleToolCall cs s.

End Handlers.

(** Modelled from the spec: [wrapWithMxFile] lives in lib/utils, which is
    not part of the sources at hand; following the spec's section 4.5 it
    surrounds the flat cell sequence with the scaffold elements and the two
    reserved root cells. Used to run the handlers on concrete inputs. *)
Definition wrap_spec (cells : str) : str :=
  lit "<mxfile><diagram><mxGraphModel><root><mxCell id=" ++ [dq] ++ lit "0" ++ [dq]
  ++ lit "/><mxCell id=" ++ [dq] ++ lit "1" ++ [dq] ++ lit " parent=" ++ [dq]
  ++ lit "0" ++ [dq] ++ lit "/>" ++ cells
  ++ lit "</root></mxGraphModel></diagram></mxfile>".

(** ** The region cache ([global.extractedRegionsCache]) *)

Module RegionStore.

(** [10 * 60 * 1000] milliseconds. *)
Definition TTL : N := 600000.

Record Store := mkStore {
  cache : option (list (str * list (str * str)));  (** [undefined] or the Map *)
  timers : list (N * str);    (** pending [setTimeout]s: due time, key *)
  now : N                     (** [Date.now()] *)
}.

Definition init : Store := mkStore None [] 0%N.

Fixpoint map_get (k : str) (m : list (str * list (str * str))) : option (list (str * str)) :=
  match m with
  | [] => None
  | (k', v) :: m' => if str_eqb k k' then Some v else map_get k m'
  end.

(** [Map.prototype.set]: overwrite in place, else append. *)
Definition map_set (k : str) (v : list (str * str)) (m : list (str * list (str * str))) :=
  if existsb (fun kv => str_eqb (fst kv) k) m
  then map (fun kv => if str_eqb (fst kv) k then (k, v) else kv) m
  else m ++ [(k, v)].

Definition map_delete (k : str) (m : list (str * list (str * str))) :=
  filter (fun kv => negb (str_eqb (fst kv) k)) m.

Definition lookup (k : str) (s : Store) : option (list (str * str)) :=
  match cache s with Some m => map_get k m | None => None end.

(** Responses of the get-cached-regions route. *)
Inductive Response :=
  | InvalidKey          (** 400 *)
  | NotInitialized      (** 404 *)
  | NotFound            (** 404: expired or unknown *)
  | Regions (regions : list (str * str)).

(** The POST handler of /api/get-cached-regions; the key is [None] when
    [cacheKey] is not a string. *)
Definition get_cached_regions (s : Store) (key : option str) : Response :=
  match key with
  | None | Some [] => InvalidKey
  | Some k =>
      match cache s with
      | None => NotInitialized
      | Some m => match map_get k m with
                  | Some r => Regions r
                  | None => NotFound
                  end
      end
  end.

Inductive Event :=
  | Extract (key : str) (mapping : list (str * str))
      (** [extract_image_regions]: [set] and a [setTimeout] of [TTL] *)
  | Get (key : option str)   (** a request to get-cached-regions *)
  | Tick (dt : N)            (** time passes *)
  | Fire (i : nat).          (** the [i]-th pending timer runs, if due *)

Fixpoint remove_nth {A} (i : nat) (l : list A) : list A :=
  match i, l with
  | _, [] => []
  | O, _ :: l' => l'
  | S i', x :: l' => x :: remove_nth i' l'
  end.

Definition step (s : Store) (e : Event) : Store :=
  match e with
  | Extract k mp =>
      let m := match cache s with Some m => m | None => [] end in
      mkStore (Some (map_set k mp m)) (timers s ++ [((now s + TTL)%N, k)]) (now s)
  | Get _ => s
  | Tick dt => mkStore (cache s) (timers s) (now s + dt)%N
  | Fire i =>
      match nth_error (timers s) i with
      | Some (t, k) =>
          if N.leb t (now s) then
            mkStore (option_map (map_delete k) (cache s)) (remove_nth i (timers s)) (now s)
          else s
      | None => s
      end
  end.

Definition run (s : Store) (es : list Event) : Store := fold_left step es s.

End RegionStore.

(** ** Concrete text with double quotes *)

(** [qlit] reads a backquote as the double-quote character, to write
    attribute-laden literals. *)
Definition qlit (s : string) : str :=
  map (fun c => if Ascii.eqb c "`" then dq else c) (lit s).

(** A cache payload as produced by the extract-regions route:
    [data:image/png;base64,] followed by base64 text. *)
Definition b64_char (c : ascii) : bool :=
  let n := nat_of_ascii c in
  (Nat.leb 65 n && Nat.leb n 90) || (Nat.leb 97 n && Nat.leb n 122)
  || (Nat.leb 48 n && Nat.leb n 57) || Ascii.eqb c "+" || Ascii.eqb c "/"
  || Ascii.eqb c "=".

Definition png_data_url (p : str) : Prop :=
  exists b, p = lit "data:image/png;base64," ++ b /\ forallb b64_char b = true.

Definition count_semis (s : str) : nat :=
  List.length (filter (fun c => Ascii.eqb c ";") s).

(** The outputs that ask the generator to go on with [append_diagram]. *)
Definition resume_signal (m : Msg) : Prop :=
  match m with DisplayTruncated _ | AppendIncomplete _ => True | _ => False end.

Definition resume_signalb (m : Msg) : bool :=
  match m with DisplayTruncated _ | AppendIncomplete _ => true | _ => false end.

(** Concrete cells: a vertex, and an edge with its endpoints. *)
Definition cellv (id parent : string) : Patch.cell :=
  Patch.mkCell (lit id) Patch.Vertex (lit parent) None None.

Definition celle (id parent src tgt : string) : Patch.cell :=
  Patch.mkCell (lit id) Patch.Edge (lit parent) (Some (lit src)) (Some (lit tgt)).

(** The cascade example: parent [P], child [C], edge [E] from [C] to [X]. *)
Definition doc_pcex : Patch.doc :=
  [cellv "P" "1"; cellv "C" "P"; celle "E" "1" "C" "X"; cellv "X" "1"].

(** [T] is closed under the cascade rules of the document [w]. *)
Definition cascade_closed (w : Patch.doc) (T : str -> Prop) : Prop :=
  forall c, In c w ->
    (T (Patch.cparent c)
     \/ (Patch.is_edge c = true
         /\ ((exists x, Patch.csource c = Some x /\ T x)
             \/ (exists x, Patch.ctarget c = Some x /\ T x)))) ->
    T (Patch.cid c).

(** ** Definitions used by the proofs *)

(** The buffer invariant: the partial buffer is empty or incomplete. *)
Definition buffer_inv (isComplete : str -> bool) (s : St) : Prop :=
  partial s = [] \/ isComplete (partial s) = false.

Definition outside (w : Patch.doc) (S : list str) : nat :=
  List.length (filter (fun c => negb (str_mem (Patch.cid c) S)) w).

Definition quote_ok (st : Detector.scan_st) : Prop :=
  Detector.s_quote st = None \/ Detector.s_quote st = Some dq
  \/ Detector.s_quote st = Some "'"%char.

(** Concrete runs of the handlers. *)

Definition c4_s0 : St := mkSt [] [] [] [] [].

Definition c4_assemble (first : str) (conts : list str) : St :=
  run_calls Detector.isMxCellXmlComplete wrap_spec (fun _ => None) (fun _ => None)
    (fun _ => []) (fun _ => []) c4_s0
    (CallDisplay (lit "t") first :: map (CallAppend (lit "t")) conts).

Definition c4_direct (x : str) : St :=
  handleDisplayDiagram Detector.isMxCellXmlComplete wrap_spec (fun _ => None)
    (fun _ => None) c4_s0 (lit "t") x.

(** A truncated image cell whose continuation carries a cache reference. *)
Definition c4_first : str := qlit "<mxCell id=`a` style=`shape=image;".

Definition c4_cont : str := qlit "image=data:cache/k1/r1;` vertex=`1` parent=`1`/>".

(** A cache payload and a document that refers to it. *)

Definition c7_payload : str := lit "data:image/png;base64,iVBORw0K".

Definition c7_fetch (k : str) : option (list (str * str)) :=
  if str_eqb k (lit "k1") then Some [(lit "r1", c7_payload)] else None.

Definition c7_xml : str :=
  qlit "<mxCell style=`shape=image;image=data:cache/k1/r1;aspect=fixed;` />".

(** ** Documents as text around cache references *)

(** Characters of a cache key ([extract_<time>_<random>]) or a region
    name: letters, digits, [_] and [-]. *)
Definition ident_char (c : ascii) : bool :=
  let n := nat_of_ascii c in
  (Nat.leb 65 n && Nat.leb n 90) || (Nat.leb 97 n && Nat.leb n 122)
  || (Nat.leb 48 n && Nat.leb n 57) || Ascii.eqb c "_" || Ascii.eqb c "-".

Definition ident (s : str) : bool :=
  match s with [] => false | _ :: _ => forallb ident_char s end.

(** A piece of a style value that the resolver acts on: a cache reference
    or an inlined payload. *)
Inductive seg := Ref (key region : str) | Rep (payload : str).

Definition seg_text (g : seg) : str :=
  match g with
  | Ref k r => Cache.search_str k r
  | Rep p => lit "image=" ++ Cache.encode_semis p
  end.

(** The document [t0 g1 t1 g2 t2 ...]. *)
Definition doc_text (t0 : str) (segs : list (seg * str)) : str :=
  t0 ++ List.concat (map (fun gt => seg_text (fst gt) ++ snd gt) segs).

Definition refs_of (segs : list (seg * str)) : list (str * str) :=
  flat_map (fun gt => match fst gt with Ref k r => [(k, r)] | Rep _ => [] end) segs.

(** What resolution should make of a piece: a reference whose key is
    fetched and whose region is a non-empty own property is inlined,
    every other piece stays as it is. *)
Definition resolve_seg (fetch : str -> option (list (str * str))) (g : seg) : seg :=
  match g with
  | Ref k r =>
      match fetch k with
      | Some regions =>
          match Cache.assoc r regions with
          | Some ((_ :: _) as p) => Rep p
          | _ => Ref k r
          end
      | None => Ref k r
      end
  | Rep p => Rep p
  end.

Definition sep_ok (t : str) : Prop := includes Cache.cache_head t = false.

(** The text after a piece closes the region name: it starts with [;],
    the double quote or white space. *)
Definition tail_ok (t : str) : Prop :=
  sep_ok t /\ exists c t', t = c :: t' /\ Cache.region_char c = false.

Definition seg_ok (g : seg) : Prop :=
  match g with
  | Ref k r => ident k = true /\ ident r = true /\ str_mem r Cache.proto_names = false
  | Rep p => png_data_url p
  end.

Definition doc_ok (t0 : str) (segs : list (seg * str)) : Prop :=
  sep_ok t0 /\ Forall (fun gt => seg_ok (fst gt) /\ tail_ok (snd gt)) segs.

(** No region name of a reference is a proper prefix of the region name
    of another reference with the same key. *)
Definition no_prefix (segs : list (seg * str)) : Prop :=
  forall k r r', In (k, r) (refs_of segs) -> In (k, r') (refs_of segs) ->
    starts_with r r' = true -> r = r'.

(** The pieces [g] of the document whose key is in [ks], resolved. *)
Definition key_in (ks : list str) (g : seg) : bool :=
  match g with Ref k _ => str_mem k ks | Rep _ => false end.

Definition resolve_on (fetch : str -> option (list (str * str))) (ks : list str)
    (gt : seg * str) : seg * str :=
  (if key_in ks (fst gt) then resolve_seg fetch (fst gt) else fst gt, snd gt).

(** One pass of the resolver: the references of key [k] against the
    regions fetched for it. *)
Definition res_k (k : str) (regions : list (str * str)) (gt : seg * str) : seg * str :=
  (resolve_seg (fun k' => if str_eqb k' k then Some regions else None) (fst gt), snd gt).

Definition refs_k (k : str) (l : list (str * str)) : list (str * str) :=
  filter (fun kr => str_eqb (fst kr) k) l.

(** Text that can start an [image=data:cache/] only at its first character. *)
Definition hd_ok (y : str) : Prop :=
  forall c y', y = c :: y' -> ~ In c (tl Cache.cache_head).

(** Every payload served by the cache is a PNG data URL. *)
Definition fetch_ok (fetch : str -> option (list (str * str))) : Prop :=
  forall k regions, fetch k = Some regions ->
    forall name q, In (name, q) regions -> png_data_url q.

Definition c8_payload : str := lit "data:image/png;base64,QUJD".

Definition c8_fetch (k : str) : option (list (str * str)) :=
  if str_eqb k (lit "k1") then Some [(lit "r1", c8_payload)] else None.

(** Two references to the cache key [k1]: region [r1] is stored, region
    [r2] is not. *)
Definition c8_t0 : str := qlit "<mxCell id=`a` style=`shape=image;".

Definition c8_segs : list (seg * str) :=
  [(Ref (lit "k1") (lit "r1"), qlit ";` vertex=`1` parent=`1`/><mxCell id=`b` style=`shape=image;");
   (Ref (lit "k1") (lit "r2"), qlit ";` vertex=`1` parent=`1`/>")].

Definition c8_xml : str := doc_text c8_t0 c8_segs.

Definition c8_display : St :=
  handleDisplayDiagram Detector.isMxCellXmlComplete wrap_spec (fun _ => None) c8_fetch
    (mkSt [] [] [] [] []) (lit "t") c8_xml.

(** ** The rest of the chat, extract-regions and get-cached-regions routes *)

(** [c.toLowerCase()] on ASCII. *)
Definition to_lower (c : ascii) : ascii :=
  let n := nat_of_ascii c in
  if Nat.leb 65 n && Nat.leb n 90 then ascii_of_nat (n + 32) else c.

(** *** The extract_image_regions tool of the chat route *)

Module ExtractTool.

(** An element of [result.regions] answered by /api/extract-regions:
    either a cropped region (its data URL and its dimensions, kept as
    their decimal text) or a region whose crop failed, with [error] set. *)
Record RegionResult := mkRes {
  res_name : str;
  res_error : option str;
  res_dataUrl : str;
  res_width : str;
  res_height : str
}.

(** [!r.error]: an absent or empty error counts as success. *)
Definition res_ok (r : RegionResult) : bool :=
  match res_error r with Some (_ :: _) => false | _ => true end.

(** [o[k] = v] on a plain object: assigning a string to [__proto__] runs
    the setter inherited from [Object.prototype], which ignores values
    that are not objects; any other key creates or overwrites an own
    property. (JavaScript lists integer-like keys first; no lookup
    observes the order.) *)
Definition obj_set (o : list (str * str)) (k v : str) : list (str * str) :=
  if str_eqb k (lit "__proto__") then o
  else if existsb (fun kv => str_eqb (fst kv) k) o
  then map (fun kv => if str_eqb (fst kv) k then (k, v) else kv) o
  else o ++ [(k, v)].

(** [regionMapping]: [r.name] to [r.dataUrl] for the successful results,
    in order. *)
Definition region_mapping (rs : list RegionResult) : list (str * str) :=
  fold_left (fun o r => obj_set o (res_name r) (res_dataUrl r)) (filter res_ok rs) [].

End ExtractTool.

(** *** The POST handler of /api/extract-regions *)

Module ExtractRoute.

(** [Math.round] on a finite number. *)
Definition js_round (v : Q) : Z := Qfloor (v + (1 # 2))%Q.

Record RegionReq := mkReq {
  req_name : str; req_x : Q; req_y : Q; req_width : Q; req_height : Q
}.

(** The [extract] rectangle passed to sharp. *)
Record Crop := mkCrop { crop_left : Z; crop_top : Z; crop_width : Z; crop_height : Z }.

(** The clamping of a region to the image. *)
Definition clamp (imageWidth imageHeight : Z) (region : RegionReq) : Crop :=
  let x := Z.max 0 (Z.min (js_round (req_x region)) (imageWidth - 1)) in
  let y := Z.max 0 (Z.min (js_round (req_y region)) (imageHeight - 1)) in
  let width := Z.max 1 (Z.min (js_round (req_width region)) (imageWidth - x)) in
  let height := Z.max 1 (Z.min (js_round (req_height region)) (imageHeight - y)) in
  mkCrop x y width height.

(** Whether an adjustment warning is pushed for the region. *)
Definition adjusted (imageWidth imageHeight : Z) (region : RegionReq) : bool :=
  let c := clamp imageWidth imageHeight region in
  negb (Z.eqb (crop_left c) (js_round (req_x region))
        && Z.eqb (crop_top c) (js_round (req_y region))
        && Z.eqb (crop_width c) (js_round (req_width region))
        && Z.eqb (crop_height c) (js_round (req_height region))).

(** [s.split(",")] *)
Fixpoint split_comma (s : str) : list str :=
  match s with
  | [] => [[]]
  | c :: s' =>
      let parts := split_comma s' in
      if Ascii.eqb c "," then [] :: parts
      else match parts with
           | p :: ps => (c :: p) :: ps
           | [] => [[c]]
           end
  end.

(** Where the route takes the image from, or how it refuses the request. *)
Inductive ImageSource :=
  | MissingInput               (** 400: no [imageUrl] or no [regions] array *)
  | Base64Data (data : str)    (** [Buffer.from(base64Data, "base64")] *)
  | HttpUrl (url : str)        (** downloaded with [fetch] *)
  | BadDataUrl                 (** thrown, answered with 500 *)
  | BadUrlFormat.              (** 400 *)

Definition image_source (imageUrl : str) (regionsIsArray : bool) : ImageSource :=
  match imageUrl with
  | [] => MissingInput
  | _ :: _ =>
      if negb regionsIsArray then MissingInput
      else if starts_with (lit "data:") imageUrl then
        match nth_error (split_comma imageUrl) 1 with
        | Some ((_ :: _) as b) => Base64Data b
        | _ => BadDataUrl
        end
      else if starts_with (lit "http") imageUrl then HttpUrl imageUrl
      else BadUrlFormat
  end.

End ExtractRoute.

(** *** The get_shape_library tool of the chat route *)

Module ShapeLibrary.

Definition lib_char (c : ascii) : bool :=
  let n := nat_of_ascii c in
  (Nat.leb 97 n && Nat.leb n 122) || (Nat.leb 48 n && Nat.leb n 57)
  || Ascii.eqb c "_" || Ascii.eqb c "-".

(** [library.toLowerCase().replace(/[^a-z0-9_-]/g, "")] *)
Definition sanitize (library : str) : str := filter lib_char (map to_lower library).

Inductive Answer :=
  | InvalidName            (** [Invalid library name ...] *)
  | InvalidPath            (** [Invalid library path.] *)
  | ReadFile (path : str). (** the file read with [fs.readFile] *)

(** [path.join(baseDir, name)] for a [name] without [/]: [baseDir/name]. *)
Definition get_shape_library (baseDir library : str) : Answer :=
  let sanitized := sanitize library in
  if negb (str_eqb sanitized (map to_lower library)) then InvalidName
  else
    let filePath := baseDir ++ ["/"%char] ++ sanitized ++ lit ".md" in
    if starts_with baseDir filePath then ReadFile filePath else InvalidPath.

End ShapeLibrary.

(** *** [handleError] of the chat route *)

Module ChatError.

(** What [handleChatRequest] can throw. *)
Inductive Thrown :=
  | APICallError (message : str) (statusCode : option Z) (responseBody : str)
  | LoadAPIKeyError (message : str)
  | ErrorObj (message : str) (statusCode status : option Z)  (** an [Error] *)
  | OtherValue (statusCode status : option Z).             (** not an [Error] *)

(** The JSON body ([error], and [details] in development) and status. *)
Record Reply := mkReply { r_error : str; r_details : option str; r_status : Z }.

(** [n || d] on an optional number: [undefined] and [0] are falsy. *)
Definition num_or (o : option Z) (d : Z) : Z :=
  match o with Some z => if Z.eqb z 0 then d else z | None => d end.

Definition sensitive_words : list str :=
  map lit ["key"; "token"; "sig"; "signature"; "secret"; "password"; "credential"]%string.

Definition auth_failed : str := lit "Authentication failed. Please check your credentials.".

Definition fallback (isDev : bool) (message : str) (statusCode status : option Z) : Reply :=
  let lowerMessage := map to_lower message in
  let safeMessage :=
    if existsb (fun w => includes w lowerMessage) sensitive_words then auth_failed
    else message in
  mkReply safeMessage (if isDev then Some message else None)
          (num_or statusCode (num_or status 500)).

Definition handleError (isDev : bool) (e : Thrown) : Reply :=
  match e with
  | APICallError m sc body =>
      mkReply m (if isDev then Some body else None) (num_or sc 500)
  | LoadAPIKeyError _ =>
      mkReply (lit "Authentication failed. Please check your API key.") None 401
  | ErrorObj m sc st => fallback isDev m sc st
  | OtherValue sc st => fallback isDev (lit "An unexpected error occurred") sc st
  end.

End ChatError.

(** The tool name and call id a tool call is answered under; a call of
    another tool is not answered by the hook. *)
Definition call_answer (c : ToolCall) : list (str * str) :=
  match c with
  | CallDisplay id _ => [(lit "display_diagram", id)]
  | CallEdit id _ => [(lit "edit_diagram", id)]
  | CallAppend id _ => [(lit "append_diagram", id)]
  | CallOther _ _ => []
  end.

Definition out_key (o : ToolOutput) : str * str := (o_tool o, o_id o).

(** The entry of [k] in the region cache holds [mp] and every pending
    timer of [k] is due at [T]. *)
Definition entry_live (k : str) (mp : list (str * str)) (T : N) (s : RegionStore.Store) : Prop :=
  RegionStore.lookup k s = Some mp /\
  (forall t, In (t, k) (RegionStore.timers s) -> t = T).

(** The data URL of the last successful result named [n], if any. *)
Definition last_ok (n : str) (rs : list ExtractTool.RegionResult) : option str :=
  fold_left (fun acc r => if ExtractTool.res_ok r && str_eqb (ExtractTool.res_name r) n
                          then Some (ExtractTool.res_dataUrl r) else acc) rs None.


(** * Proofs *)

Lemma str_eqb_eq : forall a b, str_eqb a b = true <-> a = b.
Proof.
  induction a as [|x a IH]; destruct b as [|y b]; simpl; try (split; congruence).
  rewrite andb_true_iff, IH, Ascii.eqb_eq. split; [intros [-> ->]|intros H; inversion H]; auto.
Qed.

Lemma str_eqb_refl : forall a, str_eqb a a = true.
Proof. intros a. apply str_eqb_eq. reflexivity. Qed.

Lemma str_mem_In : forall x l, str_mem x l = true <-> In x l.
Proof.
  intros x l. unfold str_mem. rewrite existsb_exists. split.
  - intros [y [Hy He]]. apply str_eqb_eq in He. subst. exact Hy.
  - intros H. exists x. split; [exact H | apply str_eqb_refl].
Qed.

Lemma run_calls_app : forall ic wr va fe pa se s l1 l2,
  run_calls ic wr va fe pa se s (l1 ++ l2)
  = run_calls ic wr va fe pa se (run_calls ic wr va fe pa se s l1) l2.
Proof. intros. unfold run_calls. apply fold_left_app. Qed.

Section HandlerFacts.

Variable isComplete : str -> bool.
Variable wrapWithMxFile : str -> str.
Variable validate : str -> option str.
Variable fetch : str -> option (list (str * str)).
Variable parse_doc : str -> Patch.doc.
Variable serialize_doc : Patch.doc -> str.

Lemma onDisplayChart_partial : forall s x,
  partial (fst (onDisplayChart validate s x)) = partial s.
Proof. intros s x. unfold onDisplayChart. destruct (validate x); reflexivity. Qed.

Lemma handleEdit_partial : forall s id ops,
  partial (handleEditDiagram validate parse_doc serialize_doc s id ops) = partial s.
Proof.
  intros s id ops. unfold handleEditDiagram.
  destruct (Patch.applyDiagramOperations _ _) as [edited errors].
  destruct errors as [|e es]; [|reflexivity].
  destruct (onDisplayChart validate s _) as [s2 verr] eqn:E.
  pose proof (onDisplayChart_partial s (serialize_doc edited)) as H.
  rewrite E in H. simpl in H. destruct verr; simpl; exact H.
Qed.

Lemma handleDisplay_partial_complete : forall s id xml,
  isComplete (Cache.resolve fetch xml) = true ->
  partial (handleDisplayDiagram isComplete wrapWithMxFile validate fetch s id xml) = [].
Proof.
  intros s id xml H. unfold handleDisplayDiagram. rewrite H. simpl.
  destruct (onDisplayChart validate _ _) as [s2 verr] eqn:E.
  pose proof (onDisplayChart_partial (set_partial [] s)
                (wrapWithMxFile (Cache.resolve fetch xml))) as Hp.
  rewrite E in Hp. simpl in Hp. destruct verr; simpl; exact Hp.
Qed.

Lemma handleAppend_partial_complete : forall s id xml,
  is_fresh_start xml = false -> isComplete (partial s ++ xml) = true ->
  partial (handleAppendDiagram isComplete wrapWithMxFile validate s id xml) = [].
Proof.
  intros s id xml Hf H. unfold handleAppendDiagram. rewrite Hf, H.
  destruct (onDisplayChart validate _ _) as [s2 verr] eqn:E.
  pose proof (onDisplayChart_partial (set_partial [] s)
                (wrapWithMxFile (partial s ++ xml))) as Hp.
  rewrite E in Hp. simpl in Hp. destruct verr; simpl; exact Hp.
Qed.

Lemma handleToolCall_buffer_inv : forall s c,
  buffer_inv isComplete s ->
  buffer_inv isComplete (handleToolCall isComplete wrapWithMxFile validate fetch parse_doc serialize_doc s c).
Proof.
  intros s c Hs. unfold buffer_inv in *. destruct c as [id xml|id ops|id xml|id nm]; simpl.
  - destruct (isComplete (Cache.resolve fetch xml)) eqn:E.
    + left. apply handleDisplay_partial_complete. exact E.
    + unfold handleDisplayDiagram. rewrite E. simpl. right. exact E.
  - rewrite handleEdit_partial. exact Hs.
  - destruct (is_fresh_start xml) eqn:Ef.
    + unfold handleAppendDiagram. rewrite Ef. simpl. exact Hs.
    + destruct (isComplete (partial s ++ xml)) eqn:E.
      * left. apply handleAppend_partial_complete; assumption.
      * unfold handleAppendDiagram. rewrite Ef, E. simpl. right. exact E.
  - exact Hs.
Qed.

Lemma run_calls_buffer_inv : forall cs s,
  buffer_inv isComplete s ->
  buffer_inv isComplete (run_calls isComplete wrapWithMxFile validate fetch parse_doc serialize_doc s cs).
Proof.
  induction cs as [|c cs IH]; intros s Hs; simpl; [exact Hs|].
  apply IH. apply handleToolCall_buffer_inv. exact Hs.
Qed.

End HandlerFacts.

(** ** Fragment assembler *)

(** C5: a continuation that starts (after trimming) with a scaffold tag or
    a reserved root cell is rejected with a fresh-start diagnostic quoting
    the last 500 characters of the pending buffer, and the buffer (like the
    rest of the state) is left exactly as it was. *)
Theorem append_fresh_start_rejected :
  forall (isComplete : str -> bool) (wrapWithMxFile : str -> str)
         (validate : str -> option str) (s : St) (id xml : str),
  is_fresh_start xml = true ->
  handleAppendDiagram isComplete wrapWithMxFile validate s id xml
    = add_out (mkOut (lit "append_diagram") id
                 (AppendFreshStart (slice_last 500 (partial s)))) s
  /\ partial (handleAppendDiagram isComplete wrapWithMxFile validate s id xml)
     = partial s.
Proof.
  intros isComplete wrapWithMxFile validate s id xml H.
  unfold handleAppendDiagram. rewrite H. split; reflexivity.
Qed.

Lemma append_fresh_start_rejected_witness :
  is_fresh_start (lit "  <mxGraphModel><root>") = true /\
  handleAppendDiagram Detector.isMxCellXmlComplete wrap_spec (fun _ => None)
    (mkSt (qlit "<mxCell id=`a`") [] [] [] []) (lit "call-2") (lit "  <mxGraphModel><root>")
  = add_out (mkOut (lit "append_diagram") (lit "call-2")
               (AppendFreshStart (slice_last 500 (qlit "<mxCell id=`a`"))))
            (mkSt (qlit "<mxCell id=`a`") [] [] [] [])
  /\ partial (handleAppendDiagram Detector.isMxCellXmlComplete wrap_spec (fun _ => None)
    (mkSt (qlit "<mxCell id=`a`") [] [] [] []) (lit "call-2") (lit "  <mxGraphModel><root>"))
     = qlit "<mxCell id=`a`".
Proof.
  assert (H : is_fresh_start (lit "  <mxGraphModel><root>") = true) by reflexivity.
  split; [exact H|].
  exact (append_fresh_start_rejected Detector.isMxCellXmlComplete wrap_spec (fun _ => None)
           (mkSt (qlit "<mxCell id=`a`") [] [] [] []) (lit "call-2")
           (lit "  <mxGraphModel><root>") H).
Defined.

(** C10: whenever the detector judges the text complete (a complete first
    fragment, or a buffer completed by a continuation) the pending buffer
    is emptied, whatever validation then says; and from an empty buffer,
    after any sequence of tool calls the buffer is either empty or holds
    text the detector judges incomplete (an assembly in progress). *)
Theorem partial_buffer_reset_on_complete :
  forall (isComplete : str -> bool) (wrapWithMxFile : str -> str)
         (validate : str -> option str) (fetch : str -> option (list (str * str)))
         (parse_doc : str -> Patch.doc) (serialize_doc : Patch.doc -> str),
  (forall s id xml, isComplete (Cache.resolve fetch xml) = true ->
     partial (handleDisplayDiagram isComplete wrapWithMxFile validate fetch s id xml) = [])
  /\ (forall s id xml, is_fresh_start xml = false -> isComplete (partial s ++ xml) = true ->
     partial (handleAppendDiagram isComplete wrapWithMxFile validate s id xml) = [])
  /\ (forall s0 cs, partial s0 = [] ->
     let s := run_calls isComplete wrapWithMxFile validate fetch parse_doc serialize_doc s0 cs in
     partial s = [] \/ isComplete (partial s) = false).
Proof.
  intros isComplete wrapWithMxFile validate fetch parse_doc serialize_doc.
  split; [|split].
  - apply handleDisplay_partial_complete.
  - apply handleAppend_partial_complete.
  - intros s0 cs H0. apply run_calls_buffer_inv. left. exact H0.
Qed.

Lemma partial_buffer_reset_on_complete_witness :
  partial (handleDisplayDiagram Detector.isMxCellXmlComplete wrap_spec (fun _ => Some (lit "bad"))
             (fun _ => None) (mkSt (lit "<a") [] [] [] []) (lit "c1") (lit "<b/>")) = []
  /\ partial (handleAppendDiagram Detector.isMxCellXmlComplete wrap_spec (fun _ => Some (lit "bad"))
             (mkSt (lit "<a") [] [] [] []) (lit "c2") (lit "/>")) = []
  /\ (partial (run_calls Detector.isMxCellXmlComplete wrap_spec (fun _ => None) (fun _ => None)
                (fun _ => []) (fun _ => []) (mkSt [] [] [] [] [])
                [CallDisplay (lit "c1") (lit "<a"); CallAppend (lit "c2") (lit " b")]) = []
      \/ Detector.isMxCellXmlComplete
           (partial (run_calls Detector.isMxCellXmlComplete wrap_spec (fun _ => None) (fun _ => None)
                (fun _ => []) (fun _ => []) (mkSt [] [] [] [] [])
                [CallDisplay (lit "c1") (lit "<a"); CallAppend (lit "c2") (lit " b")])) = false).
Proof.
  destruct (partial_buffer_reset_on_complete Detector.isMxCellXmlComplete wrap_spec
              (fun _ => Some (lit "bad")) (fun _ => None) (fun _ => []) (fun _ => []))
    as [H1 [H2 _]].
  destruct (partial_buffer_reset_on_complete Detector.isMxCellXmlComplete wrap_spec
              (fun _ => None) (fun _ => None) (fun _ => []) (fun _ => []))
    as [_ [_ H3]].
  split; [apply H1; vm_compute; reflexivity|].
  split; [apply H2; vm_compute; reflexivity|].
  apply H3. reflexivity.
Defined.

Lemma firstn_app_le : forall {A} n (l1 l2 : list A),
  n <= List.length l1 -> firstn n (l1 ++ l2) = firstn n l1.
Proof.
  intros A n l1 l2 H. rewrite firstn_app.
  replace (n - List.length l1) with 0 by lia. simpl. apply app_nil_r.
Qed.

Lemma concat_snoc : forall (l : list str) c, List.concat (l ++ [c]) = List.concat l ++ c.
Proof. intros l c. rewrite concat_app. simpl. rewrite app_nil_r. reflexivity. Qed.

Lemma run_calls_single : forall ic wr va fe pa se s c,
  run_calls ic wr va fe pa se s [c] = handleToolCall ic wr va fe pa se s c.
Proof. reflexivity. Qed.

Lemma append_incomplete_eq : forall ic wr va s id c,
  is_fresh_start c = false -> ic (partial s ++ c) = false ->
  handleAppendDiagram ic wr va s id c
  = add_out (mkOut (lit "append_diagram") id (AppendIncomplete (slice_last 500 (partial s ++ c))))
            (set_partial (partial s ++ c) s).
Proof. intros ic wr va s id c H1 H2. unfold handleAppendDiagram. rewrite H1, H2. reflexivity. Qed.

(** C6 (amended): there is no round bound. After an incomplete first
    fragment, any number of continuations that keep the buffer incomplete
    are all accumulated, each answered with a resume-point signal; no
    other outcome (in particular no abandonment) ever occurs. *)
Theorem append_rounds_unbounded :
  forall (isComplete : str -> bool) (wrapWithMxFile : str -> str)
         (validate : str -> option str) (fetch : str -> option (list (str * str)))
         (parse_doc : str -> Patch.doc) (serialize_doc : Patch.doc -> str)
         (s : St) (id first : str) (conts : list str),
  (forall n, n <= List.length conts ->
     isComplete (Cache.resolve fetch first ++ List.concat (firstn n conts)) = false) ->
  (forall c, In c conts -> is_fresh_start c = false) ->
  let s' := run_calls isComplete wrapWithMxFile validate fetch parse_doc serialize_doc s
              (CallDisplay id first :: map (CallAppend id) conts) in
  partial s' = Cache.resolve fetch first ++ List.concat conts
  /\ chart s' = chart s /\ shown s' = shown s
  /\ exists new, outs s' = outs s ++ new
       /\ List.length new = Datatypes.S (List.length conts)
       /\ Forall (fun o => resume_signal (o_msg o)) new.
Proof.
  intros isComplete wrapWithMxFile validate fetch parse_doc serialize_doc s id first conts.
  induction conts as [|c conts IH] using rev_ind; intros Hinc Hfresh; simpl.
  - assert (H0 := Hinc 0 (le_n 0)). simpl in H0. rewrite app_nil_r in H0.
    unfold handleDisplayDiagram. rewrite H0. simpl.
    split; [rewrite app_nil_r; reflexivity|]. split; [reflexivity|]. split; [reflexivity|].
    eexists. split; [reflexivity|]. split; [reflexivity|].
    constructor; [exact I | constructor].
  - rewrite map_app.
    change (CallDisplay id first :: map (CallAppend id) conts ++ map (CallAppend id) [c])
      with ((CallDisplay id first :: map (CallAppend id) conts) ++ map (CallAppend id) [c]).
    rewrite run_calls_app.
    destruct IH as [Hp [Hc [Hs [new [Ho [Hl Hf]]]]]].
    { intros n Hn. rewrite <- (firstn_app_le n conts [c]) by exact Hn.
      apply Hinc. rewrite length_app. lia. }
    { intros c' Hc'. apply Hfresh. apply in_or_app. left. exact Hc'. }
    set (s1 := run_calls isComplete wrapWithMxFile validate fetch parse_doc serialize_doc s
                 (CallDisplay id first :: map (CallAppend id) conts)) in *.
    cbn [map]. rewrite run_calls_single. cbn [handleToolCall].
    assert (Hfc : is_fresh_start c = false).
    { apply Hfresh. apply in_or_app. right. left. reflexivity. }
    assert (Hic : isComplete (partial s1 ++ c) = false).
    { rewrite Hp. rewrite <- app_assoc, <- concat_snoc.
      rewrite <- (firstn_all (conts ++ [c])).
      apply Hinc. lia. }
    change (run_calls isComplete wrapWithMxFile validate fetch parse_doc serialize_doc
              (handleDisplayDiagram isComplete wrapWithMxFile validate fetch s id first)
              (map (CallAppend id) conts)) with s1.
    rewrite (append_incomplete_eq isComplete wrapWithMxFile validate s1 id c Hfc Hic). simpl.
    split; [rewrite Hp, concat_snoc, app_assoc; reflexivity|].
    split; [exact Hc|]. split; [exact Hs|].
    exists (new ++ [mkOut (lit "append_diagram") id
                     (AppendIncomplete (slice_last 500 (partial s1 ++ c)))]).
    split; [rewrite Ho, app_assoc; reflexivity|].
    split; [rewrite length_app, Hl, length_app; simpl; lia|].
    apply Forall_app. split; [exact Hf|]. constructor; [exact I | constructor].
Qed.

(** C6 refuted: fifty continuation rounds (well past a bound on the order
    of ten) are all accumulated and answered with a resume-point signal;
    the buffer is still pending and no abandonment is reported. *)
Lemma append_rounds_unbounded_counterexample :
  let s' := run_calls Detector.isMxCellXmlComplete wrap_spec (fun _ => None) (fun _ => None)
              (fun _ => []) (fun _ => []) (mkSt [] [] [] [] [])
              (CallDisplay (lit "c") (qlit "<mxCell id=`a`")
                 :: repeat (CallAppend (lit "c") (lit " ")) 50) in
  List.length (outs s') = 51
  /\ forallb resume_signalb (map o_msg (outs s')) = true
  /\ partial s' <> [].
Proof. vm_compute. split; [reflexivity|]. split; [reflexivity|]. discriminate. Qed.

(** ** Patch engine *)

Lemma run_errors_count : forall w ops,
  List.length (snd (Patch.run w ops)) = Patch.count_failures w ops.
Proof.
  intros w ops. revert w. induction ops as [|o ops IH]; intros w; simpl; [reflexivity|].
  unfold Patch.op_fails. destruct (Patch.op_step w o) as [w1 e] eqn:E. simpl.
  specialize (IH w1). destruct (Patch.run w1 ops) as [w2 es] eqn:E2. simpl in *.
  destruct e; simpl; rewrite IH; reflexivity.
Qed.

Lemma apply_rejects : forall d ops res errs,
  Patch.applyDiagramOperations d ops = (res, errs) -> errs <> [] ->
  res = d /\ errs = snd (Patch.run d ops).
Proof.
  intros d ops res errs H Hne. unfold Patch.applyDiagramOperations in H.
  destruct (Patch.run d ops) as [w es]. destruct es as [|e es]; inversion H; subst.
  - congruence.
  - split; reflexivity.
Qed.

(** C1: when any operation of a batch fails, the patch engine hands back
    the original document with one error per failing operation (every
    operation is evaluated, not only up to the first failure), and the
    edit handler leaves the diagram, the display log and the pending
    buffer untouched and reports the whole error list; in particular
    [[Add(valid), Update(unknown)]] yields the document unchanged and
    exactly one [UnknownCell] error. *)
Theorem edit_batch_atomic :
  (forall (validate : str -> option str) (parse_doc : str -> Patch.doc)
          (serialize_doc : Patch.doc -> str) (s : St) (id : str)
          (ops : list Patch.DiagramOperation) res errs,
   Patch.applyDiagramOperations (parse_doc (current_xml s id)) ops = (res, errs) ->
   errs <> [] ->
   res = parse_doc (current_xml s id)
   /\ List.length errs = Patch.count_failures (parse_doc (current_xml s id)) ops
   /\ (let s' := handleEditDiagram validate parse_doc serialize_doc s id ops in
       chart s' = chart s /\ shown s' = shown s /\ partial s' = partial s
       /\ outs s' = outs s ++ [mkOut (lit "edit_diagram") id (EditFailed errs (current_xml s id))]))
  /\ Patch.applyDiagramOperations [cellv "a" "1"]
       [Patch.mkOp Patch.OpAdd (lit "n") (Some (cellv "n" "1"));
        Patch.mkOp Patch.OpUpdate (lit "zz") (Some (cellv "zz" "1"))]
     = ([cellv "a" "1"], [Patch.mkErr Patch.UnknownCell (lit "zz")]).
Proof.
  split; [|reflexivity].
  intros validate parse_doc serialize_doc s id ops res errs H Hne.
  destruct (apply_rejects _ _ _ _ H Hne) as [Hres Herrs].
  split; [exact Hres|]. split; [rewrite Herrs; apply run_errors_count|].
  unfold handleEditDiagram. rewrite H.
  destruct errs as [|e es]; [congruence|]. simpl.
  repeat split; reflexivity.
Qed.

Lemma edit_batch_atomic_witness :
  Patch.applyDiagramOperations
    ((fun _ : str => ([] : Patch.doc)) (current_xml (mkSt [] [] (lit "d") [] []) (lit "e1")))
    [Patch.mkOp Patch.OpUpdate (lit "zz") None] = ([], [Patch.mkErr Patch.UnknownCell (lit "zz")])
  /\ chart (handleEditDiagram (fun _ => None) (fun _ => []) (fun _ => [])
              (mkSt [] [] (lit "d") [] []) (lit "e1") [Patch.mkOp Patch.OpUpdate (lit "zz") None])
     = lit "d".
Proof.
  destruct edit_batch_atomic as [H _].
  destruct (H (fun _ => None) (fun _ => []) (fun _ => []) (mkSt [] [] (lit "d") [] []) (lit "e1")
              [Patch.mkOp Patch.OpUpdate (lit "zz") None] [] [Patch.mkErr Patch.UnknownCell (lit "zz")])
    as [_ [_ [Hc _]]].
  - reflexivity.
  - discriminate.
  - split; [reflexivity | exact Hc].
Defined.

Lemma append_rounds_unbounded_witness :
  (forall n, n <= List.length [lit " "; lit " "] ->
     Detector.isMxCellXmlComplete
       (Cache.resolve (fun _ => None) (lit "<a") ++ List.concat (firstn n [lit " "; lit " "]))
     = false)
  /\ (forall c, In c [lit " "; lit " "] -> is_fresh_start c = false)
  /\ partial (run_calls Detector.isMxCellXmlComplete wrap_spec (fun _ => None) (fun _ => None)
                (fun _ => []) (fun _ => []) (mkSt [] [] [] [] [])
                (CallDisplay (lit "c") (lit "<a") :: map (CallAppend (lit "c")) [lit " "; lit " "]))
     = Cache.resolve (fun _ => None) (lit "<a") ++ List.concat [lit " "; lit " "].
Proof.
  assert (H1 : forall n, n <= List.length [lit " "; lit " "] ->
     Detector.isMxCellXmlComplete
       (Cache.resolve (fun _ => None) (lit "<a") ++ List.concat (firstn n [lit " "; lit " "]))
     = false).
  { intros n Hn. simpl in Hn.
    destruct n as [|[|[|n]]]; [vm_compute; reflexivity | vm_compute; reflexivity
                              | vm_compute; reflexivity | lia]. }
  assert (H2 : forall c, In c [lit " "; lit " "] -> is_fresh_start c = false).
  { intros c [<-|[<-|[]]]; reflexivity. }
  split; [exact H1|]. split; [exact H2|].
  exact (proj1 (append_rounds_unbounded Detector.isMxCellXmlComplete wrap_spec (fun _ => None)
           (fun _ => None) (fun _ => []) (fun _ => []) (mkSt [] [] [] [] []) (lit "c") (lit "<a")
           [lit " "; lit " "] H1 H2)).
Defined.

(** Cascade: the fixed-point iteration. *)

Lemma filter_length_mono : forall {A} (p q : A -> bool) l,
  (forall x, In x l -> p x = true -> q x = true) ->
  List.length (filter p l) <= List.length (filter q l).
Proof.
  intros A p q l. induction l as [|a l IH]; intros H; simpl; [lia|].
  assert (IH' : List.length (filter p l) <= List.length (filter q l))
    by (apply IH; intros x Hx; apply H; right; exact Hx).
  destruct (p a) eqn:Ep.
  - rewrite (H a (or_introl eq_refl) Ep). simpl. lia.
  - destruct (q a); simpl; lia.
Qed.

Lemma filter_length_mono_lt : forall {A} (p q : A -> bool) l,
  (forall x, In x l -> p x = true -> q x = true) ->
  (exists x, In x l /\ q x = true /\ p x = false) ->
  List.length (filter p l) < List.length (filter q l).
Proof.
  intros A p q l. induction l as [|a l IH]; intros H [x [Hx [Hq Hp]]]; [destruct Hx|].
  simpl. destruct Hx as [<-|Hx].
  - rewrite Hp, Hq. simpl.
    assert (List.length (filter p l) <= List.length (filter q l))
      by (apply filter_length_mono; intros y Hy; apply H; right; exact Hy). lia.
  - assert (IH' : List.length (filter p l) < List.length (filter q l)).
    { apply IH; [intros y Hy; apply H; right; exact Hy | exists x; auto]. }
    destruct (p a) eqn:Ep.
    + rewrite (H a (or_introl eq_refl) Ep). simpl. lia.
    + destruct (q a); simpl; lia.
Qed.

Lemma cascade_step_incl : forall w S x, In x S -> In x (Patch.cascade_step w S).
Proof. intros w S x H. unfold Patch.cascade_step. apply in_or_app. left. exact H. Qed.

Lemma cascade_step_grow : forall w S,
  List.length (Patch.cascade_step w S) <> List.length S ->
  outside w (Patch.cascade_step w S) < outside w S.
Proof.
  intros w S Hne. unfold outside. apply filter_length_mono_lt.
  - intros c Hc H. apply negb_true_iff in H. apply negb_true_iff.
    destruct (str_mem (Patch.cid c) S) eqn:E; [|reflexivity].
    apply str_mem_In in E. rewrite <- H. symmetry. apply str_mem_In.
    apply cascade_step_incl. exact E.
  - unfold Patch.cascade_step in *. rewrite length_app in Hne.
    destruct (filter (fun c => negb (str_mem (Patch.cid c) S) && Patch.pulled S c) w)
      as [|c l] eqn:Ef; [simpl in Hne; lia|].
    assert (Hc : In c (c :: l)) by (left; reflexivity).
    rewrite <- Ef in Hc. apply filter_In in Hc. destruct Hc as [Hcw Hcp]. apply andb_true_iff in Hcp.
    exists c. split; [exact Hcw|]. split; [exact (proj1 Hcp)|].
    apply negb_false_iff. apply str_mem_In. apply in_or_app. right. simpl. left. reflexivity.
Qed.

Lemma cascade_iter_incl : forall w fuel S x, In x S -> In x (Patch.cascade_iter fuel w S).
Proof.
  intros w fuel. induction fuel as [|f IH]; intros S x H; simpl; [exact H|].
  destruct (Nat.eqb _ _); [exact H|]. apply IH. apply cascade_step_incl. exact H.
Qed.

Lemma cascade_iter_stable : forall w fuel S,
  outside w S < fuel ->
  let R := Patch.cascade_iter fuel w S in
  filter (fun c => negb (str_mem (Patch.cid c) R) && Patch.pulled R c) w = [].
Proof.
  intros w fuel. induction fuel as [|f IH]; intros S Hlt; simpl; [lia|].
  destruct (Nat.eqb (List.length (Patch.cascade_step w S)) (List.length S)) eqn:E.
  - apply Nat.eqb_eq in E. unfold Patch.cascade_step in E. rewrite length_app in E.
    destruct (filter _ w); [reflexivity | simpl in E; lia].
  - apply IH. apply Nat.eqb_neq in E. apply cascade_step_grow in E. lia.
Qed.

Lemma cascade_iter_least : forall w (T : str -> Prop),
  cascade_closed w T ->
  forall fuel S, (forall x, In x S -> T x) -> forall x, In x (Patch.cascade_iter fuel w S) -> T x.
Proof.
  intros w T Hcl fuel. induction fuel as [|f IH]; intros S HS x Hx; simpl in Hx; [auto|].
  destruct (Nat.eqb _ _); [auto|].
  apply (IH (Patch.cascade_step w S)); [|exact Hx].
  intros y Hy. unfold Patch.cascade_step in Hy. apply in_app_or in Hy.
  destruct Hy as [Hy|Hy]; [auto|].
  apply in_map_iff in Hy. destruct Hy as [c [<- Hc]]. apply filter_In in Hc.
  destruct Hc as [Hcw Hcp]. apply andb_true_iff in Hcp. destruct Hcp as [_ Hp].
  apply Hcl; [exact Hcw|]. unfold Patch.pulled in Hp. apply orb_true_iff in Hp.
  destruct Hp as [Hp|Hp].
  - left. apply HS. apply str_mem_In. exact Hp.
  - right. apply andb_true_iff in Hp. destruct Hp as [He Hp]. split; [exact He|].
    apply orb_true_iff in Hp. unfold Patch.opt_mem in Hp.
    destruct Hp as [Hp|Hp]; [left; destruct (Patch.csource c) as [z|] | right; destruct (Patch.ctarget c) as [z|]];
      try discriminate; exists z; split; [reflexivity | apply HS; apply str_mem_In; exact Hp
                                          | reflexivity | apply HS; apply str_mem_In; exact Hp].
Qed.

Lemma cascade_closed_result : forall w id c,
  In c w -> Patch.pulled (Patch.cascade w id) c = true -> In (Patch.cid c) (Patch.cascade w id).
Proof.
  intros w id c Hc Hp. unfold Patch.cascade in *.
  assert (Hlt : outside w [id] < Datatypes.S (List.length w)).
  { unfold outside.
    assert (List.length (filter (fun c => negb (str_mem (Patch.cid c) [id])) w) <= List.length w)
      by apply List.filter_length_le. lia. }
  pose proof (cascade_iter_stable w _ [id] Hlt) as Hs. cbv zeta in Hs.
  set (R := Patch.cascade_iter (Datatypes.S (List.length w)) w [id]) in *.
  destruct (str_mem (Patch.cid c) R) eqn:E; [apply str_mem_In; exact E|].
  assert (Hin : In c (filter (fun c => negb (str_mem (Patch.cid c) R) && Patch.pulled R c) w)).
  { apply filter_In. split; [exact Hc|]. rewrite E, Hp. reflexivity. }
  rewrite Hs in Hin. destruct Hin.
Qed.

(** C2: deleting an existing cell removes exactly the cells whose id lies in
    [cascade]; that set contains the target, is closed under "parent in
    the set" and "edge endpoint in the set", and is contained in every set
    with these two properties (it is the least fixed point). On the
    document P, C (child of P), E (edge C to X), X, deleting P leaves
    only X. *)
Theorem delete_cascade_least_fixpoint :
  (forall (w : Patch.doc) (id : str),
   Patch.exists_id w id = true ->
   let D := Patch.cascade w id in
   Patch.applyDiagramOperations w [Patch.mkOp Patch.OpDelete id None]
     = (filter (fun c => negb (str_mem (Patch.cid c) D)) w, [])
   /\ In id D
   /\ (forall c, In c w -> Patch.pulled D c = true -> In (Patch.cid c) D)
   /\ (forall T : str -> Prop, T id -> cascade_closed w T -> forall x, In x D -> T x))
  /\ Patch.applyDiagramOperations doc_pcex [Patch.mkOp Patch.OpDelete (lit "P") None]
     = ([cellv "X" "1"], []).
Proof.
  split; [|vm_compute; reflexivity].
  intros w id Hex D. split; [|split; [|split]].
  - unfold Patch.applyDiagramOperations, Patch.run, Patch.op_step. simpl. rewrite Hex. reflexivity.
  - apply cascade_iter_incl. left. reflexivity.
  - apply cascade_closed_result.
  - intros T HT Hcl. apply (cascade_iter_least w T Hcl).
    intros x [<-|[]]. exact HT.
Qed.

Lemma delete_cascade_least_fixpoint_witness :
  Patch.exists_id doc_pcex (lit "C") = true
  /\ Patch.applyDiagramOperations doc_pcex [Patch.mkOp Patch.OpDelete (lit "C") None]
     = (filter (fun c => negb (str_mem (Patch.cid c) (Patch.cascade doc_pcex (lit "C")))) doc_pcex, []).
Proof.
  assert (H : Patch.exists_id doc_pcex (lit "C") = true) by reflexivity.
  split; [exact H|].
  exact (proj1 (proj1 delete_cascade_least_fixpoint doc_pcex (lit "C") H)).
Defined.

(** ** Completeness detector *)

Lemma scan_step_quote_ok : forall st c, quote_ok st -> quote_ok (Detector.scan_step st c).
Proof.
  intros [q t fr k sl d] c Hq. unfold quote_ok in *. simpl in Hq.
  unfold Detector.scan_step. destruct q as [qc|].
  - destruct (Ascii.eqb c qc); simpl; auto.
  - destruct t.
    + destruct (fr && Ascii.eqb c "/"); [simpl; auto|].
      destruct (fr && (Ascii.eqb c "?" || Ascii.eqb c "!")); [simpl; auto|].
      unfold Detector.in_tag_step.
      destruct (Ascii.eqb c dq) eqn:E1; simpl.
      * apply Ascii.eqb_eq in E1. subst. auto.
      * destruct (Ascii.eqb c "'") eqn:E2; simpl.
        -- apply Ascii.eqb_eq in E2. subst. auto.
        -- destruct (Ascii.eqb c ">"); [simpl; auto|]. destruct (Ascii.eqb c "/"); simpl; auto.
    + destruct (Ascii.eqb c "<"); simpl; auto.
Qed.

Lemma scan_quote_ok : forall s, quote_ok (Detector.scan s).
Proof.
  intros s. unfold Detector.scan.
  assert (H : forall l st, quote_ok st -> quote_ok (fold_left Detector.scan_step l st)).
  { induction l as [|c l IH]; intros st Hst; simpl; [exact Hst|].
    apply IH. apply scan_step_quote_ok. exact Hst. }
  apply H. left. reflexivity.
Qed.

(** C3: the detector is a total function whose answer is "complete"
    exactly when the scan ends outside any quoted value, outside any
    angle bracket, with depth zero; a [>] inside a quoted value leaves the
    answer unchanged; and on the spec's examples a value holding [1>2] is
    complete, as is the closed cell, while a cell cut inside a value is
    not. *)
Theorem detector_complete_iff :
  (forall s : str,
   Detector.isMxCellXmlComplete s = true <->
   (Detector.s_quote (Detector.scan s) = None
    /\ Detector.s_tag (Detector.scan s) = false
    /\ Detector.s_depth (Detector.scan s) = 0%Z))
  /\ (forall p q : str, Detector.s_quote (Detector.scan p) <> None ->
      Detector.isMxCellXmlComplete (p ++ [">"%char] ++ q)
      = Detector.isMxCellXmlComplete (p ++ q))
  /\ Detector.isMxCellXmlComplete (qlit "<cell id=`a` value=`1>2` vertex=`1` parent=`1`/>") = true
  /\ Detector.isMxCellXmlComplete (qlit "<cell id=`a` vertex=`1` parent=`1`/>") = true
  /\ Detector.isMxCellXmlComplete (qlit "<cell id=`a` vertex=`1` parent=`1") = false.
Proof.
  split; [|split; [|split; [|split]]]; try (vm_compute; reflexivity).
  - intros s. unfold Detector.isMxCellXmlComplete, Detector.ends_closed.
    destruct (Detector.s_quote (Detector.scan s)); [split; [discriminate | intros [H _]; discriminate]|].
    rewrite andb_true_iff, negb_true_iff, Z.eqb_eq. split.
    + intros [H1 H2]. auto.
    + intros [_ [H1 H2]]. auto.
  - intros p q Hq. unfold Detector.isMxCellXmlComplete, Detector.scan.
    rewrite !fold_left_app. simpl.
    assert (Hok := scan_quote_ok p). unfold Detector.scan in Hok, Hq.
    destruct (fold_left Detector.scan_step p Detector.scan_init) as [qq t fr k sl d].
    unfold quote_ok in Hok. simpl in Hok, Hq.
    destruct Hok as [Hn|[Hd|Hs]]; [congruence| |]; subst; reflexivity.
Qed.

Lemma detector_complete_iff_witness :
  qlit "<cell id=`a` value=`1" <> [] /\
  Detector.s_quote (Detector.scan (qlit "<cell id=`a` value=`1")) <> None
  /\ Detector.isMxCellXmlComplete (qlit "<cell id=`a` value=`1" ++ [">"%char] ++ qlit "2`/>")
     = Detector.isMxCellXmlComplete (qlit "<cell id=`a` value=`1" ++ qlit "2`/>").
Proof.
  assert (H : Detector.s_quote (Detector.scan (qlit "<cell id=`a` value=`1")) <> None)
    by (vm_compute; discriminate).
  split; [discriminate|]. split; [exact H|].
  exact (proj1 (proj2 detector_complete_iff) _ _ H).
Defined.

(** ** Region cache *)

Lemma str_eqb_sym : forall a b, str_eqb a b = str_eqb b a.
Proof.
  intros a b. destruct (str_eqb a b) eqn:E; destruct (str_eqb b a) eqn:E'; auto.
  - apply str_eqb_eq in E. subst. rewrite str_eqb_refl in E'. discriminate.
  - apply str_eqb_eq in E'. subst. rewrite str_eqb_refl in E. discriminate.
Qed.

Lemma map_get_map_other : forall k k' v m,
  str_eqb k k' = false ->
  RegionStore.map_get k (map (fun kv => if str_eqb (fst kv) k' then (k', v) else kv) m)
  = RegionStore.map_get k m.
Proof.
  intros k k' v m Hk. induction m as [|[k0 v0] m IH]; simpl; [reflexivity|].
  destruct (str_eqb k0 k') eqn:E0; simpl.
  - apply str_eqb_eq in E0. subst k0. rewrite Hk. exact IH.
  - rewrite IH. reflexivity.
Qed.

Lemma map_get_map_same : forall k' v m,
  existsb (fun kv => str_eqb (fst kv) k') m = true ->
  RegionStore.map_get k' (map (fun kv => if str_eqb (fst kv) k' then (k', v) else kv) m)
  = Some v.
Proof.
  intros k' v m. induction m as [|[k0 v0] m IH]; simpl; [discriminate|].
  intros Ex. destruct (str_eqb k0 k') eqn:E0; simpl.
  - rewrite str_eqb_refl. reflexivity.
  - rewrite str_eqb_sym, E0. apply IH. exact Ex.
Qed.

Lemma map_get_snoc : forall k k' v m,
  RegionStore.map_get k (m ++ [(k', v)])
  = match RegionStore.map_get k m with
    | Some x => Some x
    | None => if str_eqb k k' then Some v else None
    end.
Proof.
  intros k k' v m. induction m as [|[k0 v0] m IH]; simpl; [reflexivity|].
  destruct (str_eqb k k0); [reflexivity | exact IH].
Qed.

Lemma map_get_absent : forall k m,
  existsb (fun kv : str * list (str * str) => str_eqb (fst kv) k) m = false ->
  RegionStore.map_get k m = None.
Proof.
  intros k m. induction m as [|[k0 v0] m IH]; simpl; [reflexivity|].
  intros Ex. apply orb_false_iff in Ex. destruct Ex as [E0 Ex].
  rewrite str_eqb_sym, E0. apply IH. exact Ex.
Qed.

Lemma map_get_set : forall k k' v m,
  RegionStore.map_get k (RegionStore.map_set k' v m)
  = if str_eqb k k' then Some v else RegionStore.map_get k m.
Proof.
  intros k k' v m. unfold RegionStore.map_set.
  destruct (str_eqb k k') eqn:Ek.
  - apply str_eqb_eq in Ek. subst k'.
    destruct (existsb (fun kv => str_eqb (fst kv) k) m) eqn:Ex.
    + apply map_get_map_same. exact Ex.
    + rewrite map_get_snoc, map_get_absent by exact Ex. rewrite str_eqb_refl. reflexivity.
  - destruct (existsb (fun kv => str_eqb (fst kv) k') m).
    + apply map_get_map_other. exact Ek.
    + rewrite map_get_snoc, Ek. destruct (RegionStore.map_get k m); reflexivity.
Qed.

Lemma map_get_delete : forall k k' m,
  RegionStore.map_get k (RegionStore.map_delete k' m)
  = if str_eqb k k' then None else RegionStore.map_get k m.
Proof.
  intros k k' m. induction m as [|[k0 v0] m IH]; simpl.
  - destruct (str_eqb k k'); reflexivity.
  - destruct (str_eqb k0 k') eqn:E0; simpl.
    + apply str_eqb_eq in E0. subst k0. rewrite IH.
      destruct (str_eqb k k'); reflexivity.
    + rewrite IH. destruct (str_eqb k k') eqn:E1; [|reflexivity].
      apply str_eqb_eq in E1. subst k'.
      destruct (str_eqb k k0) eqn:E2; [|reflexivity].
      apply str_eqb_eq in E2. subst k0. rewrite str_eqb_refl in E0. discriminate.
Qed.

Lemma remove_nth_incl : forall {A} i (l : list A) x, In x (RegionStore.remove_nth i l) -> In x l.
Proof.
  intros A i. induction i as [|i IH]; intros [|a l] x H; simpl in *; auto.
  destruct H as [H|H]; auto.
Qed.

Lemma run_snoc : forall s es e,
  RegionStore.run s (es ++ [e]) = RegionStore.step (RegionStore.run s es) e.
Proof. intros. unfold RegionStore.run. rewrite fold_left_app. reflexivity. Qed.

Lemma timers_scheduled_at_insert : forall es t k,
  In (t, k) (RegionStore.timers (RegionStore.run RegionStore.init es)) ->
  exists es1 mp es2, es = es1 ++ RegionStore.Extract k mp :: es2
    /\ t = (RegionStore.now (RegionStore.run RegionStore.init es1) + RegionStore.TTL)%N.
Proof.
  induction es as [|e es IH] using rev_ind; intros t k H; simpl in H; [destruct H|].
  rewrite run_snoc in H.
  assert (Hold : In (t, k) (RegionStore.timers (RegionStore.run RegionStore.init es)) ->
     exists es1 mp es2, es ++ [e] = es1 ++ RegionStore.Extract k mp :: es2
     /\ t = (RegionStore.now (RegionStore.run RegionStore.init es1) + RegionStore.TTL)%N).
  { intros Ho. destruct (IH t k Ho) as [es1 [mp [es2 [-> Ht]]]].
    exists es1, mp, (es2 ++ [e]). split; [|exact Ht].
    rewrite <- app_assoc. reflexivity. }
  set (s := RegionStore.run RegionStore.init es) in *.
  destruct e as [k' mp|key|dt|i]; simpl in H.
  - apply in_app_or in H. destruct H as [H|[H|[]]]; [apply Hold; exact H|].
    inversion H; subst. exists es, mp, []. split; reflexivity.
  - apply Hold. exact H.
  - apply Hold. exact H.
  - destruct (nth_error (RegionStore.timers s) i) as [[t0 k0]|]; [|apply Hold; exact H].
    destruct (N.leb t0 (RegionStore.now s)); simpl in H; [|apply Hold; exact H].
    apply Hold. apply (remove_nth_incl i). exact H.
Qed.

Lemma removal_only_by_timer : forall s k m e,
  RegionStore.lookup k s = Some m ->
  RegionStore.lookup k (RegionStore.step s e) = None ->
  exists i t, e = RegionStore.Fire i
    /\ nth_error (RegionStore.timers s) i = Some (t, k)
    /\ (t <= RegionStore.now s)%N.
Proof.
  intros [c tm nw] k m e Hl Hr. unfold RegionStore.lookup in *. simpl in Hl.
  destruct c as [mp|]; [|discriminate].
  destruct e as [k' mp'|key|dt|i]; simpl in Hr.
  - rewrite map_get_set in Hr. destruct (str_eqb k k'); congruence.
  - congruence.
  - congruence.
  - destruct (nth_error tm i) as [[t k0]|] eqn:En; [|simpl in Hr; congruence].
    destruct (N.leb t nw) eqn:Et; simpl in Hr; [|congruence].
    rewrite map_get_delete in Hr. destruct (str_eqb k k0) eqn:Ek; [|congruence].
    apply str_eqb_eq in Ek. subst k0. exists i, t. split; [reflexivity|].
    split; [exact En|]. apply N.leb_le. exact Et.
Qed.

(** C9: a read of the get-cached-regions route leaves the cache (and the
    timers) exactly as they were, so a repeated read answers the same; an
    entry disappears only when a due timer for its key runs; and every
    timer was scheduled by an insertion of that key, [TTL] (ten minutes)
    after the insertion time. *)
Theorem region_cache_read_only_ttl_expiry :
  (forall (s : RegionStore.Store) (key : option str),
   RegionStore.step s (RegionStore.Get key) = s
   /\ RegionStore.get_cached_regions (RegionStore.step s (RegionStore.Get key)) key
      = RegionStore.get_cached_regions s key)
  /\ (forall (es : list RegionStore.Event) (e : RegionStore.Event) k m,
      let s := RegionStore.run RegionStore.init es in
      RegionStore.lookup k s = Some m ->
      RegionStore.lookup k (RegionStore.step s e) = None ->
      exists i t es1 mp es2, e = RegionStore.Fire i
        /\ nth_error (RegionStore.timers s) i = Some (t, k)
        /\ (t <= RegionStore.now s)%N
        /\ es = es1 ++ RegionStore.Extract k mp :: es2
        /\ t = (RegionStore.now (RegionStore.run RegionStore.init es1) + RegionStore.TTL)%N)
  /\ RegionStore.TTL = (10 * 60 * 1000)%N.
Proof.
  split; [|split; [|reflexivity]].
  - intros s key. split; reflexivity.
  - intros es e k m s Hl Hr.
    destruct (removal_only_by_timer s k m e Hl Hr) as [i [t [He [Hn Ht]]]].
    destruct (timers_scheduled_at_insert es t k) as [es1 [mp [es2 [Hes Hins]]]].
    { apply nth_error_In with i. exact Hn. }
    exists i, t, es1, mp, es2. repeat split; assumption.
Qed.

Lemma region_cache_read_only_ttl_expiry_witness :
  let es := [RegionStore.Extract (lit "k") [(lit "r", lit "data:image/png;base64,QQ==")];
             RegionStore.Get (Some (lit "k")); RegionStore.Tick 600000%N] in
  RegionStore.lookup (lit "k") (RegionStore.run RegionStore.init es)
    = Some [(lit "r", lit "data:image/png;base64,QQ==")]
  /\ RegionStore.lookup (lit "k") (RegionStore.step (RegionStore.run RegionStore.init es)
                                     (RegionStore.Fire 0)) = None
  /\ exists i t es1 mp es2, RegionStore.Fire 0 = RegionStore.Fire i
       /\ nth_error (RegionStore.timers (RegionStore.run RegionStore.init es)) i = Some (t, lit "k")
       /\ (t <= RegionStore.now (RegionStore.run RegionStore.init es))%N
       /\ es = es1 ++ RegionStore.Extract (lit "k") mp :: es2
       /\ t = (RegionStore.now (RegionStore.run RegionStore.init es1) + RegionStore.TTL)%N.
Proof.
  intros es.
  assert (H1 : RegionStore.lookup (lit "k") (RegionStore.run RegionStore.init es)
               = Some [(lit "r", lit "data:image/png;base64,QQ==")]) by reflexivity.
  assert (H2 : RegionStore.lookup (lit "k") (RegionStore.step (RegionStore.run RegionStore.init es)
                                     (RegionStore.Fire 0)) = None) by (vm_compute; reflexivity).
  split; [exact H1|]. split; [exact H2|].
  exact (proj1 (proj2 region_cache_read_only_ttl_expiry) es (RegionStore.Fire 0) (lit "k") _ H1 H2).
Defined.

(** ** Cache-reference substitution *)

Lemma count_semis_app : forall a b, count_semis (a ++ b) = count_semis a + count_semis b.
Proof. intros a b. unfold count_semis. rewrite filter_app, length_app. reflexivity. Qed.

Lemma encode_semis_count : forall p, count_semis (Cache.encode_semis p) = 0.
Proof.
  induction p as [|c p IH]; [reflexivity|].
  change (Cache.encode_semis (c :: p))
    with ((if Ascii.eqb c ";" then lit "%3B" else [c]) ++ Cache.encode_semis p).
  rewrite count_semis_app, IH.
  destruct (Ascii.eqb c ";") eqn:E; [reflexivity|].
  unfold count_semis. simpl. rewrite E. reflexivity.
Qed.

Lemma starts_with_split : forall p t,
  starts_with p t = true -> t = p ++ skipn (List.length p) t.
Proof.
  induction p as [|x p IHp]; intros t Ht; [reflexivity|].
  destruct t as [|y t]; simpl in Ht; [discriminate|].
  apply andb_true_iff in Ht. destruct Ht as [Hx Ht]. apply Ascii.eqb_eq in Hx. subst y.
  simpl. f_equal. apply IHp. exact Ht.
Qed.

Lemma find_first_split : forall pat s pre post,
  Cache.find_first pat s = Some (pre, post) -> s = pre ++ pat ++ post.
Proof.
  intros pat s. induction s as [|c s IH]; intros pre post H; simpl in H;
  destruct (starts_with pat _) eqn:Ep.
  - inversion H; subst. apply starts_with_split. exact Ep.
  - discriminate.
  - inversion H; subst. apply starts_with_split. exact Ep.
  - destruct (Cache.find_first pat s) as [[a b]|] eqn:Ef; [|discriminate].
    inversion H; subst. simpl. f_equal. apply IH. reflexivity.
Qed.

Lemma expand_no_dollar : forall rep pre m post,
  ~ In "$"%char rep -> Cache.expand rep pre m post = rep.
Proof.
  induction rep as [|c rep IH]; intros pre m post H; [reflexivity|]. simpl.
  destruct (Ascii.eqb c "$") eqn:E.
  - apply Ascii.eqb_eq in E. subst. exfalso. apply H. left. reflexivity.
  - f_equal. apply IH. intros Hin. apply H. right. exact Hin.
Qed.

Lemma b64_no_dollar : forall b, forallb b64_char b = true -> ~ In "$"%char b.
Proof.
  intros b Hb Hin. rewrite forallb_forall in Hb. specialize (Hb _ Hin). discriminate.
Qed.

Lemma encode_semis_no_dollar : forall p, ~ In "$"%char p -> ~ In "$"%char (Cache.encode_semis p).
Proof.
  intros p Hp Hin. unfold Cache.encode_semis in Hin. apply in_flat_map in Hin.
  destruct Hin as [c [Hc Hin]]. destruct (Ascii.eqb c ";").
  - simpl in Hin. destruct Hin as [H|[H|[H|[]]]]; discriminate.
  - destruct Hin as [Heq|[]]. subst c. exact (Hp Hc).
Qed.

Lemma png_payload_rep_no_dollar : forall p,
  png_data_url p -> ~ In "$"%char (lit "image=" ++ Cache.encode_semis p).
Proof.
  intros p [b [-> Hb]] Hin. apply in_app_or in Hin. destruct Hin as [Hin|Hin].
  - simpl in Hin. repeat (destruct Hin as [Hin|Hin]; [discriminate|]). destruct Hin.
  - revert Hin. apply encode_semis_no_dollar. intros Hin. apply in_app_or in Hin.
    destruct Hin as [Hin|Hin].
    + simpl in Hin. repeat (destruct Hin as [Hin|Hin]; [discriminate|]). destruct Hin.
    + exact (b64_no_dollar b Hb Hin).
Qed.

Lemma js_replace_found : forall s pat rep pre post,
  ~ In "$"%char rep ->
  Cache.find_first pat s = Some (pre, post) ->
  s = pre ++ pat ++ post /\ Cache.js_replace s pat rep = pre ++ rep ++ post.
Proof.
  intros s pat rep pre post Hd Hf. split; [exact (find_first_split _ _ _ _ Hf)|].
  unfold Cache.js_replace. rewrite Hf. rewrite expand_no_dollar by exact Hd. reflexivity.
Qed.

Lemma js_replace_semis : forall s pat rep,
  ~ In "$"%char rep -> count_semis rep = 0 ->
  count_semis (Cache.js_replace s pat rep) <= count_semis s.
Proof.
  intros s pat rep Hd Hc. unfold Cache.js_replace.
  destruct (Cache.find_first pat s) as [[pre post]|] eqn:Ef; [|lia].
  rewrite expand_no_dollar by exact Hd.
  rewrite (find_first_split _ _ _ _ Ef). rewrite !count_semis_app, Hc. lia.
Qed.

Lemma rep_count_semis : forall p, count_semis (lit "image=" ++ Cache.encode_semis p) = 0.
Proof. intros p. rewrite count_semis_app, encode_semis_count. reflexivity. Qed.

Lemma assoc_In : forall k l v, Cache.assoc k l = Some v -> In (k, v) l.
Proof.
  intros k l. induction l as [|[k0 v0] l IH]; intros v H; simpl in H; [discriminate|].
  destruct (str_eqb k k0) eqn:E.
  - inversion H; subst. apply str_eqb_eq in E. subst. left. reflexivity.
  - right. apply IH. exact H.
Qed.

Lemma subst_matches_semis : forall key regions ms xml,
  (forall name p, In (name, p) regions -> png_data_url p) ->
  count_semis (Cache.subst_matches key regions ms xml) <= count_semis xml.
Proof.
  intros key regions ms. induction ms as [|[k r] ms IH]; intros xml Hreg; simpl; [lia|].
  destruct (str_eqb k key); [|apply IH; exact Hreg].
  unfold Cache.obj_get. destruct (Cache.assoc r regions) as [p|] eqn:Ea.
  - destruct p as [|c p']; [apply IH; exact Hreg|].
    assert (Hp : png_data_url (c :: p')) by (apply (Hreg r); apply assoc_In; exact Ea).
    eapply Nat.le_trans; [apply IH; exact Hreg|].
    apply js_replace_semis; [apply png_payload_rep_no_dollar; exact Hp|].
    apply rep_count_semis.
  - destruct (str_mem r Cache.proto_names); [lia | apply IH; exact Hreg].
Qed.

Lemma resolve_semis : forall fetch xml,
  (forall k regions, fetch k = Some regions ->
     forall name p, In (name, p) regions -> png_data_url p) ->
  count_semis (Cache.resolve fetch xml) <= count_semis xml.
Proof.
  intros fetch xml Hf. unfold Cache.resolve.
  generalize (Cache.dedup (map fst (Cache.match_all xml))) as keys.
  generalize (Cache.match_all xml) as ms.
  intros ms keys.
  assert (Hg : forall x, count_semis x <= count_semis xml ->
    count_semis (fold_left (fun x key => match fetch key with
       | Some regions => Cache.subst_matches key regions ms x | None => x end) keys x)
      <= count_semis xml).
  { induction keys as [|k keys IH]; intros x Hx; simpl; [exact Hx|].
    apply IH. destruct (fetch k) as [regions|] eqn:E; [|exact Hx].
    eapply Nat.le_trans; [apply subst_matches_semis|exact Hx].
    exact (Hf k regions E). }
  apply Hg. lia.
Qed.

Lemma encode_semis_app : forall a b,
  Cache.encode_semis (a ++ b) = Cache.encode_semis a ++ Cache.encode_semis b.
Proof. intros a b. unfold Cache.encode_semis. apply flat_map_app. Qed.

Lemma encode_semis_b64 : forall b, forallb b64_char b = true -> Cache.encode_semis b = b.
Proof.
  induction b as [|c b IH]; intros H; [reflexivity|].
  simpl in H. apply andb_true_iff in H. destruct H as [Hc Hb].
  change (Cache.encode_semis (c :: b))
    with ((if Ascii.eqb c ";" then lit "%3B" else [c]) ++ Cache.encode_semis b).
  rewrite IH by exact Hb.
  destruct (Ascii.eqb c ";") eqn:E.
  - apply Ascii.eqb_eq in E. subst c. discriminate.
  - reflexivity.
Qed.

(** C7: a resolved cache reference [image=data:cache/<key>/<region>] is
    replaced, at the occurrence [String.replace] finds, by [image=] followed
    by the payload with every [;] written as [%3B]. For a payload of the
    extract-regions route ([data:image/png;base64,<b64>]) that is
    [image=data:image/png%3Bbase64,<b64>]; the inserted text holds no [;],
    and the whole resolution never adds a [;] to the document. *)
Theorem cache_substitution_escapes_separators :
  forall (fetch : str -> option (list (str * str))) (xml key region p : str),
  (forall k regions, fetch k = Some regions ->
     forall name q, In (name, q) regions -> png_data_url q) ->
  png_data_url p ->
  (forall b, p = lit "data:image/png;base64," ++ b ->
     Cache.encode_semis p = lit "data:image/png%3Bbase64," ++ b) /\
  count_semis (lit "image=" ++ Cache.encode_semis p) = 0 /\
  (forall pre post,
     Cache.find_first (Cache.search_str key region) xml = Some (pre, post) ->
     xml = pre ++ Cache.search_str key region ++ post /\
     Cache.js_replace xml (Cache.search_str key region)
       (lit "image=" ++ Cache.encode_semis p)
     = pre ++ lit "image=" ++ Cache.encode_semis p ++ post) /\
  count_semis (Cache.resolve fetch xml) <= count_semis xml.
Proof.
  intros fetch xml key region p Hf Hp. split; [|split; [|split]].
  - intros b0 Hb0. destruct Hp as [b [Hpb Hb]].
    rewrite Hpb in Hb0. apply app_inv_head in Hb0. subst b0.
    rewrite Hpb, encode_semis_app, (encode_semis_b64 b Hb). reflexivity.
  - apply rep_count_semis.
  - intros pre post Hfind.
    destruct (js_replace_found xml _ _ pre post (png_payload_rep_no_dollar p Hp) Hfind)
      as [H1 H2].
    split; [exact H1|]. rewrite H2. rewrite <- app_assoc. reflexivity.
  - apply resolve_semis. exact Hf.
Qed.

Lemma cache_substitution_escapes_separators_witness :
  (forall k regions, c7_fetch k = Some regions ->
     forall name q, In (name, q) regions -> png_data_url q) /\
  png_data_url c7_payload /\
  Cache.resolve c7_fetch c7_xml
  = qlit "<mxCell style=`shape=image;image=data:image/png%3Bbase64,iVBORw0K;aspect=fixed;` />" /\
  count_semis (Cache.resolve c7_fetch c7_xml) <= count_semis c7_xml.
Proof.
  assert (Hf : forall k regions, c7_fetch k = Some regions ->
     forall name q, In (name, q) regions -> png_data_url q).
  { intros k regions Hk name q Hin. unfold c7_fetch in Hk.
    destruct (str_eqb k (lit "k1")); [|discriminate].
    inversion Hk; subst regions. destruct Hin as [Hin|[]]. inversion Hin; subst q.
    exists (lit "iVBORw0K"). split; reflexivity. }
  assert (Hp : png_data_url c7_payload) by (exists (lit "iVBORw0K"); split; reflexivity).
  split; [exact Hf|]. split; [exact Hp|]. split; [vm_compute; reflexivity|].
  exact (proj2 (proj2 (proj2
    (cache_substitution_escapes_separators c7_fetch c7_xml (lit "k1") (lit "r1")
       c7_payload Hf Hp)))).
Defined.

(** ** Assembling a truncated diagram *)

Lemma starts_with_app : forall p a b, starts_with p a = true -> starts_with p (a ++ b) = true.
Proof.
  induction p as [|x p IH]; intros a b H; [reflexivity|].
  destruct a as [|y a]; simpl in H; [discriminate|].
  apply andb_true_iff in H. destruct H as [H1 H2].
  simpl. rewrite H1, (IH a b H2). reflexivity.
Qed.

Lemma includes_app_l : forall p a b, includes p (a ++ b) = false -> includes p a = false.
Proof.
  intros p a b. induction a as [|c a IH]; intros H.
  - destruct p as [|x p]; [destruct b; discriminate|reflexivity].
  - simpl in H. apply orb_false_iff in H. destruct H as [H1 H2].
    simpl. apply orb_false_iff. split; [|exact (IH H2)].
    destruct (starts_with p (c :: a)) eqn:E; [|reflexivity].
    rewrite <- H1. symmetry. exact (starts_with_app p (c :: a) b E).
Qed.

Lemma match_all_fuel_none : forall f s,
  includes Cache.cache_head s = false -> Cache.match_all_fuel f s = [].
Proof.
  induction f as [|f IH]; intros s H; [reflexivity|].
  destruct s as [|c s]; [reflexivity|].
  change (includes Cache.cache_head (c :: s))
    with (starts_with Cache.cache_head (c :: s) || includes Cache.cache_head s) in H.
  apply orb_false_iff in H. destruct H as [H1 H2].
  change (Cache.match_all_fuel (S f) (c :: s))
    with (match Cache.match_at (c :: s) with
          | Some (k, r, rest) => (k, r) :: Cache.match_all_fuel f rest
          | None => Cache.match_all_fuel f s end).
  unfold Cache.match_at. rewrite H1. apply IH. exact H2.
Qed.

Lemma resolve_no_reference : forall fetch xml,
  includes Cache.cache_head xml = false -> Cache.resolve fetch xml = xml.
Proof.
  intros fetch xml H. unfold Cache.resolve, Cache.match_all.
  rewrite match_all_fuel_none by exact H. reflexivity.
Qed.

Lemma append_complete_effect : forall ic wr va t id c,
  is_fresh_start c = false -> ic (partial t ++ c) = true ->
  chart (handleAppendDiagram ic wr va t id c)
    = match va (wr (partial t ++ c)) with None => wr (partial t ++ c) | Some _ => chart t end /\
  shown (handleAppendDiagram ic wr va t id c) = shown t ++ [wr (partial t ++ c)] /\
  partial (handleAppendDiagram ic wr va t id c) = [].
Proof.
  intros ic wr va t id c Hf Hc. unfold handleAppendDiagram, onDisplayChart.
  rewrite Hf, Hc. destruct (va (wr (partial t ++ c))); simpl; auto.
Qed.

Lemma append_incomplete_effect : forall ic wr va t id c,
  is_fresh_start c = false -> ic (partial t ++ c) = false ->
  chart (handleAppendDiagram ic wr va t id c) = chart t /\
  shown (handleAppendDiagram ic wr va t id c) = shown t /\
  partial (handleAppendDiagram ic wr va t id c) = partial t ++ c.
Proof.
  intros ic wr va t id c Hf Hc. unfold handleAppendDiagram. rewrite Hf, Hc.
  simpl. auto.
Qed.

Lemma display_complete_effect : forall ic wr va fe s id x,
  includes Cache.cache_head x = false -> ic x = true ->
  chart (handleDisplayDiagram ic wr va fe s id x)
    = match va (wr x) with None => wr x | Some _ => chart s end /\
  shown (handleDisplayDiagram ic wr va fe s id x) = shown s ++ [wr x] /\
  partial (handleDisplayDiagram ic wr va fe s id x) = [].
Proof.
  intros ic wr va fe s id x Hn Hc. unfold handleDisplayDiagram, onDisplayChart.
  rewrite (resolve_no_reference fe x Hn), Hc. simpl.
  destruct (va (wr x)); simpl; auto.
Qed.

Lemma display_incomplete_effect : forall ic wr va fe s id x,
  includes Cache.cache_head x = false -> ic x = false ->
  chart (handleDisplayDiagram ic wr va fe s id x) = chart s /\
  shown (handleDisplayDiagram ic wr va fe s id x) = shown s /\
  partial (handleDisplayDiagram ic wr va fe s id x) = x.
Proof.
  intros ic wr va fe s id x Hn Hc. unfold handleDisplayDiagram.
  rewrite (resolve_no_reference fe x Hn), Hc. simpl. auto.
Qed.

Lemma appends_assemble : forall ic wr va fe pa se id conts t,
  Forall (fun c => is_fresh_start c = false) conts ->
  ic (partial t) = false ->
  (forall i, i < List.length conts ->
     ic (partial t ++ List.concat (firstn i conts)) = false) ->
  ic (partial t ++ List.concat conts) = true ->
  let x := partial t ++ List.concat conts in
  let t' := run_calls ic wr va fe pa se t (map (CallAppend id) conts) in
  chart t' = match va (wr x) with None => wr x | Some _ => chart t end /\
  shown t' = shown t ++ [wr x] /\
  partial t' = [].
Proof.
  intros ic wr va fe pa se id conts.
  induction conts as [|c cs IH]; intros t Hf H0 Hpre Hc.
  - simpl in Hc. rewrite app_nil_r in Hc. rewrite Hc in H0. discriminate.
  - inversion Hf as [|? ? Hfc Hfs]; subst.
    destruct cs as [|c' cs'].
    + simpl in Hc. rewrite !app_nil_r in Hc.
      destruct (append_complete_effect ic wr va t id c Hfc Hc) as [H1 [H2 H3]].
      simpl. rewrite !app_nil_r. auto.
    + assert (Hinc : ic (partial t ++ c) = false).
      { specialize (Hpre 1). simpl in Hpre. rewrite app_nil_r in Hpre. apply Hpre. simpl. lia. }
      destruct (append_incomplete_effect ic wr va t id c Hfc Hinc) as [H1 [H2 H3]].
      set (t1 := handleAppendDiagram ic wr va t id c) in *.
      assert (IH' := IH t1 Hfs).
      rewrite H3 in IH'.
      destruct IH' as [J1 [J2 J3]].
      * exact Hinc.
      * intros i Hi. rewrite <- app_assoc. apply (Hpre (S i)). simpl in *. lia.
      * rewrite <- app_assoc. exact Hc.
      * change (run_calls ic wr va fe pa se t (map (CallAppend id) (c :: c' :: cs')))
          with (run_calls ic wr va fe pa se t1 (map (CallAppend id) (c' :: cs'))).
        cbv zeta. rewrite J1, J2, J3, H1, H2. simpl List.concat. rewrite !app_assoc. auto.
Qed.

(** The first fragment [<a] is incomplete, neither
    continuation [/>] nor [<b/>] is a fresh start, and their concatenation
    [<a/><b/>] is complete; yet the assembler loads two documents, [<a/>]
    as soon as the buffer closes after the first continuation and then
    [<b/>], while processing the concatenation directly loads one. *)
Lemma assembler_single_document_counterexample :
  Detector.isMxCellXmlComplete (lit "<a") = false /\
  Forall (fun c => is_fresh_start c = false) [lit "/>"; lit "<b/>"] /\
  Detector.isMxCellXmlComplete (lit "<a" ++ List.concat [lit "/>"; lit "<b/>"]) = true /\
  shown (c4_assemble (lit "<a") [lit "/>"; lit "<b/>"])
    = [wrap_spec (lit "<a/>"); wrap_spec (lit "<b/>")] /\
  shown (c4_direct (lit "<a/><b/>")) = [wrap_spec (lit "<a/><b/>")] /\
  shown (c4_assemble (lit "<a") [lit "/>"; lit "<b/>"]) <> shown (c4_direct (lit "<a/><b/>")).
Proof.
  split; [vm_compute; reflexivity|].
  split; [repeat constructor|].
  split; [vm_compute; reflexivity|].
  split; [vm_compute; reflexivity|].
  split; [vm_compute; reflexivity|].
  vm_compute. discriminate.
Qed.

(** Extra: let the first fragment be incomplete and, with the
    continuation fragments, hold no cache reference ([image=data:cache/]),
    which the append path would not resolve;
    let no continuation be a fresh start, let the buffer stay incomplete at
    every fragment boundary before the last and be complete after the last.
    Then [display_diagram] followed by the [append_diagram] calls loads
    exactly one document, the wrapped concatenation, and ends in the same
    chart, the same loaded documents and the same (empty) buffer as
    [display_diagram] of the concatenation. *)
Theorem assembler_matches_direct :
  forall ic wr va fe pa se (s : St) (id first : str) (conts : list str),
  includes Cache.cache_head (first ++ List.concat conts) = false ->
  ic first = false ->
  Forall (fun c => is_fresh_start c = false) conts ->
  (forall i, i < List.length conts ->
     ic (first ++ List.concat (firstn i conts)) = false) ->
  ic (first ++ List.concat conts) = true ->
  let x := first ++ List.concat conts in
  let assembled := run_calls ic wr va fe pa se s
                     (CallDisplay id first :: map (CallAppend id) conts) in
  let direct := handleDisplayDiagram ic wr va fe s id x in
  chart assembled = chart direct /\
  shown assembled = shown direct /\
  partial assembled = partial direct /\
  shown direct = shown s ++ [wr x] /\
  partial direct = [].
Proof.
  intros ic wr va fe pa se s id first conts Hn H0 Hf Hpre Hc x assembled direct.
  destruct (display_incomplete_effect ic wr va fe s id first
              (includes_app_l _ _ _ Hn) H0) as [D1 [D2 D3]].
  set (s1 := handleDisplayDiagram ic wr va fe s id first) in *.
  assert (Hs1 : assembled = run_calls ic wr va fe pa se s1 (map (CallAppend id) conts))
    by reflexivity.
  rewrite <- D3 in Hpre, Hc, H0.
  destruct (appends_assemble ic wr va fe pa se id conts s1 Hf H0 Hpre Hc) as [A1 [A2 A3]].
  rewrite D3 in Hc.
  destruct (display_complete_effect ic wr va fe s id x Hn Hc) as [B1 [B2 B3]].
  fold direct in B1, B2, B3.
  rewrite Hs1. cbv zeta in A1, A2, A3. rewrite D3 in A1, A2.
  rewrite A1, A2, A3, B1, B2, B3, D1, D2. auto.
Qed.

Lemma assembler_matches_direct_witness :
  includes Cache.cache_head (qlit "<cell id=`a`" ++ List.concat [qlit " vertex=`1` parent=`1`/>"]) = false /\
  Detector.isMxCellXmlComplete (qlit "<cell id=`a`") = false /\
  Forall (fun c => is_fresh_start c = false) [qlit " vertex=`1` parent=`1`/>"] /\
  shown (c4_assemble (qlit "<cell id=`a`") [qlit " vertex=`1` parent=`1`/>"])
    = shown (c4_direct (qlit "<cell id=`a` vertex=`1` parent=`1`/>")) /\
  chart (c4_assemble (qlit "<cell id=`a`") [qlit " vertex=`1` parent=`1`/>"])
    = wrap_spec (qlit "<cell id=`a` vertex=`1` parent=`1`/>").
Proof.
  assert (Hn : includes Cache.cache_head
            (qlit "<cell id=`a`" ++ List.concat [qlit " vertex=`1` parent=`1`/>"]) = false)
    by (vm_compute; reflexivity).
  assert (H0 : Detector.isMxCellXmlComplete (qlit "<cell id=`a`") = false)
    by (vm_compute; reflexivity).
  assert (Hf : Forall (fun c => is_fresh_start c = false) [qlit " vertex=`1` parent=`1`/>"])
    by (repeat constructor).
  assert (Hpre : forall i, i < List.length [qlit " vertex=`1` parent=`1`/>"] ->
            Detector.isMxCellXmlComplete
              (qlit "<cell id=`a`" ++ List.concat (firstn i [qlit " vertex=`1` parent=`1`/>"]))
            = false).
  { intros i Hi. destruct i as [|i]; [vm_compute; reflexivity|]. simpl in Hi. lia. }
  assert (Hc : Detector.isMxCellXmlComplete
            (qlit "<cell id=`a`" ++ List.concat [qlit " vertex=`1` parent=`1`/>"]) = true)
    by (vm_compute; reflexivity).
  destruct (assembler_matches_direct Detector.isMxCellXmlComplete wrap_spec
              (fun _ => None) (fun _ => None) (fun _ => []) (fun _ => []) c4_s0
              (lit "t") _ _ Hn H0 Hf Hpre Hc) as [E1 [E2 _]].
  split; [exact Hn|]. split; [exact H0|]. split; [exact Hf|].
  split.
  - unfold c4_assemble, c4_direct. rewrite E2. vm_compute. reflexivity.
  - unfold c4_assemble. rewrite E1. vm_compute. reflexivity.
Defined.

(** C4 (code bug): the first fragment is incomplete, the continuation is
    not a fresh start and holds a cache reference to a stored region, and
    the concatenation is complete. [display_diagram] of the concatenation
    inlines the region's payload, but the assembler loads the document with
    the reference left as it is: [handleAppendDiagram] wraps and displays
    the completed buffer without the cache resolution of
    [handleDisplayDiagram]. *)
Lemma assembler_skips_cache_resolution :
  Detector.isMxCellXmlComplete c4_first = false /\
  is_fresh_start c4_cont = false /\
  Detector.isMxCellXmlComplete (c4_first ++ c4_cont) = true /\
  shown (run_calls Detector.isMxCellXmlComplete wrap_spec (fun _ => None) c8_fetch
           (fun _ => []) (fun _ => []) c4_s0
           [CallDisplay (lit "t") c4_first; CallAppend (lit "t") c4_cont])
  = [wrap_spec (c4_first ++ c4_cont)] /\
  shown (handleDisplayDiagram Detector.isMxCellXmlComplete wrap_spec (fun _ => None) c8_fetch
           c4_s0 (lit "t") (c4_first ++ c4_cont))
  = [wrap_spec (qlit "<mxCell id=`a` style=`shape=image;image=data:image/png%3Bbase64,QUJD;` vertex=`1` parent=`1`/>")] /\
  includes (Cache.search_str (lit "k1") (lit "r1"))
    (chart (run_calls Detector.isMxCellXmlComplete wrap_spec (fun _ => None) c8_fetch
              (fun _ => []) (fun _ => []) c4_s0
              [CallDisplay (lit "t") c4_first; CallAppend (lit "t") c4_cont])) = true.
Proof. vm_compute. repeat split; reflexivity. Qed.

(** ** Resolution of a document with references *)

Lemma starts_with_nocross : forall p x y,
  x <> [] -> starts_with p (x ++ y) = true ->
  (forall c y', y = c :: y' -> ~ In c (tl p)) ->
  starts_with p x = true.
Proof.
  intros p x. revert p. induction x as [|a x IH]; intros p y Hx Hs Hy; [congruence|].
  destruct p as [|b p]; [reflexivity|].
  simpl in Hs. apply andb_true_iff in Hs. destruct Hs as [Hab Hs].
  simpl. rewrite Hab. simpl.
  destruct x as [|a' x].
  - simpl in Hs. destruct p as [|b' p]; [reflexivity|].
    destruct y as [|c y']; [discriminate|].
    simpl in Hs. apply andb_true_iff in Hs. destruct Hs as [Hc _].
    apply Ascii.eqb_eq in Hc. subst c. exfalso. apply (Hy b' y' eq_refl). left. reflexivity.
  - apply (IH p y); [discriminate|exact Hs|].
    intros c y' Hy' Hin. apply (Hy c y' Hy'). simpl.
    destruct p; [destruct Hin|]. right. exact Hin.
Qed.

Lemma find_first_skip : forall pat x y,
  (forall x1 x2, x = x1 ++ x2 -> x2 <> [] -> starts_with pat (x2 ++ y) = false) ->
  Cache.find_first pat (x ++ y)
  = match Cache.find_first pat y with Some (a, b) => Some (x ++ a, b) | None => None end.
Proof.
  intros pat x y. induction x as [|c x IH]; intros H.
  - simpl. destruct (Cache.find_first pat y) as [[a b]|]; reflexivity.
  - assert (Hc := H [] (c :: x) eq_refl ltac:(discriminate)). simpl app in Hc.
    simpl. rewrite Hc. rewrite IH.
    + destruct (Cache.find_first pat y) as [[a b]|]; reflexivity.
    + intros x1 x2 Hx Hne. apply (H (c :: x1) x2); [rewrite Hx; reflexivity|exact Hne].
Qed.

Lemma js_replace_skip : forall pat rep x y,
  ~ In "$"%char rep ->
  (forall x1 x2, x = x1 ++ x2 -> x2 <> [] -> starts_with pat (x2 ++ y) = false) ->
  Cache.js_replace (x ++ y) pat rep = x ++ Cache.js_replace y pat rep.
Proof.
  intros pat rep x y Hd H. unfold Cache.js_replace. rewrite find_first_skip by exact H.
  destruct (Cache.find_first pat y) as [[a b]|]; [|reflexivity].
  rewrite !expand_no_dollar by exact Hd. rewrite <- !app_assoc. reflexivity.
Qed.

Lemma includes_suffix : forall p s s1 s2,
  includes p s = false -> s = s1 ++ s2 -> starts_with p s2 = false.
Proof.
  intros p s s1. revert s. induction s1 as [|c s1 IH]; intros s s2 H Hs; subst s.
  - destruct s2 as [|c s2]; simpl in H.
    + apply orb_false_iff in H. exact (proj1 H).
    + apply orb_false_iff in H. exact (proj1 H).
  - simpl in H. apply orb_false_iff in H. apply (IH (s1 ++ s2)); [exact (proj2 H)|reflexivity].
Qed.

Lemma includes_cons : forall p c s,
  includes p (c :: s) = starts_with p (c :: s) || includes p s.
Proof. reflexivity. Qed.

Lemma includes_skip_head : forall h p x y,
  ~ In h x -> includes (h :: p) (x ++ y) = includes (h :: p) y.
Proof.
  intros h p x y. induction x as [|c x IH]; intros Hx; [reflexivity|].
  simpl app. rewrite includes_cons.
  assert (Hc : starts_with (h :: p) (c :: x ++ y) = false).
  { simpl. destruct (Ascii.eqb h c) eqn:E; [|reflexivity].
    apply Ascii.eqb_eq in E. subst. exfalso. apply Hx. left. reflexivity. }
  rewrite Hc. simpl. apply IH. intros Hin. apply Hx. right. exact Hin.
Qed.

Lemma starts_with_In : forall p s c, starts_with p s = true -> In c p -> In c s.
Proof.
  induction p as [|a p IH]; intros s c H Hin; [destruct Hin|].
  destruct s as [|b s]; simpl in H; [discriminate|].
  apply andb_true_iff in H. destruct H as [Hab H]. apply Ascii.eqb_eq in Hab. subst b.
  destruct Hin as [<-|Hin]; [left; reflexivity|right; exact (IH s c H Hin)].
Qed.

Lemma includes_missing_char : forall p s c,
  In c p -> ~ In c s -> includes p s = false.
Proof.
  intros p s c Hp. induction s as [|a s IH]; intros Hs.
  - destruct p as [|x p]; [destruct Hp|reflexivity].
  - rewrite includes_cons. apply orb_false_iff. split.
    + destruct (starts_with p (a :: s)) eqn:E; [|reflexivity].
      exfalso. exact (Hs (starts_with_In p _ c E Hp)).
    + apply IH. intros Hin. apply Hs. right. exact Hin.
Qed.

Lemma starts_with_app_inv : forall a b s, starts_with (a ++ b) s = true -> starts_with a s = true.
Proof.
  induction a as [|x a IH]; intros b s H; [reflexivity|].
  destruct s as [|y s]; simpl in *; [discriminate|].
  apply andb_true_iff in H. destruct H as [H1 H2]. rewrite H1. simpl. exact (IH b s H2).
Qed.

Lemma starts_with_cancel : forall a b s,
  starts_with (a ++ b) (a ++ s) = starts_with b s.
Proof.
  induction a as [|x a IH]; intros b s; [reflexivity|].
  simpl. rewrite Ascii.eqb_refl. exact (IH b s).
Qed.

Lemma take_run_stop : forall p a c y,
  forallb p a = true -> p c = false -> Cache.take_run p (a ++ c :: y) = (a, c :: y).
Proof.
  intros p a c y. induction a as [|x a IH]; intros Ha Hc.
  - simpl. rewrite Hc. reflexivity.
  - simpl in Ha. apply andb_true_iff in Ha. destruct Ha as [Hx Ha].
    simpl. rewrite Hx, (IH Ha Hc). reflexivity.
Qed.

Lemma take_run_split : forall p s a b, Cache.take_run p s = (a, b) -> s = a ++ b.
Proof.
  intros p s. induction s as [|c s IH]; intros a b H; simpl in H.
  - inversion H. reflexivity.
  - destruct (p c).
    + destruct (Cache.take_run p s) as [a' b'] eqn:E. inversion H; subst.
      simpl. f_equal. apply IH. reflexivity.
    + inversion H. reflexivity.
Qed.

Lemma ident_char_props : forall c, ident_char c = true ->
  Cache.region_char c && Cache.key_char c && negb (Ascii.eqb c "=")
  && negb (Ascii.eqb c "/") = true.
Proof.
  intros c H. revert H.
  destruct c as [[|] [|] [|] [|] [|] [|] [|] [|]]; vm_compute;
    first [intros; reflexivity | intros H; discriminate H].
Qed.

Lemma b64_char_colon : forall c, b64_char c = true -> Ascii.eqb c ":" = false.
Proof.
  intros c H. revert H.
  destruct c as [[|] [|] [|] [|] [|] [|] [|] [|]]; vm_compute;
    first [intros; reflexivity | intros H; discriminate H].
Qed.

Lemma ident_In : forall s c, ident s = true -> In c s ->
  Cache.region_char c = true /\ Cache.key_char c = true /\ c <> "="%char /\ c <> "/"%char.
Proof.
  intros s c Hs Hin. destruct s as [|x s]; [discriminate|].
  unfold ident in Hs. rewrite forallb_forall in Hs. specialize (Hs c Hin).
  apply ident_char_props in Hs.
  apply andb_true_iff in Hs. destruct Hs as [Hs H4].
  apply andb_true_iff in Hs. destruct Hs as [Hs H3].
  apply andb_true_iff in Hs. destruct Hs as [H1 H2].
  apply negb_true_iff in H3, H4.
  split; [exact H1|]. split; [exact H2|].
  split; intros E; subst c; [rewrite Ascii.eqb_refl in H3|rewrite Ascii.eqb_refl in H4];
    discriminate.
Qed.

Lemma cache_head_region_chars : forall c, In c Cache.cache_head -> Cache.region_char c = true.
Proof.
  intros c Hin. assert (H : forallb Cache.region_char Cache.cache_head = true) by reflexivity.
  rewrite forallb_forall in H. exact (H c Hin).
Qed.

Lemma cache_head_tail_no_i : ~ In "i"%char (tl Cache.cache_head).
Proof. simpl. intuition discriminate. Qed.

Lemma hd_ok_terminator : forall c y, Cache.region_char c = false -> hd_ok (c :: y).
Proof.
  intros c y Hc c' y' E Hin. inversion E; subst c' y'.
  assert (Hr := cache_head_region_chars c (in_cons _ _ _ Hin)). congruence.
Qed.

Lemma hd_ok_nil : hd_ok [].
Proof. intros c y' E. discriminate. Qed.

Lemma seg_text_head : forall g, exists rest, seg_text g = "i"%char :: rest.
Proof. intros [k r|p]; eexists; reflexivity. Qed.

Lemma hd_ok_seg : forall g y, hd_ok (seg_text g ++ y).
Proof.
  intros g y c y' E. destruct (seg_text_head g) as [rest Hr]. rewrite Hr in E.
  inversion E; subst c. exact cache_head_tail_no_i.
Qed.

Lemma no_head_cross : forall x x1 x2 y,
  includes Cache.cache_head x = false -> x = x1 ++ x2 -> x2 <> [] -> hd_ok y ->
  starts_with Cache.cache_head (x2 ++ y) = false.
Proof.
  intros x x1 x2 y Hx E Hne Hy.
  destruct (starts_with Cache.cache_head (x2 ++ y)) eqn:Es; [|reflexivity].
  apply starts_with_nocross in Es; [|exact Hne|exact Hy].
  rewrite (includes_suffix _ _ _ _ Hx E) in Es. discriminate.
Qed.

Lemma encode_semis_png : forall p, png_data_url p ->
  exists b, Cache.encode_semis p = lit "data:image/png%3Bbase64," ++ b
            /\ forallb b64_char b = true.
Proof.
  intros p [b [-> Hb]]. exists b. split; [|exact Hb].
  rewrite encode_semis_app, (encode_semis_b64 b Hb). reflexivity.
Qed.

Lemma b64_no_colon : forall b, forallb b64_char b = true -> ~ In ":"%char b.
Proof.
  intros b Hb Hin. rewrite forallb_forall in Hb. specialize (Hb _ Hin).
  apply b64_char_colon in Hb. rewrite Ascii.eqb_refl in Hb. discriminate.
Qed.

Lemma seg_tail_clean : forall g, seg_ok g -> includes Cache.cache_head (tl (seg_text g)) = false.
Proof.
  intros [k r|p] Hg.
  - destruct Hg as [Hk [Hr _]].
    change (tl (seg_text (Ref k r))) with (lit "mage=data:cache/" ++ (k ++ ["/"%char] ++ r)).
    change Cache.cache_head with ("i"%char :: lit "mage=data:cache/").
    rewrite includes_skip_head by (simpl; intuition discriminate).
    apply (includes_missing_char _ _ "="%char); [simpl; tauto|].
    intros Hin. apply in_app_or in Hin. destruct Hin as [Hin|Hin].
    + exact (proj1 (proj2 (proj2 (ident_In k _ Hk Hin))) eq_refl).
    + destruct Hin as [Hin|Hin]; [discriminate|].
      exact (proj1 (proj2 (proj2 (ident_In r _ Hr Hin))) eq_refl).
  - destruct (encode_semis_png p Hg) as [b [Hb Hbb]].
    change (seg_text (Rep p)) with (lit "image=" ++ Cache.encode_semis p). rewrite Hb.
    change (tl (lit "image=" ++ lit "data:image/png%3Bbase64," ++ b))
      with (lit "mage=data:" ++ ("i"%char :: lit "mage/png%3Bbase64," ++ b)).
    change Cache.cache_head with ("i"%char :: lit "mage=data:cache/").
    rewrite includes_skip_head by (simpl; intuition discriminate).
    rewrite includes_cons. apply orb_false_iff. split; [reflexivity|].
    change (lit "mage/png%3Bbase64," ++ b) with (lit "mage/png%3Bbase64," ++ b).
    rewrite includes_skip_head by (simpl; intuition discriminate).
    apply (includes_missing_char _ _ ":"%char); [simpl; tauto|].
    exact (b64_no_colon b Hbb).
Qed.

Lemma doc_text_cons : forall t0 g t rest,
  doc_text t0 ((g, t) :: rest) = t0 ++ seg_text g ++ doc_text t rest.
Proof. intros. unfold doc_text. simpl. rewrite <- !app_assoc. reflexivity. Qed.

Lemma doc_text_nil : forall t0, doc_text t0 [] = t0.
Proof. intros. unfold doc_text. simpl. apply app_nil_r. Qed.

Lemma hd_ok_doc : forall t rest, tail_ok t -> hd_ok (doc_text t rest).
Proof.
  intros t rest [_ [c [t' [-> Hc]]]]. unfold doc_text. simpl. apply hd_ok_terminator. exact Hc.
Qed.

Lemma starts_with_refl_app : forall p y, starts_with p (p ++ y) = true.
Proof. induction p as [|c p IH]; intros y; [reflexivity|]. simpl. rewrite Ascii.eqb_refl. apply IH. Qed.

Lemma search_starts_head : forall k r s,
  starts_with (Cache.search_str k r) s = true -> starts_with Cache.cache_head s = true.
Proof. intros k r s H. unfold Cache.search_str in H. exact (starts_with_app_inv _ _ _ H). Qed.

Lemma key_split : forall k k' u v,
  (forall c, In c k -> c <> "/"%char) -> (forall c, In c k' -> c <> "/"%char) ->
  starts_with (k ++ "/"%char :: u) (k' ++ "/"%char :: v) = true ->
  k = k' /\ starts_with u v = true.
Proof.
  induction k as [|a k IH]; intros k' u v Hk Hk' H; destruct k' as [|b k'].
  - cbn [starts_with app] in H. try rewrite Ascii.eqb_refl in H. split; [reflexivity|exact H].
  - cbn [starts_with app] in H. apply andb_true_iff in H. destruct H as [H _]. apply Ascii.eqb_eq in H.
    exfalso. apply (Hk' b); [left; reflexivity|symmetry; exact H].
  - cbn [starts_with app] in H. apply andb_true_iff in H. destruct H as [H _]. apply Ascii.eqb_eq in H.
    exfalso. apply (Hk a); [left; reflexivity|exact H].
  - cbn [starts_with app] in H. apply andb_true_iff in H. destruct H as [Hab H]. apply Ascii.eqb_eq in Hab.
    subst b. destruct (IH k' u v) as [-> Huv].
    + intros c Hc. apply Hk. right. exact Hc.
    + intros c Hc. apply Hk'. right. exact Hc.
    + exact H.
    + split; [reflexivity|exact Huv].
Qed.

Lemma seg_match : forall k r g t rest,
  ident k = true -> ident r = true -> seg_ok g -> tail_ok t ->
  starts_with (Cache.search_str k r) (seg_text g ++ doc_text t rest) = true ->
  exists r', g = Ref k r' /\ starts_with r r' = true.
Proof.
  intros k r [k' r'|p] t rest Hk Hr Hg Ht H.
  - destruct Hg as [Hk' [Hr' _]]. exists r'.
    unfold seg_text, Cache.search_str in H.
    rewrite <- app_assoc, starts_with_cancel in H.
    simpl in H. rewrite <- app_assoc in H. simpl in H.
    destruct (key_split k k' r (r' ++ doc_text t rest)) as [-> Hrr].
    + intros c Hc. exact (proj2 (proj2 (proj2 (ident_In k c Hk Hc)))).
    + intros c Hc. exact (proj2 (proj2 (proj2 (ident_In k' c Hk' Hc)))).
    + exact H.
    + split; [reflexivity|].
      apply (starts_with_nocross r r' (doc_text t rest)); [destruct r'; discriminate|exact Hrr|].
      destruct Ht as [_ [c [t' [-> Hc]]]]. intros c0 y' E Hin. unfold doc_text in E.
      simpl in E. inversion E; subst c0.
      destruct r as [|x r]; [destruct Hin|].
      destruct (ident_In (x :: r) c Hr (in_cons _ _ _ Hin)) as [Hrc _]. congruence.
  - exfalso. apply search_starts_head in H.
    destruct (encode_semis_png p Hg) as [b [Hb _]].
    change (seg_text (Rep p)) with (lit "image=" ++ Cache.encode_semis p) in H.
    rewrite Hb in H. simpl in H. discriminate.
Qed.

Lemma match_at_ref : forall k r y,
  ident k = true -> ident r = true ->
  (exists c y', y = c :: y' /\ Cache.region_char c = false) ->
  Cache.match_at (Cache.search_str k r ++ y) = Some (k, r, y).
Proof.
  intros k r y Hk Hr [c [y' [-> Hc]]]. unfold Cache.match_at, Cache.search_str.
  rewrite <- !app_assoc. rewrite starts_with_refl_app.
  change (skipn 17 (Cache.cache_head ++ k ++ ["/"%char] ++ r ++ c :: y'))
    with (k ++ ["/"%char] ++ r ++ c :: y').
  simpl app at 2.
  rewrite take_run_stop; [| |reflexivity].
  - rewrite take_run_stop; [| |exact Hc].
    + destruct k as [|x k]; [discriminate|]. destruct r as [|z r]; [discriminate|]. reflexivity.
    + apply forallb_forall. intros x Hx. exact (proj1 (ident_In r x Hr Hx)).
  - apply forallb_forall. intros x Hx. exact (proj1 (proj2 (ident_In k x Hk Hx))).
Qed.

Lemma match_at_shorter : forall s k r rest,
  Cache.match_at s = Some (k, r, rest) -> List.length rest < List.length s.
Proof.
  intros s k r rest H. unfold Cache.match_at in H.
  destruct (starts_with Cache.cache_head s); [|discriminate].
  destruct (Cache.take_run Cache.key_char (skipn 17 s)) as [k0 s1] eqn:E1.
  destruct k0 as [|x k0]; [discriminate|]. destruct s1 as [|y s2]; [discriminate|].
  destruct (Cache.take_run Cache.region_char s2) as [r0 s3] eqn:E2.
  destruct r0 as [|z r0]; [discriminate|]. inversion H; subst.
  apply take_run_split in E1. apply take_run_split in E2.
  assert (Hl : List.length (skipn 17 s) <= List.length s) by (rewrite length_skipn; lia).
  rewrite E1, E2 in Hl. rewrite ?length_app in Hl. simpl in Hl. rewrite ?length_app in Hl. lia.
Qed.

Lemma match_all_fuel_indep : forall f g s,
  List.length s < f -> List.length s < g ->
  Cache.match_all_fuel f s = Cache.match_all_fuel g s.
Proof.
  induction f as [|f IH]; intros g s Hf Hg; [lia|]. destruct g as [|g]; [lia|].
  destruct s as [|c s]; [reflexivity|]. simpl.
  destruct (Cache.match_at (c :: s)) as [[[k r] rest]|] eqn:E.
  - apply match_at_shorter in E. simpl in *. f_equal. apply IH; lia.
  - simpl in *. apply IH; lia.
Qed.

Lemma match_all_cons : forall c s,
  Cache.match_all (c :: s)
  = match Cache.match_at (c :: s) with
    | Some (k, r, rest) => (k, r) :: Cache.match_all rest
    | None => Cache.match_all s
    end.
Proof.
  intros c s. unfold Cache.match_all at 1.
  change (Cache.match_all_fuel (S (List.length (c :: s))) (c :: s))
    with (match Cache.match_at (c :: s) with
          | Some (k, r, rest) => (k, r) :: Cache.match_all_fuel (List.length (c :: s)) rest
          | None => Cache.match_all_fuel (List.length (c :: s)) s
          end).
  destruct (Cache.match_at (c :: s)) as [[[k r] rest]|] eqn:E.
  - apply match_at_shorter in E. f_equal. unfold Cache.match_all.
    apply match_all_fuel_indep; lia.
  - unfold Cache.match_all. apply match_all_fuel_indep; simpl; lia.
Qed.

Lemma match_all_skip : forall x y,
  (forall x1 x2, x = x1 ++ x2 -> x2 <> [] ->
     starts_with Cache.cache_head (x2 ++ y) = false) ->
  Cache.match_all (x ++ y) = Cache.match_all y.
Proof.
  induction x as [|c x IH]; intros y H; [reflexivity|].
  simpl app. rewrite match_all_cons.
  assert (Hc := H [] (c :: x) eq_refl ltac:(discriminate)). simpl app in Hc.
  unfold Cache.match_at at 1. rewrite Hc.
  apply IH. intros x1 x2 E Hne. apply (H (c :: x1) x2); [rewrite E; reflexivity|exact Hne].
Qed.

Lemma doc_ok_cons : forall t0 g t rest,
  doc_ok t0 ((g, t) :: rest) -> sep_ok t0 /\ seg_ok g /\ tail_ok t /\ doc_ok t rest.
Proof.
  intros t0 g t rest [H0 Hf]. inversion Hf as [|? ? [Hg Ht] Hr]; subst.
  split; [exact H0|]. split; [exact Hg|]. split; [exact Ht|]. split; [exact (proj1 Ht)|exact Hr].
Qed.

(** Inside a piece no [image=data:cache/] starts, not even one running
    into the text that follows it. *)
Lemma seg_interior : forall g x1 x2 y,
  seg_ok g -> seg_text g = x1 ++ x2 -> x1 <> [] -> x2 <> [] -> hd_ok y ->
  starts_with Cache.cache_head (x2 ++ y) = false.
Proof.
  intros g x1 x2 y Hg E H1 H2 Hy. destruct x1 as [|a x1]; [congruence|].
  apply (no_head_cross (tl (seg_text g)) x1); [exact (seg_tail_clean g Hg)| |exact H2|exact Hy].
  rewrite E. reflexivity.
Qed.

Lemma rep_not_head : forall p y, png_data_url p ->
  starts_with Cache.cache_head (seg_text (Rep p) ++ y) = false.
Proof.
  intros p y Hp. destruct (encode_semis_png p Hp) as [b [Hb _]].
  change (seg_text (Rep p)) with (lit "image=" ++ Cache.encode_semis p).
  rewrite Hb. reflexivity.
Qed.

Lemma match_all_doc : forall segs t0,
  doc_ok t0 segs -> Cache.match_all (doc_text t0 segs) = refs_of segs.
Proof.
  induction segs as [|[g t] rest IH]; intros t0 Hd.
  - rewrite doc_text_nil. rewrite <- (app_nil_r t0). rewrite match_all_skip; [reflexivity|].
    intros x1 x2 E Hne.
    apply (no_head_cross t0 x1); [exact (proj1 Hd)|exact E|exact Hne|exact hd_ok_nil].
  - destruct (doc_ok_cons _ _ _ _ Hd) as [H0 [Hg [Ht Hr]]].
    rewrite doc_text_cons. rewrite match_all_skip.
    2: { intros x1 x2 E Hne. apply (no_head_cross t0 x1 x2); auto. apply hd_ok_seg. }
    destruct g as [k r|p].
    + destruct Hg as [Hk [Hrr _]].
      destruct (seg_text_head (Ref k r)) as [st Hst].
      rewrite Hst, <- app_comm_cons, match_all_cons, app_comm_cons, <- Hst.
      change (seg_text (Ref k r)) with (Cache.search_str k r).
      rewrite match_at_ref; [|exact Hk|exact Hrr|].
      * simpl. f_equal. apply IH. exact Hr.
      * destruct Ht as [_ [c [t' [-> Hc]]]]. exists c. eexists. split; [reflexivity|exact Hc].
    + rewrite match_all_skip; [apply IH; exact Hr|].
      intros x1 x2 E Hne. destruct x1 as [|a x1].
      * simpl in E. subst x2. apply rep_not_head. exact Hg.
      * apply (seg_interior (Rep p) (a :: x1) x2); auto; [discriminate|apply hd_ok_doc; exact Ht].
Qed.

Lemma search_false_of_head : forall k r s,
  starts_with Cache.cache_head s = false -> starts_with (Cache.search_str k r) s = false.
Proof.
  intros k r s H. destruct (starts_with (Cache.search_str k r) s) eqn:E; [|reflexivity].
  rewrite (search_starts_head k r s E) in H. discriminate.
Qed.

Lemma find_first_here : forall pat s,
  starts_with pat s = true -> Cache.find_first pat s = Some ([], skipn (List.length pat) s).
Proof. intros pat [|c s] H; simpl; rewrite H; reflexivity. Qed.

Lemma skipn_length_app : forall (a b : str), skipn (List.length a) (a ++ b) = b.
Proof. induction a as [|c a IH]; intros b; [reflexivity|]. simpl. apply IH. Qed.

Lemma no_prefix_incl : forall segs segs',
  incl (refs_of segs') (refs_of segs) -> no_prefix segs -> no_prefix segs'.
Proof. intros segs segs' Hi H k r r' H1 H2 Hs. exact (H k r r' (Hi _ H1) (Hi _ H2) Hs). Qed.

Lemma refs_of_app : forall A B, refs_of (A ++ B) = refs_of A ++ refs_of B.
Proof. intros A B. unfold refs_of. apply flat_map_app. Qed.

Lemma refs_of_cons_incl : forall gt l, incl (refs_of l) (refs_of (gt :: l)).
Proof. intros [g t] l x Hx. destruct g; simpl; [right|]; exact Hx. Qed.

Lemma js_replace_doc : forall A t0 k r p t B,
  doc_ok t0 (A ++ (Ref k r, t) :: B) -> no_prefix (A ++ (Ref k r, t) :: B) ->
  ~ In (k, r) (refs_of A) -> png_data_url p ->
  Cache.js_replace (doc_text t0 (A ++ (Ref k r, t) :: B)) (Cache.search_str k r)
    (lit "image=" ++ Cache.encode_semis p)
  = doc_text t0 (A ++ (Rep p, t) :: B).
Proof.
  induction A as [|[g t1] A IH]; intros t0 k r p t B Hd Hn HA Hp.
  - simpl app in *. rewrite !doc_text_cons.
    destruct (doc_ok_cons _ _ _ _ Hd) as [H0 [Hg [Ht Hr]]].
    rewrite js_replace_skip; [f_equal| |].
    + unfold Cache.js_replace. change (seg_text (Ref k r)) with (Cache.search_str k r).
      rewrite find_first_here by apply starts_with_refl_app.
      rewrite skipn_length_app, expand_no_dollar by exact (png_payload_rep_no_dollar p Hp).
      reflexivity.
    + exact (png_payload_rep_no_dollar p Hp).
    + intros x1 x2 E Hne. apply search_false_of_head.
      apply (no_head_cross t0 x1); auto. apply hd_ok_seg.
  - simpl app. rewrite !doc_text_cons.
    destruct (doc_ok_cons _ _ _ _ Hd) as [H0 [Hg [Ht Hr]]].
    destruct (doc_ok_cons _ _ _ _ Hd) as [_ [Hgg [_ _]]].
    assert (Hkr : ident k = true /\ ident r = true).
    { destruct Hr as [_ Hf]. rewrite Forall_app in Hf. destruct Hf as [_ Hf].
      inversion Hf as [|? ? Hx _]; subst. destruct Hx as [Hx _]. simpl in Hx.
      destruct Hx as [Hk [Hrr _]]. split; assumption. }
    rewrite js_replace_skip; [f_equal| |].
    + rewrite js_replace_skip; [f_equal| |].
      * apply IH.
        -- exact Hr.
        -- apply (no_prefix_incl _ _ (refs_of_cons_incl _ _)) in Hn. exact Hn.
        -- intros Hin. apply HA. apply refs_of_cons_incl. exact Hin.
        -- exact Hp.
      * exact (png_payload_rep_no_dollar p Hp).
      * intros x1 x2 E Hne. destruct x1 as [|a x1].
        -- simpl in E. subst x2.
           destruct (starts_with (Cache.search_str k r) (seg_text g ++ doc_text t1 (A ++ (Ref k r, t) :: B))) eqn:Es; [|reflexivity].
           destruct (seg_match k r g t1 _ (proj1 Hkr) (proj2 Hkr) Hg Ht Es) as [r' [-> Hrr']].
           exfalso. apply HA. assert (Hrr : r = r').
           { apply (Hn k r r'); [|simpl; left; reflexivity|exact Hrr'].
             rewrite refs_of_app. apply in_or_app. right. simpl. left. reflexivity. }
           subst r'. simpl. left. reflexivity.
        -- apply search_false_of_head.
           apply (seg_interior g (a :: x1) x2); auto; [discriminate|apply hd_ok_doc; exact Ht].
    + exact (png_payload_rep_no_dollar p Hp).
    + intros x1 x2 E Hne. apply search_false_of_head.
      apply (no_head_cross t0 x1); auto. apply hd_ok_seg.
Qed.

Lemma res_k_no_refs : forall k regions B,
  refs_k k (refs_of B) = [] -> map (res_k k regions) B = B.
Proof.
  intros k regions B. induction B as [|[g t] B IH]; intros H; [reflexivity|].
  destruct g as [k' r|p]; simpl in *.
  - unfold refs_k in H. simpl in H. destruct (str_eqb k' k) eqn:E; [discriminate|].
    unfold res_k. simpl. rewrite E. f_equal. apply IH. exact H.
  - unfold res_k at 1. simpl. f_equal. apply IH. exact H.
Qed.

Lemma split_first_ref : forall k r rest B,
  refs_k k (refs_of B) = (k, r) :: rest ->
  exists B1 t B2, B = B1 ++ (Ref k r, t) :: B2 /\ refs_k k (refs_of B1) = [] /\
                  refs_k k (refs_of B2) = rest.
Proof.
  intros k r rest B. induction B as [|[g t] B IH]; intros H; [discriminate|].
  destruct g as [k' r'|p].
  - unfold refs_k in H. simpl in H. destruct (str_eqb k' k) eqn:E.
    + inversion H; subst.
      exists [], t, B. split; [reflexivity|]. split; reflexivity.
    + destruct (IH H) as [B1 [t1 [B2 [-> [H1 H2]]]]].
      exists ((Ref k' r', t) :: B1), t1, B2. split; [reflexivity|]. split; [|exact H2].
      unfold refs_k. simpl. rewrite E. exact H1.
  - destruct (IH H) as [B1 [t1 [B2 [-> [H1 H2]]]]].
    exists ((Rep p, t) :: B1), t1, B2. split; [reflexivity|]. split; [exact H1|exact H2].
Qed.

Lemma refs_k_nil_notin : forall k r B, refs_k k (refs_of B) = [] -> ~ In (k, r) (refs_of B).
Proof.
  intros k r B H Hin. assert (Hf : In (k, r) (refs_k k (refs_of B))).
  { unfold refs_k. apply filter_In. split; [exact Hin|]. simpl. apply str_eqb_refl. }
  rewrite H in Hf. destruct Hf.
Qed.

Lemma png_nonempty : ~ png_data_url [].
Proof. intros [b [H _]]. discriminate. Qed.

Lemma doc_ok_app : forall t0 A B,
  doc_ok t0 (A ++ B) <-> sep_ok t0 /\ Forall (fun gt => seg_ok (fst gt) /\ tail_ok (snd gt)) A
                          /\ Forall (fun gt => seg_ok (fst gt) /\ tail_ok (snd gt)) B.
Proof.
  intros t0 A B. unfold doc_ok. rewrite Forall_app. tauto.
Qed.

Lemma pass_gen : forall k regions t0 ms A B,
  doc_ok t0 (A ++ B) -> no_prefix (A ++ B) ->
  (forall n q, In (n, q) regions -> png_data_url q) ->
  (forall r, In (k, r) (refs_of A) -> Cache.assoc r regions = None) ->
  refs_k k ms = refs_k k (refs_of B) ->
  Cache.subst_matches k regions ms (doc_text t0 (A ++ B))
  = doc_text t0 (A ++ map (res_k k regions) B).
Proof.
  intros k regions t0 ms. induction ms as [|[k1 r1] ms IH]; intros A B Hd Hn Hreg HA Hms.
  - simpl. rewrite res_k_no_refs; [reflexivity|]. rewrite <- Hms. reflexivity.
  - simpl. destruct (str_eqb k1 k) eqn:E1.
    2: { apply IH; auto. unfold refs_k in Hms |- *. simpl in Hms. rewrite E1 in Hms. exact Hms. }
    apply str_eqb_eq in E1. subst k1.
    assert (Hms' : refs_k k (refs_of B) = (k, r1) :: refs_k k ms).
    { rewrite <- Hms. unfold refs_k. simpl. rewrite str_eqb_refl. reflexivity. }
    destruct (split_first_ref _ _ _ _ Hms') as [B1 [t [B2 [-> [HB1 HB2]]]]].
    apply doc_ok_app in Hd. destruct Hd as [H0 [HfA HfB]].
    apply Forall_app in HfB. destruct HfB as [HfB1 HfB2].
    inversion HfB2 as [|? ? [Hg Ht] HfB2']; subst. cbn [fst seg_ok] in Hg.
    destruct Hg as [Hk [Hr1 Hproto]].
    assert (HnA : ~ In (k, r1) (refs_of (A ++ B1)) -> True) by (intros; exact I).
    unfold Cache.obj_get. destruct (Cache.assoc r1 regions) as [p|] eqn:Ea.
    + assert (Hp : png_data_url p) by (apply (Hreg r1); apply assoc_In; exact Ea).
      destruct p as [|c p']; [exfalso; exact (png_nonempty Hp)|].
      assert (Hnot : ~ In (k, r1) (refs_of (A ++ B1))).
      { rewrite refs_of_app. intros Hin. apply in_app_or in Hin. destruct Hin as [Hin|Hin].
        - rewrite (HA r1 Hin) in Ea. discriminate.
        - exact (refs_k_nil_notin k r1 B1 HB1 Hin). }
      rewrite app_assoc.
      change ("i"%char :: "m"%char :: "a"%char :: "g"%char :: "e"%char :: "="%char
                :: Cache.encode_semis (c :: p'))
        with (lit "image=" ++ Cache.encode_semis (c :: p')).
      rewrite js_replace_doc.
      * rewrite <- app_assoc.
        replace (A ++ B1 ++ (Rep (c :: p'), t) :: B2)
          with ((A ++ B1 ++ [(Rep (c :: p'), t)]) ++ B2)
          by (rewrite <- !app_assoc; reflexivity).
        rewrite IH.
        -- rewrite map_app, (res_k_no_refs k regions B1 HB1). rewrite <- !app_assoc. simpl.
           unfold res_k at 2. simpl. rewrite str_eqb_refl, Ea. reflexivity.
        -- apply doc_ok_app. split; [exact H0|]. split; [|exact HfB2'].
           apply Forall_app. split; [exact HfA|]. apply Forall_app. split; [exact HfB1|].
           constructor; [|constructor]. split; [exact Hp|exact Ht].
        -- apply (no_prefix_incl (A ++ B1 ++ (Ref k r1, t) :: B2)); [|exact Hn].
           intros x Hx. rewrite !refs_of_app in Hx |- *. rewrite refs_of_app in Hx.
           change (refs_of ((Ref k r1, t) :: B2)) with ((k, r1) :: refs_of B2).
           change (refs_of [(Rep (c :: p'), t)]) with (@nil (str * str)) in Hx.
           rewrite app_nil_r in Hx. rewrite !in_app_iff in Hx |- *. simpl. tauto.
        -- exact Hreg.
        -- intros r Hin. rewrite !refs_of_app in Hin. simpl in Hin.
           rewrite !in_app_iff in Hin. destruct Hin as [Hin|[Hin|[]]].
           ++ exact (HA r Hin).
           ++ exfalso. exact (refs_k_nil_notin k r B1 HB1 Hin).
        -- symmetry; exact HB2.
      * rewrite <- app_assoc. apply doc_ok_app. split; [exact H0|]. split; [exact HfA|].
        apply Forall_app. split; [exact HfB1|exact HfB2].
      * rewrite <- app_assoc. exact Hn.
      * exact Hnot.
      * exact Hp.
    + rewrite Hproto.
      replace (A ++ B1 ++ (Ref k r1, t) :: B2)
        with ((A ++ B1 ++ [(Ref k r1, t)]) ++ B2) by (rewrite <- !app_assoc; reflexivity).
      rewrite IH.
      * rewrite map_app, (res_k_no_refs k regions B1 HB1). rewrite <- !app_assoc. simpl.
        unfold res_k at 2. simpl. rewrite str_eqb_refl, Ea. reflexivity.
      * rewrite <- !app_assoc. apply doc_ok_app. split; [exact H0|]. split; [exact HfA|].
        apply Forall_app. split; [exact HfB1|exact HfB2].
      * rewrite <- !app_assoc. exact Hn.
      * exact Hreg.
      * intros r Hin. rewrite !refs_of_app in Hin. simpl in Hin.
        rewrite !in_app_iff in Hin. destruct Hin as [Hin|[Hin|[Hin|[]]]].
        -- exact (HA r Hin).
        -- exfalso. exact (refs_k_nil_notin k r B1 HB1 Hin).
        -- inversion Hin; subst. exact Ea.
      * symmetry; exact HB2.
Qed.

Lemma resolve_seg_ok : forall fetch g, fetch_ok fetch -> seg_ok g -> seg_ok (resolve_seg fetch g).
Proof.
  intros fetch [k r|p] Hf Hg; [|exact Hg]. simpl.
  destruct (fetch k) as [regions|] eqn:E; [|exact Hg].
  destruct (Cache.assoc r regions) as [[|c p]|] eqn:Ea; try exact Hg.
  apply (Hf k regions E r). apply assoc_In. exact Ea.
Qed.

Lemma resolve_on_ok : forall fetch Kd t0 segs, fetch_ok fetch ->
  doc_ok t0 segs -> doc_ok t0 (map (resolve_on fetch Kd) segs).
Proof.
  intros fetch Kd t0 segs Hf [H0 Hs]. split; [exact H0|].
  apply Forall_map. eapply Forall_impl; [|exact Hs]. intros [g t] [Hg Ht].
  unfold resolve_on. simpl in *. split; [|exact Ht].
  destruct (key_in Kd g); [apply resolve_seg_ok; assumption|exact Hg].
Qed.

Lemma refs_resolve_seg : forall fetch g,
  incl (match resolve_seg fetch g with Ref k r => [(k, r)] | Rep _ => [] end)
       (match g with Ref k r => [(k, r)] | Rep _ => [] end).
Proof.
  intros fetch [k r|p]; simpl; [|apply incl_refl].
  destruct (fetch k) as [regions|]; [|apply incl_refl].
  destruct (Cache.assoc r regions) as [[|c p]|]; try apply incl_refl. intros x [].
Qed.

Lemma refs_resolve_on_incl : forall fetch Kd segs,
  incl (refs_of (map (resolve_on fetch Kd) segs)) (refs_of segs).
Proof.
  intros fetch Kd segs. induction segs as [|[g t] segs IH]; [apply incl_refl|].
  change (refs_of (map (resolve_on fetch Kd) ((g, t) :: segs)))
    with ((match fst (resolve_on fetch Kd (g, t)) with Ref k r => [(k, r)] | Rep _ => [] end)
          ++ refs_of (map (resolve_on fetch Kd) segs)).
  change (refs_of ((g, t) :: segs))
    with ((match g with Ref k r => [(k, r)] | Rep _ => [] end) ++ refs_of segs).
  apply incl_app_app; [|exact IH]. unfold resolve_on. simpl.
  destruct (key_in Kd g); [apply refs_resolve_seg|apply incl_refl].
Qed.

Lemma str_mem_app : forall x l1 l2, str_mem x (l1 ++ l2) = str_mem x l1 || str_mem x l2.
Proof. intros. unfold str_mem. apply existsb_app. Qed.

Lemma refs_k_resolve_on : forall fetch Kd k segs,
  ~ In k Kd ->
  refs_k k (refs_of (map (resolve_on fetch Kd) segs)) = refs_k k (refs_of segs).
Proof.
  intros fetch Kd k segs Hk. induction segs as [|[g t] segs IH]; [reflexivity|].
  unfold refs_k in *. simpl. rewrite !filter_app, IH. f_equal.
  unfold resolve_on. simpl. destruct g as [k' r|p]; simpl; [|reflexivity].
  destruct (str_mem k' Kd) eqn:Em; [|reflexivity].
  assert (Hne : str_eqb k' k = false).
  { destruct (str_eqb k' k) eqn:E; [|reflexivity]. apply str_eqb_eq in E. subst.
    apply str_mem_In in Em. contradiction. }
  simpl. rewrite Hne.
  destruct (fetch k') as [regions|]; simpl; [|rewrite Hne; reflexivity].
  destruct (Cache.assoc r regions) as [[|c p]|]; simpl; try rewrite Hne; reflexivity.
Qed.

Lemma res_k_resolve_on : forall fetch Kd k regions gt,
  ~ In k Kd -> fetch k = Some regions ->
  res_k k regions (resolve_on fetch Kd gt) = resolve_on fetch (Kd ++ [k]) gt.
Proof.
  intros fetch Kd k regions [[k' r|p] t] Hk Hf; [|reflexivity].
  unfold resolve_on, res_k. simpl. rewrite str_mem_app. simpl. rewrite orb_false_r.
  destruct (str_mem k' Kd) eqn:Em; simpl.
  - assert (Hne : str_eqb k' k = false).
    { destruct (str_eqb k' k) eqn:E; [|reflexivity]. apply str_eqb_eq in E. subst.
      apply str_mem_In in Em. contradiction. }
    destruct (fetch k') as [regs|]; simpl; [|rewrite Hne; reflexivity].
    destruct (Cache.assoc r regs) as [[|c p]|]; simpl; try rewrite Hne; reflexivity.
  - destruct (str_eqb k' k) eqn:E.
    + apply str_eqb_eq in E. subst k'. rewrite Hf. reflexivity.
    + reflexivity.
Qed.

Lemma resolve_on_none : forall fetch Kd k gt,
  fetch k = None -> resolve_on fetch Kd gt = resolve_on fetch (Kd ++ [k]) gt.
Proof.
  intros fetch Kd k [[k' r|p] t] Hf; [|reflexivity].
  unfold resolve_on. simpl. rewrite str_mem_app. simpl. rewrite orb_false_r.
  destruct (str_mem k' Kd); [reflexivity|].
  destruct (str_eqb k' k) eqn:E; [|reflexivity].
  apply str_eqb_eq in E. subst k'. simpl. rewrite Hf. reflexivity.
Qed.

Lemma fold_keys : forall fetch t0 segs ks Kd,
  fetch_ok fetch -> doc_ok t0 segs -> no_prefix segs ->
  NoDup ks -> (forall k, In k ks -> ~ In k Kd) ->
  fold_left (fun x key => match fetch key with
                          | Some regions => Cache.subst_matches key regions (refs_of segs) x
                          | None => x end)
            ks (doc_text t0 (map (resolve_on fetch Kd) segs))
  = doc_text t0 (map (resolve_on fetch (Kd ++ ks)) segs).
Proof.
  intros fetch t0 segs ks. induction ks as [|k ks IH]; intros Kd Hf Hd Hn Hnd Hdis.
  - simpl. rewrite app_nil_r. reflexivity.
  - inversion Hnd as [|? ? Hk Hnd']; subst. simpl.
    assert (HkKd : ~ In k Kd) by (apply Hdis; left; reflexivity).
    replace (Kd ++ k :: ks) with ((Kd ++ [k]) ++ ks) by (rewrite <- app_assoc; reflexivity).
    assert (Hstep : (match fetch k with
                     | Some regions => Cache.subst_matches k regions (refs_of segs)
                                         (doc_text t0 (map (resolve_on fetch Kd) segs))
                     | None => doc_text t0 (map (resolve_on fetch Kd) segs) end)
                    = doc_text t0 (map (resolve_on fetch (Kd ++ [k])) segs)).
    { destruct (fetch k) as [regions|] eqn:Ef.
      - change (map (resolve_on fetch Kd) segs) with ([] ++ map (resolve_on fetch Kd) segs).
        rewrite pass_gen.
        + simpl. rewrite map_map. f_equal. apply map_ext. intros gt.
          apply res_k_resolve_on; assumption.
        + apply resolve_on_ok; assumption.
        + apply (no_prefix_incl segs); [apply refs_resolve_on_incl|exact Hn].
        + exact (Hf k regions Ef).
        + intros r [].
        + symmetry. apply refs_k_resolve_on. exact HkKd.
      - f_equal. apply map_ext. intros gt. apply resolve_on_none. exact Ef. }
    rewrite Hstep. apply IH; auto.
    intros k0 Hk0 Hin. apply in_app_or in Hin. destruct Hin as [Hin|[Hin|[]]].
    + exact (Hdis k0 (or_intror Hk0) Hin).
    + subst k0. contradiction.
Qed.

Lemma dedup_acc_In : forall seen l x, In x (Cache.dedup_acc seen l) <-> In x l /\ ~ In x seen.
Proof.
  intros seen l. revert seen. induction l as [|y l IH]; intros seen x; simpl.
  - tauto.
  - destruct (str_mem y seen) eqn:E.
    + rewrite IH. apply str_mem_In in E. split.
      * intros [H1 H2]. tauto.
      * intros [[<-|H1] H2]; [contradiction|tauto].
    + simpl. rewrite IH. simpl. split.
      * intros [<-|[H1 H2]]; [split; [left; reflexivity|]|tauto].
        intros Hin. apply str_mem_In in Hin. congruence.
      * intros [[<-|H1] H2]; [left; reflexivity|].
        destruct (str_eqb y x) eqn:Exy.
        -- apply str_eqb_eq in Exy. left. exact Exy.
        -- right. split; [exact H1|]. intros [H3|H3]; [|contradiction].
           subst. rewrite str_eqb_refl in Exy. discriminate.
Qed.

Lemma dedup_acc_NoDup : forall seen l, NoDup (Cache.dedup_acc seen l).
Proof.
  intros seen l. revert seen. induction l as [|y l IH]; intros seen; simpl; [constructor|].
  destruct (str_mem y seen); [apply IH|].
  constructor; [|apply IH]. intros Hin. apply dedup_acc_In in Hin.
  destruct Hin as [_ H]. apply H. left. reflexivity.
Qed.

Lemma resolve_on_nil : forall fetch gt, resolve_on fetch [] gt = gt.
Proof. intros fetch [[k r|p] t]; reflexivity. Qed.

Lemma resolve_doc : forall fetch t0 segs,
  fetch_ok fetch -> doc_ok t0 segs -> no_prefix segs ->
  Cache.resolve fetch (doc_text t0 segs)
  = doc_text t0 (map (fun gt => (resolve_seg fetch (fst gt), snd gt)) segs).
Proof.
  intros fetch t0 segs Hf Hd Hn. unfold Cache.resolve.
  rewrite (match_all_doc segs t0 Hd).
  assert (Hm : doc_text t0 segs = doc_text t0 (map (resolve_on fetch []) segs)).
  { f_equal. rewrite <- (map_id segs) at 1. apply map_ext. intros gt.
    symmetry. apply resolve_on_nil. }
  rewrite Hm at 1.
  unfold Cache.dedup.
  rewrite fold_keys; [|exact Hf|exact Hd|exact Hn|apply dedup_acc_NoDup|intros k _ []].
  simpl. f_equal. apply map_ext_in. intros [g t] Hin. unfold resolve_on. simpl.
  destruct g as [k r|p]; [|reflexivity].
  assert (Hk : str_mem k (Cache.dedup_acc [] (map fst (refs_of segs))) = true).
  { apply str_mem_In. apply dedup_acc_In. split; [|intros []].
    apply in_map_iff. exists (k, r). split; [reflexivity|].
    unfold refs_of. apply in_flat_map. exists (Ref k r, t). split; [exact Hin|left; reflexivity]. }
  change (key_in (Cache.dedup_acc [] (map fst (refs_of segs))) (Ref k r)) with
    (str_mem k (Cache.dedup_acc [] (map fst (refs_of segs)))).
  rewrite Hk. reflexivity.
Qed.

(** Extra: let the document consist of text around cache
    references, where the text holds no [image=data:cache/], each
    reference is followed by [;], the double quote or white space, keys and
    region names are made of letters, digits, [_] and [-], no region name is
    a proper prefix of another one under the same key and none is a member
    of [Object.prototype]; let every fetched payload be a PNG data URL.
    Resolution then inlines each reference whose key is fetched and whose
    region is stored, as [image=] and the payload, and leaves every other
    reference in place, verbatim; no reference makes the document fail.
    A complete resolved document is displayed like any other: one document
    is loaded and the one tool output is [DisplayOk] or the validation
    error, with no list of unresolved references. *)
Theorem region_resolution_keeps_unresolved :
  forall ic wr va fetch (s : St) (id t0 : str) (segs : list (seg * str)),
  fetch_ok fetch -> doc_ok t0 segs -> no_prefix segs ->
  let x := doc_text t0 (map (fun gt => (resolve_seg fetch (fst gt), snd gt)) segs) in
  Cache.resolve fetch (doc_text t0 segs) = x /\
  (ic x = true ->
   shown (handleDisplayDiagram ic wr va fetch s id (doc_text t0 segs)) = shown s ++ [wr x] /\
   outs (handleDisplayDiagram ic wr va fetch s id (doc_text t0 segs))
   = outs s ++ [mkOut (lit "display_diagram") id
                  (match va (wr x) with Some e => DisplayInvalid e x | None => DisplayOk end)]).
Proof.
  intros ic wr va fetch s id t0 segs Hf Hd Hn x.
  assert (Hr : Cache.resolve fetch (doc_text t0 segs) = x) by (apply resolve_doc; assumption).
  split; [exact Hr|]. intros Hc.
  unfold handleDisplayDiagram. rewrite Hr, Hc. simpl. unfold onDisplayChart.
  destruct (va (wr x)); simpl; split; reflexivity.
Qed.

Lemma region_resolution_keeps_unresolved_witness :
  fetch_ok c8_fetch /\ doc_ok c8_t0 c8_segs /\ no_prefix c8_segs /\
  Cache.resolve c8_fetch c8_xml
  = doc_text c8_t0 [(Rep c8_payload, qlit ";` vertex=`1` parent=`1`/><mxCell id=`b` style=`shape=image;");
                    (Ref (lit "k1") (lit "r2"), qlit ";` vertex=`1` parent=`1`/>")].
Proof.
  assert (Hf : fetch_ok c8_fetch).
  { intros k regions Hk name q Hin. unfold c8_fetch in Hk.
    destruct (str_eqb k (lit "k1")); [|discriminate].
    inversion Hk; subst regions. destruct Hin as [Hin|[]]. inversion Hin; subst q.
    exists (lit "QUJD"). split; reflexivity. }
  assert (Hd : doc_ok c8_t0 c8_segs).
  { split; [reflexivity|].
    repeat constructor; try reflexivity;
      eexists; eexists; split; reflexivity. }
  assert (Hn : no_prefix c8_segs).
  { intros k r r' H1 H2 Hs. simpl in H1, H2.
    destruct H1 as [E1|[E1|[]]]; destruct H2 as [E2|[E2|[]]];
      inversion E1; inversion E2; subst; try reflexivity; discriminate Hs. }
  split; [exact Hf|]. split; [exact Hd|]. split; [exact Hn|].
  exact (proj1 (region_resolution_keeps_unresolved Detector.isMxCellXmlComplete wrap_spec
                  (fun _ => None) c8_fetch (mkSt [] [] [] [] []) (lit "t") c8_t0 c8_segs
                  Hf Hd Hn)).
Defined.

(** C8 (code bug): resolution does not substitute every stored reference
    and keep every other one verbatim. The search string given to
    [String.replace] is the reference text without its terminator and only
    its first occurrence is replaced: when an unstored region name [ab]
    extends a stored one [a] under the same key, the [ab] reference is the
    one rewritten, into a payload followed by a stray [b], and the [a]
    reference stays unresolved. A first reference to a region named after
    a member of [Object.prototype] ([constructor]) makes [replace] throw,
    and the stored region [r1] of the same key stays unresolved. The
    display of the spec's example answers only [DisplayOk], with no list of
    unresolved references. *)
Lemma region_resolution_slips :
  Cache.resolve
    (fun k => if str_eqb k (lit "k1") then Some [(lit "a", c8_payload)] else None)
    (qlit "<c style=`image=data:cache/k1/ab;`/><c style=`image=data:cache/k1/a;`/>")
  = qlit "<c style=`image=data:image/png%3Bbase64,QUJDb;`/><c style=`image=data:cache/k1/a;`/>" /\
  c8_fetch (lit "k1") = Some [(lit "r1", c8_payload)] /\
  Cache.resolve c8_fetch
    (qlit "<a style=`image=data:cache/k1/constructor;`/><b style=`image=data:cache/k1/r1;`/>")
  = qlit "<a style=`image=data:cache/k1/constructor;`/><b style=`image=data:cache/k1/r1;`/>" /\
  outs c8_display = [mkOut (lit "display_diagram") (lit "t") DisplayOk] /\
  includes (Cache.search_str (lit "k1") (lit "r2")) (chart c8_display) = true.
Proof. vm_compute. repeat split; reflexivity. Qed.

(** ** The extract-regions route *)

(** Extra: when the image is at least one pixel wide and high, the crop
    rectangle passed to sharp lies inside the image and is at least one
    pixel wide and high, whatever the requested region. *)
Theorem extract_crop_inside_image :
  forall (imageWidth imageHeight : Z) (region : ExtractRoute.RegionReq),
  (1 <= imageWidth)%Z -> (1 <= imageHeight)%Z ->
  let c := ExtractRoute.clamp imageWidth imageHeight region in
  (0 <= ExtractRoute.crop_left c)%Z /\ (1 <= ExtractRoute.crop_width c)%Z /\
  (ExtractRoute.crop_left c + ExtractRoute.crop_width c <= imageWidth)%Z /\
  (0 <= ExtractRoute.crop_top c)%Z /\ (1 <= ExtractRoute.crop_height c)%Z /\
  (ExtractRoute.crop_top c + ExtractRoute.crop_height c <= imageHeight)%Z.
Proof.
  intros W H region HW HH c. subst c. unfold ExtractRoute.clamp. simpl. lia.
Qed.

Lemma extract_crop_inside_image_witness :
  let c := ExtractRoute.clamp 100 50 (ExtractRoute.mkReq (lit "a") (90 # 1)%Q ((-3) # 1)%Q (40 # 1)%Q (7 # 2)%Q) in
  c = ExtractRoute.mkCrop 90 0 10 4 /\
  (0 <= ExtractRoute.crop_left c)%Z /\ (1 <= ExtractRoute.crop_width c)%Z /\
  (ExtractRoute.crop_left c + ExtractRoute.crop_width c <= 100)%Z /\
  (0 <= ExtractRoute.crop_top c)%Z /\ (1 <= ExtractRoute.crop_height c)%Z /\
  (ExtractRoute.crop_top c + ExtractRoute.crop_height c <= 50)%Z.
Proof.
  split; [vm_compute; reflexivity|].
  apply (extract_crop_inside_image 100 50); lia.
Defined.

(** Extra: a region whose rounded coordinates already lie inside the image
    (at least one pixel wide and high) is cropped exactly as rounded, and
    no adjustment warning is recorded for it. *)
Theorem extract_crop_keeps_inside_region :
  forall (imageWidth imageHeight : Z) (region : ExtractRoute.RegionReq),
  let x := ExtractRoute.js_round (ExtractRoute.req_x region) in
  let y := ExtractRoute.js_round (ExtractRoute.req_y region) in
  let w := ExtractRoute.js_round (ExtractRoute.req_width region) in
  let h := ExtractRoute.js_round (ExtractRoute.req_height region) in
  (0 <= x)%Z -> (1 <= w)%Z -> (x + w <= imageWidth)%Z ->
  (0 <= y)%Z -> (1 <= h)%Z -> (y + h <= imageHeight)%Z ->
  ExtractRoute.clamp imageWidth imageHeight region = ExtractRoute.mkCrop x y w h /\
  ExtractRoute.adjusted imageWidth imageHeight region = false.
Proof.
  intros W H region x y w h H1 H2 H3 H4 H5 H6.
  assert (Hc : ExtractRoute.clamp W H region = ExtractRoute.mkCrop x y w h).
  { unfold ExtractRoute.clamp. fold x y w h. f_equal; lia. }
  split; [exact Hc|].
  unfold ExtractRoute.adjusted. rewrite Hc. simpl. fold x y w h.
  rewrite !Z.eqb_refl. reflexivity.
Qed.

Lemma extract_crop_keeps_inside_region_witness :
  ExtractRoute.clamp 100 50 (ExtractRoute.mkReq (lit "a") (49 # 5)%Q (20 # 1)%Q (30 # 1)%Q (15 # 2)%Q)
    = ExtractRoute.mkCrop 10 20 30 8 /\
  ExtractRoute.adjusted 100 50 (ExtractRoute.mkReq (lit "a") (49 # 5)%Q (20 # 1)%Q (30 # 1)%Q (15 # 2)%Q)
    = false.
Proof.
  apply (extract_crop_keeps_inside_region 100 50
           (ExtractRoute.mkReq (lit "a") (49 # 5)%Q (20 # 1)%Q (30 # 1)%Q (15 # 2)%Q));
  vm_compute; congruence.
Defined.

(** Extra: when the image metadata gives no width (taken as 0), every
    region is cropped as a column one pixel wide at the left edge, which
    lies outside the zero-width image; likewise for the height. *)
Theorem extract_crop_empty_image :
  forall (imageHeight : Z) (region : ExtractRoute.RegionReq),
  ExtractRoute.crop_left (ExtractRoute.clamp 0 imageHeight region) = 0%Z /\
  ExtractRoute.crop_width (ExtractRoute.clamp 0 imageHeight region) = 1%Z /\
  (forall imageWidth : Z,
   ExtractRoute.crop_top (ExtractRoute.clamp imageWidth 0 region) = 0%Z /\
   ExtractRoute.crop_height (ExtractRoute.clamp imageWidth 0 region) = 1%Z).
Proof.
  intros H region. unfold ExtractRoute.clamp. simpl. repeat split; lia.
Qed.

Lemma split_comma_plain : forall a,
  (forall c, In c a -> c <> ","%char) -> ExtractRoute.split_comma a = [a].
Proof.
  induction a as [|c a IH]; intros Ha; [reflexivity|]. simpl.
  rewrite IH by (intros d Hd; apply Ha; right; exact Hd).
  assert (Hc : Ascii.eqb c "," = false).
  { apply Ascii.eqb_neq. apply Ha. left. reflexivity. }
  rewrite Hc. reflexivity.
Qed.

Lemma split_comma_app : forall a t,
  (forall c, In c a -> c <> ","%char) ->
  ExtractRoute.split_comma (a ++ ","%char :: t) = a :: ExtractRoute.split_comma t.
Proof.
  induction a as [|c a IH]; intros t Ha; [reflexivity|]. simpl.
  rewrite IH by (intros d Hd; apply Ha; right; exact Hd).
  assert (Hc : Ascii.eqb c "," = false).
  { apply Ascii.eqb_neq. apply Ha. left. reflexivity. }
  rewrite Hc. reflexivity.
Qed.

Lemma split_comma_head : forall t, exists p ps,
  ExtractRoute.split_comma t = p :: ps /\ (t = [] \/ (exists t', t = ","%char :: t') -> p = []).
Proof.
  intros t. destruct t as [|c t].
  - exists [], []. split; [reflexivity|auto].
  - simpl. destruct (Ascii.eqb c ",") eqn:E.
    + apply Ascii.eqb_eq in E. subst c. exists [], (ExtractRoute.split_comma t). split; [reflexivity|auto].
    + destruct (ExtractRoute.split_comma t) as [|p ps].
      * exists [c], []. split; [reflexivity|]. intros [H|[t' H]]; [discriminate|].
        inversion H; subst. discriminate E.
      * exists (c :: p), ps. split; [reflexivity|]. intros [H|[t' H]]; [discriminate|].
        inversion H; subst. discriminate E.
Qed.

Lemma image_source_data : forall u,
  ExtractRoute.image_source (lit "data:" ++ u) true
  = match nth_error (ExtractRoute.split_comma (lit "data:" ++ u)) 1 with
    | Some ((_ :: _) as b) => ExtractRoute.Base64Data b
    | _ => ExtractRoute.BadDataUrl
    end.
Proof. intros u. reflexivity. Qed.

(** Extra: for a [data:] URL, the route decodes only the text between the
    first and the second comma; a URL with no comma, or with nothing
    between the first comma and the next one (or the end), is refused. *)
Theorem extract_data_url_payload :
  forall (h b t : str),
  (forall c, In c h -> c <> ","%char) -> (forall c, In c b -> c <> ","%char) ->
  (t = [] \/ exists t', t = ","%char :: t') ->
  ExtractRoute.image_source (lit "data:" ++ h ++ ","%char :: b ++ t) true
  = match b with [] => ExtractRoute.BadDataUrl | _ :: _ => ExtractRoute.Base64Data b end /\
  ExtractRoute.image_source (lit "data:" ++ h) true = ExtractRoute.BadDataUrl.
Proof.
  intros h b t Hh Hb Ht.
  assert (Hd : forall c, In c (lit "data:" ++ h) -> c <> ","%char).
  { intros c Hc. apply in_app_or in Hc. destruct Hc as [Hc|Hc]; [|apply Hh; exact Hc].
    simpl in Hc. intros ->. repeat destruct Hc as [Hc|Hc]; try discriminate Hc; exact Hc. }
  split.
  - rewrite image_source_data.
    replace (lit "data:" ++ h ++ ","%char :: b ++ t) with ((lit "data:" ++ h) ++ ","%char :: b ++ t)
      by (rewrite <- app_assoc; reflexivity).
    rewrite (split_comma_app _ _ Hd).
    destruct (split_comma_head t) as [p [ps [Hs Hp]]].
    destruct b as [|c b].
    + simpl. rewrite Hs, (Hp Ht). reflexivity.
    + destruct Ht as [->|[t' ->]].
      * rewrite app_nil_r, split_comma_plain by exact Hb. reflexivity.
      * rewrite split_comma_app by exact Hb. reflexivity.
  - rewrite image_source_data, (split_comma_plain _ Hd). reflexivity.
Qed.

Lemma extract_data_url_payload_witness :
  ExtractRoute.image_source (lit "data:image/png;base64,QUJD,ZZ") true
    = ExtractRoute.Base64Data (lit "QUJD") /\
  ExtractRoute.image_source (lit "data:image/png;base64") true = ExtractRoute.BadDataUrl.
Proof.
  exact (extract_data_url_payload (lit "image/png;base64") (lit "QUJD") (lit ",ZZ")
           ltac:(vm_compute; intros c H; repeat destruct H as [<-|H]; try discriminate; destruct H)
           ltac:(vm_compute; intros c H; repeat destruct H as [<-|H]; try discriminate; destruct H)
           (or_intror (ex_intro _ (lit "ZZ") eq_refl))).
Defined.

(** ** The get_shape_library tool and [handleError] *)

Lemma filter_length_le' : forall {A} (f : A -> bool) l, List.length (filter f l) <= List.length l.
Proof. intros A f l. induction l as [|a l IH]; simpl; [lia|]. destruct (f a); simpl; lia. Qed.

Lemma filter_id_iff : forall {A} (f : A -> bool) l, filter f l = l <-> forallb f l = true.
Proof.
  intros A f l. induction l as [|a l IH]; simpl; [split; reflexivity|].
  destruct (f a) eqn:Ea; simpl.
  - rewrite <- IH. split; [intros H; injection H as H; exact H|intros H; rewrite H; reflexivity].
  - split; [|discriminate]. intros H. exfalso.
    pose proof (filter_length_le' f l) as Hl. rewrite H in Hl. simpl in Hl. lia.
Qed.

Lemma forallb_false_ex : forall {A} (f : A -> bool) l,
  forallb f l = false -> exists x, In x l /\ f x = false.
Proof.
  intros A f l. induction l as [|a l IH]; simpl; [discriminate|].
  destruct (f a) eqn:Ea; simpl.
  - intros H. destruct (IH H) as [x [Hx Hf]]. exists x. split; [right|]; assumption.
  - intros _. exists a. split; [left; reflexivity|exact Ea].
Qed.

Lemma lib_char_not_sep : forall c, ShapeLibrary.lib_char c = true -> c <> "/"%char /\ c <> "."%char.
Proof. intros c Hc. split; intros ->; discriminate Hc. Qed.

(** Extra: get_shape_library refuses every name holding a character other
    than an ASCII letter, a digit, [_] or [-]; any other name is read from
    the file [<name in lower case>.md] of the library directory, a name
    with neither [/] nor [.], so the path check never refuses it. *)
Theorem shape_library_name_check :
  forall baseDir library : str,
  ShapeLibrary.get_shape_library baseDir library <> ShapeLibrary.InvalidPath /\
  (ShapeLibrary.get_shape_library baseDir library = ShapeLibrary.InvalidName <->
   exists c, In c library /\ ShapeLibrary.lib_char (to_lower c) = false) /\
  (forall path, ShapeLibrary.get_shape_library baseDir library = ShapeLibrary.ReadFile path ->
   path = baseDir ++ ["/"%char] ++ map to_lower library ++ lit ".md" /\
   forall c, In c (map to_lower library) -> c <> "/"%char /\ c <> "."%char).
Proof.
  intros baseDir library. unfold ShapeLibrary.get_shape_library, ShapeLibrary.sanitize.
  destruct (str_eqb (filter ShapeLibrary.lib_char (map to_lower library)) (map to_lower library)) eqn:E;
    simpl.
  - apply str_eqb_eq in E. pose proof E as Hall. apply filter_id_iff in Hall.
    rewrite E, starts_with_refl_app.
    split; [discriminate|]. split.
    + split; [discriminate|]. intros [c [Hin Hc]].
      rewrite forallb_forall in Hall.
      rewrite (Hall (to_lower c) (in_map to_lower library c Hin)) in Hc. discriminate.
    + intros path Hp. inversion Hp. split; [reflexivity|].
      intros c Hc. apply lib_char_not_sep. rewrite forallb_forall in Hall. apply Hall. exact Hc.
  - split; [discriminate|]. split; [|discriminate].
    split; [intros _|reflexivity].
    destruct (forallb ShapeLibrary.lib_char (map to_lower library)) eqn:Ef.
    + apply filter_id_iff in Ef. rewrite Ef, str_eqb_refl in E. discriminate.
    + apply forallb_false_ex in Ef. destruct Ef as [c [Hc Hf]].
      apply in_map_iff in Hc. destruct Hc as [d [<- Hd]]. exists d. split; assumption.
Qed.

Lemma shape_library_name_check_witness :
  ShapeLibrary.get_shape_library (lit "docs/shape-libraries") (lit "AWS4")
    = ShapeLibrary.ReadFile (lit "docs/shape-libraries/aws4.md") /\
  ShapeLibrary.get_shape_library (lit "docs/shape-libraries") (lit "../secrets")
    = ShapeLibrary.InvalidName /\
  (ShapeLibrary.get_shape_library (lit "docs/shape-libraries") (lit "../secrets")
     = ShapeLibrary.InvalidName <->
   exists c, In c (lit "../secrets") /\ ShapeLibrary.lib_char (to_lower c) = false).
Proof.
  split; [vm_compute; reflexivity|]. split; [vm_compute; reflexivity|].
  exact (proj1 (proj2 (shape_library_name_check (lit "docs/shape-libraries") (lit "../secrets")))).
Defined.

(** Extra: in production, [handleError] answers a thrown [Error] (other
    than the API-call and API-key errors) without details and with a text
    that mentions none of key, token, sig, secret and password in any
    letter case; the text is the error's own message whenever that message
    mentions none of the seven guarded words. The message of an API-call
    error, by contrast, is answered as it is. *)
Theorem chat_error_hides_secrets :
  forall (m : str) (sc st : option Z),
  let r := ChatError.handleError false (ChatError.ErrorObj m sc st) in
  ChatError.r_details r = None /\
  (forall w, In w (map lit ["key"; "token"; "sig"; "secret"; "password"]%string) ->
     includes w (map to_lower (ChatError.r_error r)) = false) /\
  (existsb (fun w => includes w (map to_lower m)) ChatError.sensitive_words = false ->
   ChatError.r_error r = m) /\
  (forall body, ChatError.r_error (ChatError.handleError false (ChatError.APICallError m sc body)) = m).
Proof.
  intros m sc st r. subst r.
  cbn [ChatError.handleError ChatError.fallback ChatError.r_error ChatError.r_details].
  destruct (existsb (fun w => includes w (map to_lower m)) ChatError.sensitive_words) eqn:E;
    cbn [ChatError.r_error ChatError.r_details].
  - split; [reflexivity|]. split; [|split; [intros H; discriminate H|reflexivity]].
    intros w Hw. simpl in Hw.
    repeat (destruct Hw as [Hw|Hw]; [subst w; vm_compute; reflexivity|]). destruct Hw.
  - split; [reflexivity|]. split; [|split; [intros _; reflexivity|reflexivity]].
    intros w Hw. destruct (includes w (map to_lower m)) eqn:Ei; [|reflexivity].
    rewrite <- E. symmetry. apply existsb_exists. exists w. split; [|exact Ei].
    simpl in Hw. unfold ChatError.sensitive_words. simpl.
    repeat (destruct Hw as [Hw|Hw]; [subst w; tauto|]). destruct Hw.
Qed.

Lemma chat_error_hides_secrets_witness :
  ChatError.r_error (ChatError.handleError false
    (ChatError.ErrorObj (lit "Invalid API Key sk-123") None (Some 403%Z)))
    = ChatError.auth_failed /\
  (existsb (fun w => includes w (map to_lower (lit "Model overloaded"))) ChatError.sensitive_words
     = false ->
   ChatError.r_error (ChatError.handleError false
     (ChatError.ErrorObj (lit "Model overloaded") None None)) = lit "Model overloaded").
Proof.
  split; [vm_compute; reflexivity|].
  exact (proj1 (proj2 (proj2 (chat_error_hides_secrets (lit "Model overloaded") None None)))).
Defined.

(** ** The tool handlers *)

Lemma onDisplayChart_outs : forall va s x, outs (fst (onDisplayChart va s x)) = outs s.
Proof. intros va s x. unfold onDisplayChart. destruct (va x); reflexivity. Qed.

Lemma handleToolCall_outs : forall ic wr va fe pa se s c,
  exists ms, outs (handleToolCall ic wr va fe pa se s c) = outs s ++ ms /\
             map out_key ms = call_answer c.
Proof.
  intros ic wr va fe pa se s c. destruct c as [id xml|id ops|id xml|id name]; simpl.
  - unfold handleDisplayDiagram.
    destruct (negb (ic (Cache.resolve fe xml))).
    + eexists. split; reflexivity.
    + unfold onDisplayChart. destruct (va (wr (Cache.resolve fe xml)));
        eexists; split; reflexivity.
  - unfold handleEditDiagram.
    destruct (Patch.applyDiagramOperations (pa (current_xml s id)) ops) as [ed [|e es]].
    + unfold onDisplayChart. destruct (va (se ed)); eexists; split; reflexivity.
    + eexists; split; reflexivity.
  - unfold handleAppendDiagram.
    destruct (is_fresh_start xml); [eexists; split; reflexivity|].
    destruct (ic (partial s ++ xml)); [|eexists; split; reflexivity].
    unfold onDisplayChart. destruct (va (wr (partial s ++ xml))); eexists; split; reflexivity.
  - exists []. split; [symmetry; apply app_nil_r|reflexivity].
Qed.

(** Extra: whatever the tool calls, the hook answers each display, edit
    and append call with exactly one tool output, under that tool's name
    and the call's id, in the order of the calls; a call of any other tool
    is not answered and changes nothing. *)
Theorem tool_calls_answered_once :
  forall ic wr va fe pa se (s : St) (cs : list ToolCall),
  map out_key (outs (run_calls ic wr va fe pa se s cs))
  = map out_key (outs s) ++ flat_map call_answer cs /\
  (forall id name, handleToolCall ic wr va fe pa se s (CallOther id name) = s).
Proof.
  intros ic wr va fe pa se s cs. split; [|reflexivity].
  revert s. induction cs as [|c cs IH]; intros s.
  - simpl. rewrite app_nil_r. reflexivity.
  - change (run_calls ic wr va fe pa se s (c :: cs))
      with (run_calls ic wr va fe pa se (handleToolCall ic wr va fe pa se s c) cs).
    rewrite IH. destruct (handleToolCall_outs ic wr va fe pa se s c) as [ms [E Hm]].
    rewrite E, map_app, Hm. simpl. rewrite app_assoc. reflexivity.
Qed.

Lemma slice_last_suffix : forall n x,
  exists pre, x = pre ++ slice_last n x /\ List.length (slice_last n x) = Nat.min n (List.length x).
Proof.
  intros n x. unfold slice_last. exists (firstn (List.length x - n) x).
  split; [symmetry; apply firstn_skipn|]. rewrite length_skipn. lia.
Qed.

(** Extra: a display call whose document (after cache resolution) is
    incomplete loads nothing into the editor, replaces the partial buffer
    by that document (a partial left by an earlier truncation is dropped),
    and answers with one truncation error quoting the last
    [min 500 (length)] characters of the document. *)
Theorem display_truncated_replaces_partial :
  forall ic wr va fe (s : St) (id xml : str),
  ic (Cache.resolve fe xml) = false ->
  let x := Cache.resolve fe xml in
  let s' := handleDisplayDiagram ic wr va fe s id xml in
  chart s' = chart s /\ shown s' = shown s /\ partial s' = x /\
  exists ending pre,
    outs s' = outs s ++ [mkOut (lit "display_diagram") id (DisplayTruncated ending)] /\
    x = pre ++ ending /\ List.length ending = Nat.min 500 (List.length x).
Proof.
  intros ic wr va fe s id xml Hc x s'. subst s' x. unfold handleDisplayDiagram.
  rewrite Hc. simpl. split; [reflexivity|]. split; [reflexivity|]. split; [reflexivity|].
  destruct (slice_last_suffix 500 (Cache.resolve fe xml)) as [pre [E L]].
  exists (slice_last 500 (Cache.resolve fe xml)), pre. split; [reflexivity|]. split; assumption.
Qed.

Lemma display_truncated_replaces_partial_witness :
  let s0 := mkSt (lit "<mxCell id=") [] [] [] [] in
  Detector.isMxCellXmlComplete (Cache.resolve (fun _ => None) (qlit "<mxCell id=`b`")) = false /\
  partial (handleDisplayDiagram Detector.isMxCellXmlComplete wrap_spec (fun _ => None)
             (fun _ => None) s0 (lit "t") (qlit "<mxCell id=`b`")) = qlit "<mxCell id=`b`".
Proof.
  intros s0. assert (H : Detector.isMxCellXmlComplete
                           (Cache.resolve (fun _ => None) (qlit "<mxCell id=`b`")) = false)
    by (vm_compute; reflexivity).
  split; [exact H|].
  destruct (display_truncated_replaces_partial Detector.isMxCellXmlComplete wrap_spec
              (fun _ => None) (fun _ => None) s0 (lit "t") (qlit "<mxCell id=`b`") H)
    as [_ [_ [Hp _]]].
  rewrite Hp. vm_compute. reflexivity.
Defined.

Lemma assoc_filter_other : forall id id' (l : list (str * str)),
  Cache.assoc id' (filter (fun kv => negb (str_eqb (fst kv) id)) l)
  = if str_eqb id' id then None else Cache.assoc id' l.
Proof.
  intros id id' l. induction l as [|[k v] l IH]; simpl.
  - destruct (str_eqb id' id); reflexivity.
  - destruct (str_eqb k id) eqn:Ek; simpl.
    + rewrite IH. apply str_eqb_eq in Ek. subst k.
      destruct (str_eqb id' id); reflexivity.
    + destruct (str_eqb id' k) eqn:Ei; [|exact IH].
      apply str_eqb_eq in Ei. subst k. rewrite Ek. reflexivity.
Qed.

Lemma handleEdit_originals : forall va pa se s id ops,
  originals (handleEditDiagram va pa se s id ops)
  = filter (fun kv => negb (str_eqb (fst kv) id)) (originals s).
Proof.
  intros va pa se s id ops. unfold handleEditDiagram.
  destruct (Patch.applyDiagramOperations (pa (current_xml s id)) ops) as [ed [|e es]].
  - unfold onDisplayChart. destruct (va (se ed)); reflexivity.
  - reflexivity.
Qed.

(** Extra: an edit call, whether it fails, is rejected by validation or
    succeeds, forgets the XML captured for its call id while streaming and
    keeps the captured XML of every other call; the partial buffer of an
    interrupted display is left as it was. *)
Theorem edit_forgets_own_original :
  forall va pa se (s : St) (id : str) (ops : list Patch.DiagramOperation),
  let s' := handleEditDiagram va pa se s id ops in
  Cache.assoc id (originals s') = None /\
  (forall id', id' <> id -> Cache.assoc id' (originals s') = Cache.assoc id' (originals s)) /\
  partial s' = partial s.
Proof.
  intros va pa se s id ops s'. subst s'. rewrite handleEdit_originals.
  split; [rewrite assoc_filter_other, str_eqb_refl; reflexivity|]. split.
  - intros id' Hne. rewrite assoc_filter_other.
    destruct (str_eqb id' id) eqn:E; [apply str_eqb_eq in E; contradiction|reflexivity].
  - unfold handleEditDiagram.
    destruct (Patch.applyDiagramOperations (pa (current_xml s id)) ops) as [ed [|e es]].
    + unfold onDisplayChart. destruct (va (se ed)); reflexivity.
    + reflexivity.
Qed.

Lemma edit_forgets_own_original_witness :
  let s0 := mkSt [] [(lit "t1", lit "<a/>"); (lit "t2", lit "<b/>")] [] [] [] in
  let s' := handleEditDiagram (fun _ => None) (fun _ => []) (fun _ => []) s0 (lit "t1") [] in
  Cache.assoc (lit "t1") (originals s') = None /\
  Cache.assoc (lit "t2") (originals s') = Some (lit "<b/>").
Proof.
  intros s0 s'.
  destruct (edit_forgets_own_original (fun _ => None) (fun _ => []) (fun _ => []) s0 (lit "t1") [])
    as [H1 [H2 _]].
  unfold s'. split; [exact H1|].
  rewrite (H2 (lit "t2") ltac:(discriminate)). reflexivity.
Defined.

(** Extra: with no truncated display pending (empty partial buffer), an
    append call whose fragment is not a fresh start and is complete on its
    own is displayed at once, as a whole document, without cache
    resolution: it is wrapped and handed to [onDisplayChart], the buffer
    stays empty and the answer is the assembly success or the validation
    error. *)
Theorem append_without_pending_displays_fragment :
  forall ic wr va (s : St) (id xml : str),
  partial s = [] -> is_fresh_start xml = false -> ic xml = true ->
  let s' := handleAppendDiagram ic wr va s id xml in
  shown s' = shown s ++ [wr xml] /\ partial s' = [] /\
  outs s' = outs s ++ [mkOut (lit "append_diagram") id
                        (match va (wr xml) with
                         | Some e => AppendInvalid e (firstn 2000 xml)
                         | None => AppendOk
                         end)] /\
  chart s' = match va (wr xml) with Some _ => chart s | None => wr xml end.
Proof.
  intros ic wr va s id xml Hp Hf Hc s'. subst s'. unfold handleAppendDiagram.
  rewrite Hf, Hp. simpl. rewrite Hc. unfold onDisplayChart.
  destruct (va (wr xml)); simpl; repeat split; reflexivity.
Qed.

Lemma append_without_pending_displays_fragment_witness :
  let x := qlit "<mxCell id=`a` vertex=`1` parent=`1`/>" in
  shown (handleAppendDiagram Detector.isMxCellXmlComplete wrap_spec (fun _ => None)
           (mkSt [] [] [] [] []) (lit "t") x) = [wrap_spec x].
Proof.
  intros x.
  exact (proj1 (append_without_pending_displays_fragment Detector.isMxCellXmlComplete wrap_spec
                  (fun _ => None) (mkSt [] [] [] [] []) (lit "t") x eq_refl
                  ltac:(vm_compute; reflexivity) ltac:(vm_compute; reflexivity))).
Defined.

(** ** Cache resolution *)

Lemma resolve_fold_none : forall (fetch : str -> option (list (str * str))) ms keys x,
  (forall k, fetch k = None) ->
  fold_left (fun x key => match fetch key with
                          | Some regions => Cache.subst_matches key regions ms x
                          | None => x
                          end) keys x = x.
Proof.
  intros fetch ms keys. induction keys as [|k keys IH]; intros x Hf; [reflexivity|].
  simpl. rewrite Hf. apply IH. exact Hf.
Qed.

(** Extra: display_diagram's cache resolution leaves the XML exactly as
    it was when no cache entry can be fetched (every request fails or is
    refused), and when the XML holds no [image=data:cache/] at all. *)
Theorem resolve_unchanged_without_cache :
  forall (fetch : str -> option (list (str * str))) (xml : str),
  (forall k, fetch k = None) \/ includes Cache.cache_head xml = false ->
  Cache.resolve fetch xml = xml.
Proof.
  intros fetch xml [Hf|Hn].
  - unfold Cache.resolve. apply resolve_fold_none. exact Hf.
  - apply resolve_no_reference. exact Hn.
Qed.

Lemma resolve_unchanged_without_cache_witness :
  Cache.resolve (fun _ => None) c8_xml = c8_xml.
Proof. apply resolve_unchanged_without_cache. left. intros k. reflexivity. Defined.

Lemma take_run_props : forall p s a b, Cache.take_run p s = (a, b) ->
  forallb p a = true /\ s = a ++ b /\ match b with c :: _ => p c = false | [] => True end.
Proof.
  intros p s. induction s as [|c s IH]; intros a b H; simpl in H.
  - inversion H. simpl. auto.
  - destruct (p c) eqn:Ep.
    + destruct (Cache.take_run p s) as [a' b'] eqn:E. inversion H; subst a b.
      destruct (IH a' b' eq_refl) as [H1 [H2 H3]]. simpl. rewrite Ep, H1. subst s. auto.
    + inversion H; subst a b. simpl. auto.
Qed.

Lemma match_at_props : forall s k r rest, Cache.match_at s = Some (k, r, rest) ->
  k <> [] /\ forallb Cache.key_char k = true /\ r <> [] /\ forallb Cache.region_char r = true /\
  s = Cache.search_str k r ++ rest.
Proof.
  intros s k r rest H. unfold Cache.match_at in H.
  destruct (starts_with Cache.cache_head s) eqn:Eh; [|discriminate].
  apply starts_with_split in Eh.
  destruct (Cache.take_run Cache.key_char (skipn 17 s)) as [k1 s1] eqn:E1.
  destruct (take_run_props _ _ _ _ E1) as [Hk [Hs1 Hc1]].
  destruct k1 as [|c0 k1]; [discriminate|].
  destruct s1 as [|c s2]; [discriminate|].
  destruct (Cache.take_run Cache.region_char s2) as [r1 s3] eqn:E2.
  destruct (take_run_props _ _ _ _ E2) as [Hr [Hs2 _]].
  destruct r1 as [|c1 r1]; [discriminate|]. inversion H; subst k r rest.
  assert (Hc : c = "/"%char).
  { unfold Cache.key_char in Hc1. apply negb_false_iff in Hc1. apply Ascii.eqb_eq. exact Hc1. }
  subst c. repeat split; try discriminate; try assumption.
  rewrite Eh at 1. change (List.length Cache.cache_head) with 17. rewrite Hs1, Hs2.
  unfold Cache.search_str. rewrite <- !app_assoc. reflexivity.
Qed.

Lemma includes_app_r : forall p a b, includes p b = true -> includes p (a ++ b) = true.
Proof.
  intros p a b H. induction a as [|c a IH]; [exact H|].
  simpl. rewrite IH. apply orb_true_r.
Qed.

Lemma includes_here : forall p y, includes p (p ++ y) = true.
Proof.
  intros p y. pose proof (starts_with_refl_app p y) as H.
  destruct (p ++ y) as [|c s]; [destruct p; [reflexivity|discriminate]|].
  rewrite includes_cons, H. reflexivity.
Qed.

Lemma match_all_fuel_props : forall f s k r, In (k, r) (Cache.match_all_fuel f s) ->
  k <> [] /\ forallb Cache.key_char k = true /\ r <> [] /\ forallb Cache.region_char r = true /\
  includes (Cache.search_str k r) s = true.
Proof.
  induction f as [|f IH]; intros s k r H; [destruct H|].
  destruct s as [|c s]; [destruct H|]. simpl in H.
  destruct (Cache.match_at (c :: s)) as [[[k' r'] rest]|] eqn:Em.
  - destruct (match_at_props _ _ _ _ Em) as [H1 [H2 [H3 [H4 H5]]]].
    destruct H as [H|H].
    + inversion H; subst k' r'. repeat split; try assumption. rewrite H5. apply includes_here.
    + destruct (IH rest k r H) as [G1 [G2 [G3 [G4 G5]]]]. repeat split; try assumption.
      rewrite H5. apply includes_app_r. exact G5.
  - destruct (IH s k r H) as [G1 [G2 [G3 [G4 G5]]]]. repeat split; try assumption.
    change (c :: s) with ([c] ++ s). apply includes_app_r. exact G5.
Qed.

(** Extra: every cache reference display_diagram finds has a non-empty key
    without [/] and a non-empty region name free of [;], the double quote
    and white space, and its text [image=data:cache/key/region] occurs in
    the XML; the keys fetched are exactly the keys of these references,
    each fetched once. *)
Theorem cache_reference_scan :
  forall xml : str,
  (forall k r, In (k, r) (Cache.match_all xml) ->
     k <> [] /\ forallb Cache.key_char k = true /\ r <> [] /\
     forallb Cache.region_char r = true /\ includes (Cache.search_str k r) xml = true) /\
  NoDup (Cache.dedup (map fst (Cache.match_all xml))) /\
  (forall k, In k (Cache.dedup (map fst (Cache.match_all xml))) <->
             exists r, In (k, r) (Cache.match_all xml)).
Proof.
  intros xml. split; [intros k r H; apply (match_all_fuel_props _ _ _ _ H)|].
  split; [apply dedup_acc_NoDup|].
  intros k. unfold Cache.dedup. rewrite dedup_acc_In. split.
  - intros [H _]. apply in_map_iff in H. destruct H as [[k' r] [E H]]. simpl in E. subst k'.
    exists r. exact H.
  - intros [r H]. split; [|intros []]. apply in_map_iff. exists (k, r). split; [reflexivity|exact H].
Qed.

Lemma cache_reference_scan_witness :
  Cache.match_all (qlit "<c style=`image=data:cache/k1/a b;image=data:cache/k1/c`/>")
    = [(lit "k1", lit "a"); (lit "k1", lit "c")] /\
  Cache.dedup (map fst (Cache.match_all
    (qlit "<c style=`image=data:cache/k1/a b;image=data:cache/k1/c`/>"))) = [lit "k1"] /\
  (forall k r, In (k, r) (Cache.match_all
     (qlit "<c style=`image=data:cache/k1/a b;image=data:cache/k1/c`/>")) ->
     includes (Cache.search_str k r)
       (qlit "<c style=`image=data:cache/k1/a b;image=data:cache/k1/c`/>") = true).
Proof.
  split; [vm_compute; reflexivity|]. split; [vm_compute; reflexivity|].
  intros k r H.
  apply (proj1 (cache_reference_scan (qlit "<c style=`image=data:cache/k1/a b;image=data:cache/k1/c`/>"))
           k r H).
Defined.

Lemma fold_left_ext_fun : forall {A B} (f g : A -> B -> A) l a,
  (forall x y, f x y = g x y) -> fold_left f l a = fold_left g l a.
Proof.
  intros A B f g l. induction l as [|y l IH]; intros a H; simpl; [reflexivity|].
  rewrite H. apply IH. exact H.
Qed.

Lemma subst_matches_proto_first : forall k r post regions pre x,
  (forall k' r', In (k', r') pre -> k' <> k) ->
  Cache.assoc r regions = None ->
  str_mem r Cache.proto_names = true ->
  Cache.subst_matches k regions (pre ++ (k, r) :: post) x = x.
Proof.
  intros k r post regions pre. induction pre as [|[k' r'] pre IH]; intros x Hpre Ha Hp; simpl.
  - rewrite str_eqb_refl. unfold Cache.obj_get. rewrite Ha, Hp. reflexivity.
  - assert (E : str_eqb k' k = false).
    { destruct (str_eqb k' k) eqn:E; [|reflexivity]. apply str_eqb_eq in E.
      exfalso. exact (Hpre k' r' (or_introl eq_refl) E). }
    rewrite E. apply IH; [|exact Ha|exact Hp].
    intros k0 r0 H. apply (Hpre k0 r0). right. exact H.
Qed.

(** Extra: when, among the cache references of the XML, the first one with
    key [k] names a region that the mapping fetched for [k] lacks but that
    [Object.prototype] has (such as [constructor]), reading it yields a
    function, [dataUrl.replace] throws and the error is caught for the
    whole key: the XML is resolved exactly as if the fetch for [k] had
    failed, so no reference of key [k] is replaced, even a stored one,
    while the other keys are resolved as usual. *)
Theorem cache_prototype_region_stops_key :
  forall (fetch : str -> option (list (str * str))) (xml k r : str)
         (pre post regions : list (str * str)),
  Cache.match_all xml = pre ++ (k, r) :: post ->
  (forall k' r', In (k', r') pre -> k' <> k) ->
  fetch k = Some regions ->
  Cache.assoc r regions = None ->
  str_mem r Cache.proto_names = true ->
  Cache.resolve fetch xml
  = Cache.resolve (fun key => if str_eqb key k then None else fetch key) xml.
Proof.
  intros fetch xml k r pre post regions Hm Hpre Hf Ha Hp. unfold Cache.resolve.
  apply fold_left_ext_fun. intros x key.
  destruct (str_eqb key k) eqn:E; [|reflexivity].
  apply str_eqb_eq in E. subst key. rewrite Hf, Hm.
  apply subst_matches_proto_first; assumption.
Qed.

Lemma cache_prototype_region_stops_key_witness :
  Cache.resolve c8_fetch
    (qlit "<a style=`image=data:cache/k1/constructor;`/><b style=`image=data:cache/k1/r1;`/>")
  = Cache.resolve (fun key => if str_eqb key (lit "k1") then None else c8_fetch key)
    (qlit "<a style=`image=data:cache/k1/constructor;`/><b style=`image=data:cache/k1/r1;`/>").
Proof.
  apply (cache_prototype_region_stops_key c8_fetch _ (lit "k1") (lit "constructor")
           [] [(lit "k1", lit "r1")] [(lit "r1", c8_payload)]);
    try (vm_compute; reflexivity).
  intros k' r' [].
Defined.

(** ** The region cache *)

Lemma store_now_step : forall s e, (RegionStore.now s <= RegionStore.now (RegionStore.step s e))%N.
Proof.
  intros s e. destruct e as [k mp|key|dt|i]; simpl; try lia.
  destruct (nth_error (RegionStore.timers s) i) as [[t k]|]; [|lia].
  destruct (N.leb t (RegionStore.now s)); simpl; lia.
Qed.

Lemma store_now_run : forall es s, (RegionStore.now s <= RegionStore.now (RegionStore.run s es))%N.
Proof.
  induction es as [|e es IH]; intros s; [simpl; lia|].
  change (RegionStore.run s (e :: es)) with (RegionStore.run (RegionStore.step s e) es).
  pose proof (store_now_step s e). pose proof (IH (RegionStore.step s e)). lia.
Qed.

Section EntryLifetime.

Variable k : str.
Variable mp : list (str * str).
Variable T : N.

Lemma entry_live_step : forall s e,
  entry_live k mp T s -> (forall mp', e <> RegionStore.Extract k mp') -> (RegionStore.now s < T)%N ->
  entry_live k mp T (RegionStore.step s e).
Proof.
  intros s e [Hl Ht] He Hn. unfold RegionStore.lookup in Hl.
  destruct (RegionStore.cache s) as [m|] eqn:Ec; [|discriminate].
  destruct e as [k' mp'|key|dt|i]; simpl.
  - assert (Hk : str_eqb k k' = false).
    { destruct (str_eqb k k') eqn:E; [|reflexivity]. apply str_eqb_eq in E. subst k'.
      exfalso. exact (He mp' eq_refl). }
    split.
    + unfold RegionStore.lookup. simpl. rewrite Ec, map_get_set, Hk. exact Hl.
    + intros t Hin. apply in_app_or in Hin. destruct Hin as [Hin|[Hin|[]]]; [apply Ht; exact Hin|].
      inversion Hin; subst k'. rewrite str_eqb_refl in Hk. discriminate.
  - split; [unfold RegionStore.lookup; rewrite Ec; exact Hl|exact Ht].
  - split; [unfold RegionStore.lookup; simpl; rewrite Ec; exact Hl|exact Ht].
  - destruct (nth_error (RegionStore.timers s) i) as [[t k0]|] eqn:En;
      [|split; [unfold RegionStore.lookup; rewrite Ec; exact Hl|exact Ht]].
    destruct (N.leb t (RegionStore.now s)) eqn:Et;
      [|split; [unfold RegionStore.lookup; rewrite Ec; exact Hl|exact Ht]].
    split.
    + unfold RegionStore.lookup. simpl. rewrite Ec. simpl. rewrite map_get_delete.
      destruct (str_eqb k k0) eqn:E; [|exact Hl].
      apply str_eqb_eq in E. subst k0. apply N.leb_le in Et.
      rewrite (Ht t (nth_error_In _ _ En)) in Et. lia.
    + intros t' Hin. apply Ht. eapply remove_nth_incl. exact Hin.
Qed.

Lemma entry_live_run : forall es s,
  entry_live k mp T s -> (forall e mp', In e es -> e <> RegionStore.Extract k mp') ->
  (RegionStore.now (RegionStore.run s es) < T)%N ->
  entry_live k mp T (RegionStore.run s es).
Proof.
  induction es as [|e es IH]; intros s Hs He Hn; [exact Hs|].
  change (RegionStore.run s (e :: es)) with (RegionStore.run (RegionStore.step s e) es) in *.
  apply IH; [|intros e' mp' H; apply He; right; exact H|exact Hn].
  apply entry_live_step; [exact Hs|intros mp' E; exact (He e mp' (or_introl eq_refl) E)|].
  pose proof (store_now_run es (RegionStore.step s e)). pose proof (store_now_step s e). lia.
Qed.

End EntryLifetime.

(** Extra: an entry stored by extract_image_regions under a fresh key
    (one with no pending timer) is answered by get-cached-regions with
    exactly the stored mapping for the whole ten minutes after the
    insertion: reads, time passing, other extractions and any timer
    running in between leave it in place, as long as that key is not
    extracted again. *)
Theorem region_cache_entry_lives_ttl :
  forall (s : RegionStore.Store) (k : str) (mp : list (str * str)) (es : list RegionStore.Event),
  k <> [] ->
  (forall t, ~ In (t, k) (RegionStore.timers s)) ->
  (forall e mp', In e es -> e <> RegionStore.Extract k mp') ->
  (RegionStore.now (RegionStore.run (RegionStore.step s (RegionStore.Extract k mp)) es)
   < RegionStore.now s + RegionStore.TTL)%N ->
  RegionStore.get_cached_regions
    (RegionStore.run (RegionStore.step s (RegionStore.Extract k mp)) es) (Some k)
  = RegionStore.Regions mp.
Proof.
  intros s k mp es Hk Ht He Hn.
  assert (H0 : entry_live k mp (RegionStore.now s + RegionStore.TTL)
                 (RegionStore.step s (RegionStore.Extract k mp))).
  { split.
    - unfold RegionStore.lookup. simpl. rewrite map_get_set, str_eqb_refl. reflexivity.
    - intros t Hin. simpl in Hin. apply in_app_or in Hin.
      destruct Hin as [Hin|[Hin|[]]]; [exfalso; exact (Ht t Hin)|]. inversion Hin. reflexivity. }
  destruct (entry_live_run k mp _ es _ H0 He Hn) as [Hl _].
  unfold RegionStore.get_cached_regions, RegionStore.lookup in *.
  destruct k as [|c k']; [contradiction|].
  destruct (RegionStore.cache _) as [m|]; [|discriminate]. rewrite Hl. reflexivity.
Qed.

Lemma region_cache_entry_lives_ttl_witness :
  RegionStore.get_cached_regions
    (RegionStore.run (RegionStore.step RegionStore.init
                        (RegionStore.Extract (lit "k") [(lit "r", c8_payload)]))
       [RegionStore.Extract (lit "j") []; RegionStore.Tick 599999%N;
        RegionStore.Fire 0; RegionStore.Fire 1; RegionStore.Get (Some (lit "k"))])
    (Some (lit "k"))
  = RegionStore.Regions [(lit "r", c8_payload)].
Proof.
  apply region_cache_entry_lives_ttl.
  - discriminate.
  - intros t [].
  - intros e mp' H. simpl in H.
    repeat (destruct H as [H|H]; [subst e; discriminate|]). destruct H.
  - vm_compute. reflexivity.
Defined.

Lemma cache_none_run : forall es s,
  RegionStore.cache (RegionStore.run s es) = None <->
  RegionStore.cache s = None /\ (forall e, In e es -> forall k mp, e <> RegionStore.Extract k mp).
Proof.
  induction es as [|e es IH]; intros s.
  - simpl. split; [intros H; split; [exact H|intros e []]|intros [H _]; exact H].
  - change (RegionStore.run s (e :: es)) with (RegionStore.run (RegionStore.step s e) es).
    rewrite IH. destruct e as [k mp|key|dt|i]; simpl.
    + split; [intros [H _]; discriminate|].
      intros [_ H]. exfalso. exact (H _ (or_introl eq_refl) k mp eq_refl).
    + split.
      * intros [H1 H2]. split; [exact H1|]. intros e [<-|He]; [discriminate|exact (H2 e He)].
      * intros [H1 H2]. split; [exact H1|]. intros e He. apply H2. right. exact He.
    + split.
      * intros [H1 H2]. split; [exact H1|]. intros e [<-|He]; [discriminate|exact (H2 e He)].
      * intros [H1 H2]. split; [exact H1|]. intros e He. apply H2. right. exact He.
    + assert (Hc : RegionStore.cache (RegionStore.step s (RegionStore.Fire i)) = None
                   <-> RegionStore.cache s = None).
      { simpl. destruct (nth_error (RegionStore.timers s) i) as [[t k]|]; [|tauto].
        destruct (N.leb t (RegionStore.now s)); simpl; [|tauto].
        destruct (RegionStore.cache s); simpl; split; congruence. }
      simpl in Hc. rewrite Hc. split.
      * intros [H1 H2]. split; [exact H1|]. intros e [<-|He]; [discriminate|exact (H2 e He)].
      * intros [H1 H2]. split; [exact H1|]. intros e He. apply H2. right. exact He.
Qed.

(** Extra: get-cached-regions refuses a missing or empty key as invalid;
    for any other key it answers "not initialized" exactly as long as no
    extraction has ever run; afterwards a missing or expired key is
    answered "not found", even when every entry has expired. *)
Theorem region_cache_not_initialized_until_extract :
  forall (es : list RegionStore.Event) (k : str),
  k <> [] ->
  (RegionStore.get_cached_regions (RegionStore.run RegionStore.init es) (Some k)
     = RegionStore.NotInitialized
   <-> forall e, In e es -> forall k' mp, e <> RegionStore.Extract k' mp) /\
  RegionStore.get_cached_regions (RegionStore.run RegionStore.init es) None = RegionStore.InvalidKey /\
  RegionStore.get_cached_regions (RegionStore.run RegionStore.init es) (Some []) = RegionStore.InvalidKey.
Proof.
  intros es k Hk. split; [|split; reflexivity].
  pose proof (cache_none_run es RegionStore.init) as Hc.
  assert (Hi : RegionStore.cache RegionStore.init = None) by reflexivity.
  unfold RegionStore.get_cached_regions. destruct k as [|c k']; [contradiction|].
  destruct (RegionStore.cache (RegionStore.run RegionStore.init es)) as [m|] eqn:E.
  - split; [destruct (RegionStore.map_get (c :: k') m); discriminate|].
    intros H. assert (Hn : Some m = None) by (apply Hc; split; [exact Hi|exact H]).
    discriminate Hn.
  - split; [intros _|reflexivity]. apply Hc. reflexivity.
Qed.

Lemma region_cache_not_initialized_until_extract_witness :
  RegionStore.get_cached_regions
    (RegionStore.run RegionStore.init [RegionStore.Get (Some (lit "k")); RegionStore.Tick 5%N])
    (Some (lit "k")) = RegionStore.NotInitialized /\
  RegionStore.get_cached_regions
    (RegionStore.run RegionStore.init [RegionStore.Extract (lit "j") []; RegionStore.Tick 600000%N;
                                       RegionStore.Fire 0])
    (Some (lit "j")) = RegionStore.NotFound.
Proof.
  split; [|vm_compute; reflexivity].
  apply (proj1 (region_cache_not_initialized_until_extract
                  [RegionStore.Get (Some (lit "k")); RegionStore.Tick 5%N] (lit "k")
                  ltac:(discriminate))).
  intros e H k' mp. simpl in H.
  repeat (destruct H as [H|H]; [subst e; discriminate|]). destruct H.
Defined.

(** ** The region mapping of extract_image_regions *)

Lemma assoc_app : forall n o o',
  Cache.assoc n (o ++ o') = match Cache.assoc n o with Some v => Some v | None => Cache.assoc n o' end.
Proof.
  intros n o o'. induction o as [|[k v] o IH]; simpl; [reflexivity|].
  destruct (str_eqb n k); [reflexivity|exact IH].
Qed.

Lemma assoc_map_other : forall n k v o, str_eqb n k = false ->
  Cache.assoc n (map (fun kv => if str_eqb (fst kv) k then (k, v) else kv) o) = Cache.assoc n o.
Proof.
  intros n k v o Hn. induction o as [|[k' v'] o IH]; simpl; [reflexivity|].
  destruct (str_eqb k' k) eqn:E; simpl.
  - apply str_eqb_eq in E. subst k'. rewrite Hn. exact IH.
  - destruct (str_eqb n k'); [reflexivity|exact IH].
Qed.

Lemma assoc_map_same : forall k v o, existsb (fun kv => str_eqb (fst kv) k) o = true ->
  Cache.assoc k (map (fun kv => if str_eqb (fst kv) k then (k, v) else kv) o) = Some v.
Proof.
  intros k v o. induction o as [|[k' v'] o IH]; intros H; simpl in H; [discriminate|].
  simpl. destruct (str_eqb k' k) eqn:E; simpl.
  - rewrite str_eqb_refl. reflexivity.
  - rewrite str_eqb_sym, E. apply IH. exact H.
Qed.

Lemma assoc_not_in : forall k o, existsb (fun kv => str_eqb (fst kv) k) o = false ->
  Cache.assoc k o = None.
Proof.
  intros k o. induction o as [|[k' v'] o IH]; intros H; simpl in H; [reflexivity|].
  simpl. apply orb_false_iff in H. destruct H as [H1 H2].
  rewrite str_eqb_sym, H1. apply IH. exact H2.
Qed.

Lemma assoc_obj_set : forall o k v n, str_eqb n (lit "__proto__") = false ->
  Cache.assoc n (ExtractTool.obj_set o k v) = if str_eqb n k then Some v else Cache.assoc n o.
Proof.
  intros o k v n Hn. unfold ExtractTool.obj_set.
  destruct (str_eqb k (lit "__proto__")) eqn:Ek.
  { apply str_eqb_eq in Ek. subst k. rewrite Hn. reflexivity. }
  destruct (existsb (fun kv => str_eqb (fst kv) k) o) eqn:Ex.
  - destruct (str_eqb n k) eqn:Enk.
    + apply str_eqb_eq in Enk. subst n. apply assoc_map_same. exact Ex.
    + apply assoc_map_other. exact Enk.
  - rewrite assoc_app. destruct (str_eqb n k) eqn:Enk.
    + apply str_eqb_eq in Enk. subst n. rewrite (assoc_not_in _ _ Ex). simpl.
      rewrite str_eqb_refl. reflexivity.
    + destruct (Cache.assoc n o); [reflexivity|]. simpl. rewrite Enk. reflexivity.
Qed.

Lemma assoc_obj_set_proto : forall o k v,
  Cache.assoc (lit "__proto__") (ExtractTool.obj_set o k v) = Cache.assoc (lit "__proto__") o.
Proof.
  intros o k v. unfold ExtractTool.obj_set.
  destruct (str_eqb k (lit "__proto__")) eqn:Ek; [reflexivity|].
  assert (Hk : str_eqb (lit "__proto__") k = false) by (rewrite str_eqb_sym; exact Ek).
  destruct (existsb (fun kv => str_eqb (fst kv) k) o).
  - apply assoc_map_other. exact Hk.
  - rewrite assoc_app. destruct (Cache.assoc (lit "__proto__") o); [reflexivity|].
    cbn [Cache.assoc]. rewrite Hk. reflexivity.
Qed.

Lemma region_mapping_fold : forall rs o n, str_eqb n (lit "__proto__") = false ->
  Cache.assoc n (fold_left (fun o r => ExtractTool.obj_set o (ExtractTool.res_name r)
                                         (ExtractTool.res_dataUrl r))
                           (filter ExtractTool.res_ok rs) o)
  = fold_left (fun acc r => if ExtractTool.res_ok r && str_eqb (ExtractTool.res_name r) n
                            then Some (ExtractTool.res_dataUrl r) else acc) rs (Cache.assoc n o).
Proof.
  induction rs as [|r rs IH]; intros o n Hn; simpl; [reflexivity|].
  destruct (ExtractTool.res_ok r); simpl; [|apply IH; exact Hn].
  rewrite IH by exact Hn. f_equal. rewrite assoc_obj_set by exact Hn.
  rewrite str_eqb_sym. reflexivity.
Qed.

Lemma region_mapping_fold_proto : forall rs o,
  Cache.assoc (lit "__proto__")
    (fold_left (fun o r => ExtractTool.obj_set o (ExtractTool.res_name r)
                             (ExtractTool.res_dataUrl r)) rs o)
  = Cache.assoc (lit "__proto__") o.
Proof.
  induction rs as [|r rs IH]; intros o; simpl; [reflexivity|].
  rewrite IH. apply assoc_obj_set_proto.
Qed.

(** Extra: the region mapping that extract_image_regions stores in the
    cache maps a region name to the data URL of the last successful
    region of that name, and has no entry for a name without a
    successful region; a region named [__proto__] is never stored, and
    reading that name from the mapping gives the inherited prototype. *)
Theorem region_mapping_lookup : forall rs n,
  Cache.assoc n (ExtractTool.region_mapping rs)
  = (if str_eqb n (lit "__proto__") then None else last_ok n rs) /\
  Cache.obj_get (ExtractTool.region_mapping rs) (lit "__proto__") = Cache.JBuiltin.
Proof.
  intros rs n. unfold ExtractTool.region_mapping. split.
  - destruct (str_eqb n (lit "__proto__")) eqn:E.
    + apply str_eqb_eq in E. subst n. rewrite region_mapping_fold_proto. reflexivity.
    + rewrite region_mapping_fold by exact E. reflexivity.
  - unfold Cache.obj_get. rewrite region_mapping_fold_proto. reflexivity.
Qed.

